(** * s3-archive-stream: a shallow embedding of [src/index.ts]

    The development follows [s3ArchiveStream] top to bottom: the JavaScript
    string primitives the code calls, the entry types, the error classes,
    the S3 client and archiver interfaces, the body of the async function
    [appendArchiveEntries] as a machine that advances from one awaited
    [s3Client.send] to the next, the grouping reducer, and the
    [Promise.all(...).then(...).catch(...)] chain that finalizes or aborts
    the archive.

    Strings are sequences of code units. The S3 client and the archiver are
    the two collaborators the module does not own: a client is a function
    from commands to responses, and the archiver is what the code did to it
    together with two choices left to the environment, whether
    [archive.append] throws and whether [archive.finalize()] rejects. The
    groups of different buckets run concurrently: a schedule says which
    group's pending send settles next, and every property of a build is
    proved for all schedules. The [options] argument only selects the
    container format and the archiver's own settings; it plays no part in
    what follows and is left out. *)

From Stdlib Require Import ZArith Ascii String List Lia Permutation.
From stdpp Require Import base option list strings gmap.

Open Scope string_scope.
Open Scope list_scope.
Open Scope Z_scope.

(** ** JavaScript string primitives used by the source *)

Module JS.

(** [s.length] *)
Definition length (s : string) : Z := Z.of_nat (String.length s).

(** [s.startsWith(t)] *)
Fixpoint startsWith (s t : string) {struct t} : bool :=
  match t, s with
  | EmptyString, _ => true
  | String _ _, EmptyString => false
  | String b t', String a s' => if Ascii.eqb a b then startsWith s' t' else false
  end.

(** [s.endsWith(t)]: some tail of [s] is [t]. *)
Fixpoint endsWith (s t : string) : bool :=
  if String.eqb s t then true
  else match s with
       | EmptyString => false
       | String _ s' => endsWith s' t
       end.

(** [s.lastIndexOf(t)]: the largest index at which [t] occurs, [-1] when
    it does not occur. [i] is the index of the head of [s] in the whole
    string and [found] the best index seen so far. *)
Fixpoint lastIndexOf_from (s t : string) (i found : Z) : Z :=
  let found' := if startsWith s t then i else found in
  match s with
  | EmptyString => found'
  | String _ s' => lastIndexOf_from s' t (i + 1) found'
  end.

Definition lastIndexOf (s t : string) : Z := lastIndexOf_from s t 0 (-1).

(** Dropping the first [n] code units (all of them when [n] exceeds the
    length). *)
Fixpoint drop (n : nat) (s : string) : string :=
  match n, s with
  | O, _ => s
  | S _, EmptyString => EmptyString
  | S n', String _ s' => drop n' s'
  end.

(** [s.substring(start)]: a negative [start] counts as [0], one beyond
    the length as the length. *)
Definition substring (s : string) (start : Z) : string :=
  drop (Z.to_nat start) s.

(** [s.slice(start)]: a negative [start] counts from the end. *)
Definition slice (s : string) (start : Z) : string :=
  if start <? 0 then drop (Z.to_nat (length s + start)) s
  else drop (Z.to_nat start) s.

(** Truthiness of an optional boolean ([undefined] is falsy). *)
Definition truthy (b : option bool) : bool :=
  match b with
  | Some true => true
  | _ => false
  end.

End JS.

(** A string that contains no path separator. *)
Definition NoSeparator (s : string) : Prop :=
  forall a b : string, s <> a +:+ "/" +:+ b.

(** ** Entries *)

(** The fields of archiver's [EntryData] other than [name]: the metadata
    every entry may carry and that is handed to the archive unchanged. *)
Record EntryMetadata := mkMetadata {
  date : option string;
  mode : option Z;
  entryPrefix : option string
}.

Definition noMetadata : EntryMetadata := mkMetadata None None None.

Module FileEntry.
Record t := mk {
  name : option string;
  s3BucketName : string;
  s3Key : string;
  preserveFolderStructure : option bool;
  rest : EntryMetadata
}.
End FileEntry.

Module DirEntry.
Record t := mk {
  s3BucketName : string;
  s3Dir : string;
  preserveFolderStructure : option bool;
  rest : EntryMetadata
}.
End DirEntry.

(** [S3ArchiveStreamEntry]: the code tells the two shapes apart with
    ['s3Dir' in archiveEntry]. *)
Inductive S3ArchiveStreamEntry :=
| File (f : FileEntry.t)
| Dir (d : DirEntry.t).

Definition s3BucketName (e : S3ArchiveStreamEntry) : string :=
  match e with
  | File f => FileEntry.s3BucketName f
  | Dir d => DirEntry.s3BucketName d
  end.

(** ** Naming *)

(** Line 118: the prefix used for the listing and for stripping names. *)
Definition prefix (s3Dir : string) : string :=
  if JS.endsWith s3Dir "/" then s3Dir else s3Dir +:+ "/".

(** Line 142: the name given to an object found under a directory. *)
Definition dirArchiveEntryName (preserveFolderStructure : option bool)
    (prefix Key : string) : string :=
  if JS.truthy preserveFolderStructure then Key
  else JS.slice Key (JS.length prefix).

(** Lines 145-150: the file entry pushed for a listed key. The spread
    [...rest] carries neither [s3Dir] nor [preserveFolderStructure]. *)
Definition directoryEntry (d : DirEntry.t) (Key : string) : FileEntry.t :=
  FileEntry.mk
    (Some (dirArchiveEntryName (DirEntry.preserveFolderStructure d)
             (prefix (DirEntry.s3Dir d)) Key))
    (DirEntry.s3BucketName d)
    Key
    None
    (DirEntry.rest d).

(** Lines 189-190: the name under which a file entry is appended. *)
Definition archiveEntryName (f : FileEntry.t) : string :=
  match FileEntry.name f with
  | Some name => name
  | None =>
      if JS.truthy (FileEntry.preserveFolderStructure f) then FileEntry.s3Key f
      else JS.substring (FileEntry.s3Key f)
             (JS.lastIndexOf (FileEntry.s3Key f) "/" + 1)
  end.

(** Line 169: the keys the file branch refuses. *)
Definition invalidS3Key (s3Key : string) : bool :=
  String.eqb s3Key "" || JS.endsWith s3Key "/".

(** ** Errors *)

(** Values the code throws or receives in a [catch]. The first four are
    values made outside the module (a plain [Error], the [TypeError] of the
    runtime, a rejection of [s3Client.send], an error of the archiver); the
    last four are the module's own subclasses of [S3ArchiveStreamError],
    two of which keep the caught value as [originalError]. *)
Inductive Thrown :=
| Error (message : string)
| TypeError (message : string)
| ServiceException (name : string)
| ArchiverError (code : string)
| NoS3ClientProvidedForBucketError (s3BucketName : string)
| FailedToGetS3ObjectStreamError (s3Key : string) (e : Thrown)
| InvalidS3KeyError (s3Key : string)
| FailedToListObjectsError (s3Key : string) (e : Thrown).

(** The two plain errors the code raises itself (lines 135 and 184). *)
Definition emptyDirectoryError : Thrown :=
  Error "The provided directory is empty.".

Definition notReadableError : Thrown :=
  Error "S3 Object stream is null or not a Readable stream.".

(** ** The S3 client *)

Module ListObjectsV2CommandInput.
Record t := mk {
  Bucket : string;
  Prefix : string;
  ContinuationToken : option string
}.
End ListObjectsV2CommandInput.

Module ListObjectsV2CommandOutput.
Record t := mk {
  ContinuationToken : option string;
  KeyCount : option Z;
  NextContinuationToken : option string;
  (** [Contents] may be missing, and so may the [Key] of an object. *)
  Contents : option (list (option string));
  IsTruncated : option bool
}.
End ListObjectsV2CommandOutput.

Module GetObjectCommandInput.
Record t := mk {
  Bucket : string;
  Key : string
}.
End GetObjectCommandInput.

(** The [Body] of a response: a Node [Readable] carrying some content, or a
    payload of another class (a [Blob], a web [ReadableStream]). *)
Inductive StreamingBlob :=
| Readable (content : string)
| NotReadable (content : string).

Module GetObjectCommandOutput.
Record t := mk {
  Body : option StreamingBlob
}.
End GetObjectCommandOutput.

(** An [S3Client] answers the two commands the code sends: [send] either
    rejects with some value or resolves with a response. The client is a
    fixed responder, as the mocked client of the test suite is. *)
Record S3Client := mkClient {
  sendListObjectsV2 :
    ListObjectsV2CommandInput.t -> Thrown + ListObjectsV2CommandOutput.t;
  sendGetObject :
    GetObjectCommandInput.t -> Thrown + GetObjectCommandOutput.t
}.

Inductive Command :=
| ListObjectsV2Command (input : ListObjectsV2CommandInput.t)
| GetObjectCommand (input : GetObjectCommandInput.t).

(** ** The archive *)

(** The second argument of [archive.append]: [{ ...rest, name }]. *)
Record EntryData := mkEntryData {
  entryName : string;
  metadata : EntryMetadata
}.

(** One accepted [archive.append(s3ObjectStream, data)]; [origin] records
    the request whose response carried the stream. *)
Record Appended := mkAppended {
  origin : GetObjectCommandInput.t;
  s3ObjectStream : string;
  data : EntryData
}.

(** What the code has done to the archiver: the entries queued, and the
    calls of [finalize], [destroy] and [abort]. *)
Record Archiver := mkArchiver {
  queue : list Appended;
  finalizeCalls : nat;
  destroyCalls : list Thrown;
  abortCalls : nat
}.

Definition archiver : Archiver := mkArchiver [] 0 [] 0.

(** ** [appendArchiveEntries] between two awaited sends *)

(** The locals of the [s3Dir] branch while a [ListObjectsV2Command] is in
    flight (lines 117-121). *)
Record Listing := mkListing {
  dir : DirEntry.t;
  directoryEntries : list S3ArchiveStreamEntry;
  continuationToken : option string
}.

(** The send an invocation is suspended on. *)
Inductive Awaiting :=
| AwaitList (l : Listing)
| AwaitGet (f : FileEntry.t).

(** The promise of one group. While it is pending the function is
    suspended on a send; [frames] holds what remains of the [for] loop of
    the running invocation, then of its caller (line 165), and so on. *)
Inductive GroupState :=
| Suspended (a : Awaiting) (frames : list (list S3ArchiveStreamEntry))
| Fulfilled
| Rejected (e : Thrown).

Definition listInput (l : Listing) : ListObjectsV2CommandInput.t :=
  ListObjectsV2CommandInput.mk
    (DirEntry.s3BucketName (dir l))
    (prefix (DirEntry.s3Dir (dir l)))
    (continuationToken l).

Definition getInput (f : FileEntry.t) : GetObjectCommandInput.t :=
  GetObjectCommandInput.mk (FileEntry.s3BucketName f) (FileEntry.s3Key f).

(** The command a suspended invocation has sent. *)
Definition pendingCommand (st : GroupState) : list Command :=
  match st with
  | Suspended (AwaitList l) _ => [ListObjectsV2Command (listInput l)]
  | Suspended (AwaitGet f) _ => [GetObjectCommand (getInput f)]
  | _ => []
  end.

(** Running from the head of the [for] loop (line 113) up to the next
    send: a directory entry sends its first listing, a file entry is
    checked (line 169) and sends its fetch, an exhausted loop returns to
    the caller. *)
Fixpoint appendArchiveEntries (frames : list (list S3ArchiveStreamEntry))
    : GroupState :=
  match frames with
  | [] => Fulfilled
  | [] :: callers => appendArchiveEntries callers
  | (Dir d :: archiveEntries) :: callers =>
      Suspended (AwaitList (mkListing d [] None)) (archiveEntries :: callers)
  | (File f :: archiveEntries) :: callers =>
      if invalidS3Key (FileEntry.s3Key f)
      then Rejected (InvalidS3KeyError (FileEntry.s3Key f))
      else Suspended (AwaitGet f) (archiveEntries :: callers)
  end.

(** Line 141: the listed keys that become entries. *)
Definition listedKey (Key : option string) : option string :=
  match Key with
  | Some k => if negb (JS.endsWith k "/") && negb (String.eqb k "") then Some k else None
  | None => None
  end.

(** Lines 140-152: the entries pushed for one page. *)
Definition pageEntries (d : DirEntry.t)
    (out : ListObjectsV2CommandOutput.t) : list S3ArchiveStreamEntry :=
  map (fun k => File (directoryEntry d k))
    (omap listedKey (default [] (ListObjectsV2CommandOutput.Contents out))).

(** Line 134: the test for an empty directory. *)
Definition isEmptyDirectory (out : ListObjectsV2CommandOutput.t) : bool :=
  match ListObjectsV2CommandOutput.ContinuationToken out,
        ListObjectsV2CommandOutput.KeyCount out with
  | None, Some 0 => true
  | _, _ => false
  end.

(** The function resumes when the send it awaits settles. [appendThrows]
    is what the archiver does if [archive.append] is reached in this
    stretch: [None] when it returns, [Some e] when it throws [e]. The result
    is the new state and the entries queued on the way. *)
Definition resume (s3Client : S3Client) (a : Awaiting)
    (frames : list (list S3ArchiveStreamEntry)) (appendThrows : option Thrown)
    : GroupState * list Appended :=
  match a with
  | AwaitList l =>
      let prefix := prefix (DirEntry.s3Dir (dir l)) in
      match sendListObjectsV2 s3Client (listInput l) with
      | inl e => (Rejected (FailedToListObjectsError prefix e), [])
      | inr listObjectsResponse =>
          if isEmptyDirectory listObjectsResponse
          then (Rejected (FailedToListObjectsError prefix emptyDirectoryError), [])
          else
            let l' :=
              mkListing (dir l)
                (directoryEntries l ++ pageEntries (dir l) listObjectsResponse)
                (ListObjectsV2CommandOutput.NextContinuationToken listObjectsResponse) in
            if JS.truthy (ListObjectsV2CommandOutput.IsTruncated listObjectsResponse)
            then (Suspended (AwaitList l') frames, [])
            else (appendArchiveEntries (directoryEntries l' :: frames), [])
      end
  | AwaitGet f =>
      let s3Key := FileEntry.s3Key f in
      match sendGetObject s3Client (getInput f) with
      | inl e => (Rejected (FailedToGetS3ObjectStreamError s3Key e), [])
      | inr response =>
          match GetObjectCommandOutput.Body response with
          | Some (Readable content) =>
              match appendThrows with
              | Some e =>
                  (Rejected (FailedToGetS3ObjectStreamError s3Key e), [])
              | None =>
                  (appendArchiveEntries frames,
                   [mkAppended (getInput f) content
                      (mkEntryData (archiveEntryName f) (FileEntry.rest f))])
              end
          | _ => (Rejected (FailedToGetS3ObjectStreamError s3Key notReadableError), [])
          end
      end
  end.

(** One settled send of a group; a settled promise stays as it is. *)
Definition stepGroup (s3Client : S3Client) (st : GroupState)
    (appendThrows : option Thrown) : GroupState * list Appended :=
  match st with
  | Suspended a frames => resume s3Client a frames appendThrows
  | _ => (st, [])
  end.

(** A group on its own: one settled send per element of [outcomes]. *)
Fixpoint runGroup (s3Client : S3Client) (outcomes : list (option Thrown))
    (st : GroupState) : GroupState * list Appended :=
  match outcomes with
  | [] => (st, [])
  | o :: outcomes' =>
      let '(st', q) := stepGroup s3Client st o in
      let '(st'', q') := runGroup s3Client outcomes' st' in
      (st'', q ++ q')
  end.

(** ** Grouping by bucket (lines 202-208) *)

(** The accumulator of the reducer starts as the object literal [{}]; its
    own properties are kept in insertion order. *)
Abbreviation Buckets := (list (string * list S3ArchiveStreamEntry)).

(** What [{}] inherits from [Object.prototype]: reading one of these names
    on the accumulator yields a function (or the prototype itself), never
    [undefined]. *)
Definition inheritedProperties : list string :=
  [ "constructor"; "__defineGetter__"; "__defineSetter__"; "hasOwnProperty";
    "__lookupGetter__"; "__lookupSetter__"; "isPrototypeOf";
    "propertyIsEnumerable"; "toString"; "valueOf"; "__proto__";
    "toLocaleString" ].

Fixpoint ownProperty (acc : Buckets) (key : string)
    : option (list S3ArchiveStreamEntry) :=
  match acc with
  | [] => None
  | kv :: acc' => if decide (kv.1 = key) then Some kv.2 else ownProperty acc' key
  end.

(** [acc[key].push(val)] on an own property. *)
Definition push (key : string) (val : S3ArchiveStreamEntry) (acc : Buckets)
    : Buckets :=
  map (fun kv => if decide (kv.1 = key) then (kv.1, kv.2 ++ [val]) else kv) acc.

(** The callback given to [entries.reduce]. When the bucket name is not an
    own property but is inherited, [acc[name] == null] is false, no array is
    stored, and [push] is not a function of what is found. *)
Definition groupedS3Buckets_callback (acc : Buckets)
    (val : S3ArchiveStreamEntry) : Thrown + Buckets :=
  let key := s3BucketName val in
  match ownProperty acc key with
  | Some _ => inr (push key val acc)
  | None =>
      if decide (key ∈ inheritedProperties)
      then inl (TypeError "acc[val.s3BucketName].push is not a function")
      else inr (acc ++ [(key, [val])])
  end.

Fixpoint reduce (acc : Buckets) (entries : list S3ArchiveStreamEntry)
    : Thrown + Buckets :=
  match entries with
  | [] => inr acc
  | val :: entries' =>
      match groupedS3Buckets_callback acc val with
      | inl e => inl e
      | inr acc' => reduce acc' entries'
      end
  end.

Definition groupedS3Buckets (entries : list S3ArchiveStreamEntry)
    : Thrown + Buckets :=
  reduce [] entries.

(** [Object.entries] lists the keys that are array indices first, in
    ascending numeric order, then the others in insertion order. An array
    index is the canonical decimal form of an integer below [2^32 - 1]. *)
Definition isDigit (c : ascii) : bool :=
  ((48 <=? N_of_ascii c) && (N_of_ascii c <=? 57))%N.

Fixpoint digitsValue (s : string) (acc : N) : option N :=
  match s with
  | EmptyString => Some acc
  | String c s' =>
      if isDigit c then digitsValue s' (acc * 10 + (N_of_ascii c - 48))%N
      else None
  end.

Definition arrayIndex (key : string) : option N :=
  match key with
  | EmptyString => None
  | String c s' =>
      if Ascii.eqb c "0" && negb (String.eqb s' "") then None
      else match digitsValue key 0 with
           | Some n => if (n <? 2 ^ 32 - 1)%N then Some n else None
           | None => None
           end
  end.

Fixpoint insertByIndex {A} (x : N * A) (l : list (N * A)) : list (N * A) :=
  match l with
  | [] => [x]
  | y :: l' => if (x.1 <? y.1)%N then x :: y :: l' else y :: insertByIndex x l'
  end.

Definition Object_entries {A} (o : list (string * A)) : list (string * A) :=
  map snd
    (foldr insertByIndex []
       (omap (fun kv => match arrayIndex kv.1 with
                        | Some n => Some (n, kv)
                        | None => None
                        end) o))
  ++ filter (fun kv => arrayIndex kv.1 = None) o.

(** ** Client routing (lines 215-219) *)

(** [clientOrClients]: one client, or a record from bucket name to client. *)
Inductive ClientOrClients :=
| OneClient (c : S3Client)
| ClientRecord (m : gmap string S3Client).

(** A name missing from the record reads as [undefined], or as an inherited
    member of [Object.prototype]; neither is an instance of [S3Client]. *)
Definition client (clientOrClients : ClientOrClients) (s3BucketName : string)
    : Thrown + S3Client :=
  match clientOrClients with
  | OneClient c => inr c
  | ClientRecord m =>
      match m !! s3BucketName with
      | Some c => inr c
      | None => inl (NoS3ClientProvidedForBucketError s3BucketName)
      end
  end.

(** ** The promise chain (lines 212-229) *)

(** One element of the array given to [Promise.all]: the promise of the
    async callback for a bucket, and the client it runs with. *)
Record Group := mkGroup {
  bucket : string;
  s3Client : option S3Client;
  promise : GroupState
}.

(** The callback of [map], run up to its first awaited send. *)
Definition launch (clientOrClients : ClientOrClients)
    (kv : string * list S3ArchiveStreamEntry) : Group :=
  match client clientOrClients kv.1 with
  | inl e => mkGroup kv.1 None (Rejected e)
  | inr c => mkGroup kv.1 (Some c) (appendArchiveEntries [kv.2])
  end.

(** Where the chain stands: still waiting for [Promise.all], gone through
    [then] (finalized), or gone through [catch] with the value caught. *)
Inductive Chain :=
| Pending
| Finalized
| Caught (e : Thrown).

Record Build := mkBuild {
  groups : list Group;
  archive : Archiver;
  sent : list Command;
  chain : Chain
}.

Definition isRejected (g : Group) : option Thrown :=
  match promise g with
  | Rejected e => Some e
  | _ => None
  end.

Definition isFulfilled (g : Group) : bool :=
  match promise g with
  | Fulfilled => true
  | _ => false
  end.

(** The rejections handed to [Promise.all], in the order in which it sees
    them. A callback of [map] that throws itself (line 218) rejects its
    promise at once. A rejection of [appendArchiveEntries] reaches the
    promise of the callback, which was resolved with the promise of
    [appendArchiveEntries] (line 221), only when that promise has adopted
    it, some microtasks later: it is seen after the rejections of the
    callbacks that had no client, whatever the order of the buckets. *)
Definition rejections (gs : list Group) : list Thrown :=
  omap (fun g => match s3Client g with
                 | None => isRejected g
                 | Some _ => None
                 end) gs
  ++ omap (fun g => match s3Client g with
                    | Some _ => isRejected g
                    | None => None
                    end) gs.

Definition append (q : list Appended) (a : Archiver) : Archiver :=
  mkArchiver (queue a ++ q) (finalizeCalls a) (destroyCalls a) (abortCalls a).

Definition finalize (a : Archiver) : Archiver :=
  mkArchiver (queue a) (S (finalizeCalls a)) (destroyCalls a) (abortCalls a).

Definition destroy (e : Thrown) (a : Archiver) : Archiver :=
  mkArchiver (queue a) (finalizeCalls a) (destroyCalls a ++ [e]) (abortCalls a).

Definition abort (a : Archiver) : Archiver :=
  mkArchiver (queue a) (finalizeCalls a) (destroyCalls a) (S (abortCalls a)).

(** One send of one group settles; [appendThrows] as for [resume]. *)
Record Tick := mkTick {
  group : nat;
  appendThrows : option Thrown
}.

Section Chain.

(** Whether the promise returned by [archive.finalize()] rejects, and
    with what. *)
Variable finalizeRejects : option Thrown.

(** The reactions of the chain. [Promise.all] rejects with the first
    rejection it sees and resolves once every promise is fulfilled; it
    settles once. [catch] also receives a rejection of [finalize]. *)
Definition settle (b : Build) : Build :=
  match chain b with
  | Pending =>
      match head (rejections (groups b)) with
      | Some e =>
          mkBuild (groups b) (abort (destroy e (archive b))) (sent b) (Caught e)
      | None =>
          if forallb isFulfilled (groups b) then
            match finalizeRejects with
            | None =>
                mkBuild (groups b) (finalize (archive b)) (sent b) Finalized
            | Some e =>
                mkBuild (groups b) (abort (destroy e (finalize (archive b))))
                  (sent b) (Caught e)
            end
          else b
      end
  | _ => b
  end.

(** [s3ArchiveStream] up to its [return] and the reactions already due:
    either the reducer throws, or the caller holds the archive with every
    group started. *)
Definition s3ArchiveStream (clientOrClients : ClientOrClients)
    (entries : list S3ArchiveStreamEntry) : Thrown + Build :=
  match groupedS3Buckets entries with
  | inl e => inl e
  | inr grouped =>
      let gs := map (launch clientOrClients) (Object_entries grouped) in
      inr (settle (mkBuild gs archiver
                     (flat_map (fun g => pendingCommand (promise g)) gs)
                     Pending))
  end.

(** The send awaited by group [group t] settles: the group runs to its
    next send or to its end, then the chain reacts. *)
Definition tick (b : Build) (t : Tick) : Build :=
  match groups b !! group t with
  | Some g =>
      match s3Client g, promise g with
      | Some c, Suspended a frames =>
          let '(st, q) := resume c a frames (appendThrows t) in
          settle
            (mkBuild (<[group t := mkGroup (bucket g) (Some c) st]> (groups b))
               (append q (archive b))
               (sent b ++ pendingCommand st)
               (chain b))
      | _, _ => b
      end
  | None => b
  end.

(** The build after the sends settle in the order of [schedule]. *)
Definition run (schedule : list Tick) (b : Build) : Build :=
  foldl tick b schedule.

End Chain.

(** ** Vocabulary of the properties *)

(** The decidable form of [NoSeparator]. *)
Fixpoint noSeparator (s : string) : bool :=
  match s with
  | EmptyString => true
  | String c s' => negb (Ascii.eqb c "/") && noSeparator s'
  end.

(** A string that ends with one separator and not with two. *)
Definition ExactlyOneTrailingSeparator (s : string) : Prop :=
  JS.endsWith s "/" = true /\ JS.endsWith s "//" = false.

(** The pages a client serves for one prefix, from the request that carries
    [token] on: each page after the first is the answer to the request that
    carries the [NextContinuationToken] of the page before, every page but
    the last is truncated, and no page passes the test of line 134. *)
Inductive Pages (s3Client : S3Client) (Bucket Prefix : string)
    : option string -> list ListObjectsV2CommandOutput.t -> Prop :=
| Pages_last token out :
    sendListObjectsV2 s3Client
      (ListObjectsV2CommandInput.mk Bucket Prefix token) = inr out ->
    isEmptyDirectory out = false ->
    JS.truthy (ListObjectsV2CommandOutput.IsTruncated out) = false ->
    Pages s3Client Bucket Prefix token [out]
| Pages_more token out outs :
    sendListObjectsV2 s3Client
      (ListObjectsV2CommandInput.mk Bucket Prefix token) = inr out ->
    isEmptyDirectory out = false ->
    JS.truthy (ListObjectsV2CommandOutput.IsTruncated out) = true ->
    Pages s3Client Bucket Prefix
      (ListObjectsV2CommandOutput.NextContinuationToken out) outs ->
    Pages s3Client Bucket Prefix token (out :: outs).

(** The keys of some pages, in listing order, that are present, are not
    empty and do not end in a separator. *)
Definition archivedKeys (outs : list ListObjectsV2CommandOutput.t)
    : list string :=
  filter (fun k => k <> "" /\ JS.endsWith k "/" = false)
    (omap id
       (concat (map (fun out =>
                       default [] (ListObjectsV2CommandOutput.Contents out))
                  outs))).

(** What an entry of the input stands for once directories are listed: a
    file entry stands for itself, a directory entry for the file entries of
    its archived keys. *)
Inductive Resolves (s3Client : S3Client)
    : S3ArchiveStreamEntry -> list FileEntry.t -> Prop :=
| Resolves_file f : Resolves s3Client (File f) [f]
| Resolves_dir d outs :
    Pages s3Client (DirEntry.s3BucketName d) (prefix (DirEntry.s3Dir d))
      None outs ->
    Resolves s3Client (Dir d) (map (directoryEntry d) (archivedKeys outs)).

(** The request and the entry data with which a file entry reaches the
    archive. *)
Definition appendedAs (f : FileEntry.t) : GetObjectCommandInput.t * EntryData :=
  (getInput f, mkEntryData (archiveEntryName f) (FileEntry.rest f)).

(** The three ways a fetch fails: the send is rejected, the response has
    no body, the body is not a [Readable]. *)
Definition FetchFails (s3Client : S3Client) (f : FileEntry.t) : Prop :=
  (exists e, sendGetObject s3Client (getInput f) = inl e) \/
  (exists out, sendGetObject s3Client (getInput f) = inr out /\
     GetObjectCommandOutput.Body out = None) \/
  (exists out content, sendGetObject s3Client (getInput f) = inr out /\
     GetObjectCommandOutput.Body out = Some (NotReadable content)).

(** A page without keys, on which the listing does not stop, leaves the
    function suspended on the request for the next page. *)
Definition EmptyPageContinues : Prop :=
  forall s3Client l frames appendThrows out,
    sendListObjectsV2 s3Client (listInput l) = inr out ->
    ListObjectsV2CommandOutput.KeyCount out = Some 0 ->
    JS.truthy (ListObjectsV2CommandOutput.IsTruncated out) = true ->
    exists l',
      (resume s3Client (AwaitList l) frames appendThrows).1
      = Suspended (AwaitList l') frames.

(** A [FailedToGetS3ObjectStreamError] is only ever a failed fetch. *)
Definition OnlyFetchFails : Prop :=
  forall s3Client f frames appendThrows s3Key e,
    (resume s3Client (AwaitGet f) frames appendThrows).1
    = Rejected (FailedToGetS3ObjectStreamError s3Key e) ->
    FetchFails s3Client f.

(** Clients and entries the examples use. *)
Definition object (Key : string) : option string := Some Key.

Definition page (ContinuationToken : option string) (KeyCount : Z)
    (NextContinuationToken : option string) (Keys : list (option string))
    (IsTruncated : bool) : ListObjectsV2CommandOutput.t :=
  ListObjectsV2CommandOutput.mk ContinuationToken (Some KeyCount)
    NextContinuationToken (Some Keys) (Some IsTruncated).

(** A bucket listed in two pages, the first of which holds a folder marker
    and the second an empty key; every object is served as a [Readable]
    whose content is its key. *)
Definition twoPages : list ListObjectsV2CommandOutput.t :=
  [ page None 3 (Some "token-1")
      [object "dir/x.txt"; object "dir/sub/"; object "dir/sub/y.txt"] true;
    page (Some "token-1") 2 None [object "dir/z.txt"; object ""] false ].

Definition twoPageClient : S3Client :=
  mkClient
    (fun input =>
       match ListObjectsV2CommandInput.ContinuationToken input with
       | None =>
           inr (page None 3 (Some "token-1")
                  [object "dir/x.txt"; object "dir/sub/"; object "dir/sub/y.txt"]
                  true)
       | Some _ =>
           inr (page (Some "token-1") 2 None
                  [object "dir/z.txt"; object ""] false)
       end)
    (fun input =>
       inr (GetObjectCommandOutput.mk
              (Some (Readable (GetObjectCommandInput.Key input))))).

(** A listing whose first page has no key although more pages follow. *)
Definition emptyFirstPageClient : S3Client :=
  mkClient
    (fun input =>
       match ListObjectsV2CommandInput.ContinuationToken input with
       | None => inr (page None 0 (Some "token-1") [] true)
       | Some _ => inr (page (Some "token-1") 1 None [object "dir/x.txt"] false)
       end)
    (fun input =>
       inr (GetObjectCommandOutput.mk
              (Some (Readable (GetObjectCommandInput.Key input))))).

Definition fileEntry (s3BucketName s3Key : string) : FileEntry.t :=
  FileEntry.mk None s3BucketName s3Key None noMetadata.

Definition dirEntry (s3BucketName s3Dir : string) : DirEntry.t :=
  DirEntry.mk s3BucketName s3Dir None noMetadata.

Definition twoFiles : list FileEntry.t :=
  [fileEntry "bucket" "k/one.txt"; fileEntry "bucket" "two.txt"].

(** A record of clients that knows one bucket only. *)
Definition bucketA : gmap string S3Client := {[ "bucket-a" := twoPageClient ]}.

(** ** Invariants *)

(** Every entry of a list, and of a state, names the bucket [b]. *)
Definition EntriesIn (b : string) (es : list S3ArchiveStreamEntry) : Prop :=
  Forall (fun e => s3BucketName e = b) es.

Definition StateIn (b : string) (st : GroupState) : Prop :=
  match st with
  | Suspended (AwaitList l) frames =>
      DirEntry.s3BucketName (dir l) = b /\
      EntriesIn b (directoryEntries l) /\ Forall (EntriesIn b) frames
  | Suspended (AwaitGet f) frames =>
      FileEntry.s3BucketName f = b /\ Forall (EntriesIn b) frames
  | _ => True
  end.

Definition commandBucket (cmd : Command) : string :=
  match cmd with
  | ListObjectsV2Command input => ListObjectsV2CommandInput.Bucket input
  | GetObjectCommand input => GetObjectCommandInput.Bucket input
  end.

(** The part of a queue that was fetched from bucket [b]. *)
Definition fromBucket (b : string) (q : list Appended) : list Appended :=
  filter (fun a => GetObjectCommandInput.Bucket (origin a) = b) q.

(** What the reducer has built after the entries [seen]: one key per
    bucket seen, holding the entries of that bucket in the order seen. *)
Definition Grouped (seen : list S3ArchiveStreamEntry) (acc : Buckets) : Prop :=
  NoDup (map fst acc) /\
  (forall e, e ∈ seen -> s3BucketName e ∈ map fst acc) /\
  (forall kv, kv ∈ acc ->
     kv.2 = filter (fun e => s3BucketName e = kv.1) seen /\ kv.2 <> []).

(** How a group of a running build relates to its bucket [kv]: it holds the
    client the routing gives, and its promise and its part of the queue are
    those of the group run on its own for some outcomes of [append]. *)
Definition Tracks (clientOrClients : ClientOrClients)
    (kv : string * list S3ArchiveStreamEntry) (q : list Appended) (g : Group)
    : Prop :=
  bucket g = kv.1 /\
  match client clientOrClients kv.1 with
  | inl e => s3Client g = None /\ promise g = Rejected e /\ fromBucket kv.1 q = []
  | inr c =>
      s3Client g = Some c /\
      exists outcomes,
        runGroup c outcomes (appendArchiveEntries [kv.2])
        = (promise g, fromBucket kv.1 q)
  end.

(** The groups of a build follow the buckets [kvs], nothing else is in the
    queue, and every command went to a bucket that has a client. *)
Definition Following (clientOrClients : ClientOrClients)
    (kvs : Buckets) (b : Build) : Prop :=
  Forall2 (fun kv g => Tracks clientOrClients kv (queue (archive b)) g)
    kvs (groups b) /\
  Forall (fun a => GetObjectCommandInput.Bucket (origin a) ∈ map fst kvs)
    (queue (archive b)) /\
  Forall (fun cmd => exists c, client clientOrClients (commandBucket cmd) = inr c)
    (sent b).

(** What the chain has done to the archive, given where it stands. *)
Definition ChainInvariant (finalizeRejects : option Thrown) (b : Build) : Prop :=
  match chain b with
  | Pending =>
      omap isRejected (groups b) = [] /\
      forallb isFulfilled (groups b) = false /\
      finalizeCalls (archive b) = 0%nat /\
      destroyCalls (archive b) = [] /\ abortCalls (archive b) = 0%nat
  | Finalized =>
      finalizeRejects = None /\
      forallb isFulfilled (groups b) = true /\
      finalizeCalls (archive b) = 1%nat /\
      destroyCalls (archive b) = [] /\ abortCalls (archive b) = 0%nat
  | Caught e =>
      destroyCalls (archive b) = [e] /\ abortCalls (archive b) = 1%nat /\
      ((exists g, g ∈ groups b /\ promise g = Rejected e) /\
       finalizeCalls (archive b) = 0%nat
       \/
       finalizeRejects = Some e /\
       forallb isFulfilled (groups b) = true /\
       finalizeCalls (archive b) = 1%nat)
  end.

(** ** Vocabulary of the further properties *)

(** What the archiver did at the appends of group [i] in a schedule. *)
Definition outcomesOf (i : nat) (schedule : list Tick) : list (option Thrown) :=
  map appendThrows (filter (fun t => group t = i) schedule).

(** A file entry that passes the check of line 169 and whose object the
    client serves with a [Readable] body. *)
Definition Fetchable (s3Client : S3Client) (f : FileEntry.t) : Prop :=
  invalidS3Key (FileEntry.s3Key f) = false /\
  exists out content,
    sendGetObject s3Client (getInput f) = inr out /\
    GetObjectCommandOutput.Body out = Some (Readable content).

(** A command as the module sends it: a fetch names a key that is neither
    empty nor a folder marker, a listing names a prefix that ends with a
    separator. *)
Definition WellFormed (cmd : Command) : Prop :=
  match cmd with
  | GetObjectCommand input =>
      GetObjectCommandInput.Key input <> "" /\
      JS.endsWith (GetObjectCommandInput.Key input) "/" = false
  | ListObjectsV2Command input =>
      JS.endsWith (ListObjectsV2CommandInput.Prefix input) "/" = true
  end.

(** The content of a queued entry is the [Readable] body with which the
    client answers the fetch the entry came from. *)
Definition Served (s3Client : S3Client) (a : Appended) : Prop :=
  exists out,
    sendGetObject s3Client (origin a) = inr out /\
    GetObjectCommandOutput.Body out = Some (Readable (s3ObjectStream a)).

(** The rejections of [appendArchiveEntries] called on [archiveEntries]:
    a refused key is the key of a file entry of the caller, a failed
    listing names the prefix of a directory entry of the caller, a failed
    fetch names a key that passed the check of line 169. *)
Inductive GroupError (archiveEntries : list S3ArchiveStreamEntry)
    : Thrown -> Prop :=
| GroupError_key f :
    File f ∈ archiveEntries ->
    invalidS3Key (FileEntry.s3Key f) = true ->
    GroupError archiveEntries (InvalidS3KeyError (FileEntry.s3Key f))
| GroupError_list d e :
    Dir d ∈ archiveEntries ->
    GroupError archiveEntries
      (FailedToListObjectsError (prefix (DirEntry.s3Dir d)) e)
| GroupError_get s3Key e :
    invalidS3Key s3Key = false ->
    GroupError archiveEntries (FailedToGetS3ObjectStreamError s3Key e).

(** An entry the function meets on the way: one the caller gave, or a file
    entry made from a listed key. *)
Definition Known (archiveEntries : list S3ArchiveStreamEntry)
    (e : S3ArchiveStreamEntry) : Prop :=
  e ∈ archiveEntries \/
  exists f, e = File f /\ invalidS3Key (FileEntry.s3Key f) = false.

Definition Sourced (archiveEntries : list S3ArchiveStreamEntry)
    (st : GroupState) : Prop :=
  match st with
  | Suspended (AwaitList l) frames =>
      Dir (dir l) ∈ archiveEntries /\
      Forall (Known archiveEntries) (directoryEntries l) /\
      Forall (Forall (Known archiveEntries)) frames
  | Suspended (AwaitGet f) frames =>
      invalidS3Key (FileEntry.s3Key f) = false /\
      Forall (Forall (Known archiveEntries)) frames
  | Fulfilled => True
  | Rejected e => GroupError archiveEntries e
  end.

(** Every command a group awaits and every fetch behind a queued entry
    is among the commands sent. *)
Definition Recorded (b : Build) : Prop :=
  (forall g cmd, g ∈ groups b -> cmd ∈ pendingCommand (promise g) ->
                 cmd ∈ sent b) /\
  (forall a, a ∈ queue (archive b) -> GetObjectCommand (origin a) ∈ sent b) /\
  Forall WellFormed (sent b).

(** A client whose listing never ends: every page holds one key, is
    truncated and names no next token. *)
Definition endlessClient : S3Client :=
  mkClient
    (fun input => inr (page None 1 None [object "dir/x.txt"] true))
    (fun input =>
       inr (GetObjectCommandOutput.mk
              (Some (Readable (GetObjectCommandInput.Key input))))).

(** A client every send of which is rejected. *)
Definition accessDeniedClient : S3Client :=
  mkClient
    (fun input => inl (ServiceException "AccessDenied"))
    (fun input => inl (ServiceException "AccessDenied")).

(** Entries of two buckets, a directory among them. *)
Definition twoBuckets : list S3ArchiveStreamEntry :=
  [ File (fileEntry "bucket-a" "k/one.txt");
    File (fileEntry "bucket-b" "two.txt");
    Dir (dirEntry "bucket-a" "dir") ].


(** A schedule for [twoBuckets]: bucket-b is served between the sends of
    bucket-a, which wait for one object, two pages and three objects. *)
Definition interleaved : list Tick :=
  [ mkTick 0 None; mkTick 1 None; mkTick 0 None; mkTick 0 None;
    mkTick 0 None; mkTick 0 None; mkTick 0 None ].

(** ** The mocked client of the test suite (test/mockClient.ts) *)

(** [mockedBucket[i.Bucket]] followed by a call of [find] or [filter]. On
    a name that is no own key the value read is [undefined] or a member of
    [Object.prototype], and the call throws a [TypeError]. *)
Definition mockedKeys (mockedBucket : gmap string (list string))
    (Bucket method : string) : Thrown + list string :=
  match mockedBucket !! Bucket with
  | Some keys => inr keys
  | None =>
      inl (TypeError
             (if decide (Bucket ∈ inheritedProperties)
              then "mockedBucket[i.Bucket]." +:+ method +:+ " is not a function"
              else "Cannot read properties of undefined (reading '"
                   +:+ method +:+ "')"))
  end.

(** The client after [addS3MockCommands(mockedClient, mockedBucket)]. The
    fake of [ListObjectsV2Command] answers in one page that carries neither
    [KeyCount] nor a token; the fake of [GetObjectCommand] answers with the
    read stream of a file, which stands here for that stream by its path. *)
Definition addS3MockCommands (mockedBucket : gmap string (list string))
    : S3Client :=
  mkClient
    (fun i =>
       match mockedKeys mockedBucket (ListObjectsV2CommandInput.Bucket i) "filter" with
       | inl e => inl e
       | inr keys =>
           inr (ListObjectsV2CommandOutput.mk None None None
                  (Some (map Some
                           (filter (fun f => JS.startsWith f
                                               (ListObjectsV2CommandInput.Prefix i) = true)
                              keys)))
                  (Some false))
       end)
    (fun i =>
       match mockedKeys mockedBucket (GetObjectCommandInput.Bucket i) "find" with
       | inl e => inl e
       | inr keys =>
           inr (GetObjectCommandOutput.mk
                  (Some (Readable
                           ("./test/" +:+ GetObjectCommandInput.Bucket i +:+ "/" +:+
                            default "undefined"
                              (List.find
                                 (fun f => String.eqb f (GetObjectCommandInput.Key i))
                                 keys)))))
       end).

(** The buckets of the test suite (test/index.test.ts, [mockS3Bucket]). *)
Definition mockS3Bucket : gmap string (list string) :=
  {[ "mockedBucket1" :=
       [ "folder1/folder2/folder3/file1.txt";
         "folder1/folder2/folder3/file2.txt";
         "folder1/folder2/folder3/file3.txt";
         "test_file1.txt"; "test_file2.txt"; "test_file3.txt"; "test_file4.txt" ];
     "mockedBucket2" :=
       [ "test_file1.txt"; "test_file2.txt"; "test_file3.txt"; "test_file4.txt" ] ]}.

(** ** The earlier [s3StreamArchive] (lines 243-386) *)

Module S3StreamArchive.

(** An [ArchiveEntry] has the fields of a file entry; whether it stands
    for an object or for a directory is read off its key (line 297). *)
Abbreviation ArchiveEntry := FileEntry.t.

(** The subclasses of [S3StreamArchiveError]; [e] is the value caught. *)
Inductive S3StreamArchiveError :=
| NoS3ClientProvidedForBucketError (s3BucketName : string)
| FailedToGetArchiveEntryStreamError (s3Key : string) (e : Thrown)
| FailedToListObjectsError (s3Key : string) (e : Thrown).

(** One accepted [archive.append(s3ObjectStream, data)], where [data] is
    [{ ...archiveEntry, name: archiveEntryName }]: the whole entry, with
    its name set. *)
Record Appended := mkAppended {
  origin : GetObjectCommandInput.t;
  s3ObjectStream : string;
  data : ArchiveEntry
}.

Definition named (archiveEntry : ArchiveEntry) (archiveEntryName : string)
    : ArchiveEntry :=
  FileEntry.mk (Some archiveEntryName)
    (FileEntry.s3BucketName archiveEntry)
    (FileEntry.s3Key archiveEntry)
    (FileEntry.preserveFolderStructure archiveEntry)
    (FileEntry.rest archiveEntry).

(** Lines 313-325: the entry pushed for a listed key, if any. *)
Definition listedEntry (archiveEntry : ArchiveEntry) (Key : option string)
    : option ArchiveEntry :=
  match Key with
  | Some k =>
      if negb (JS.endsWith k "/") then
        Some (FileEntry.mk
                (Some (if JS.truthy (FileEntry.preserveFolderStructure archiveEntry)
                       then k
                       else JS.slice k (JS.length (FileEntry.s3Key archiveEntry))))
                (FileEntry.s3BucketName archiveEntry)
                k
                (FileEntry.preserveFolderStructure archiveEntry)
                (FileEntry.rest archiveEntry))
      else None
  | None => None
  end.

(** The locals of the directory branch while a listing is in flight. *)
Record Listing := mkListing {
  archiveEntry : ArchiveEntry;
  directoryEntries : list ArchiveEntry;
  continuationToken : option string
}.

Inductive Awaiting :=
| AwaitList (l : Listing)
| AwaitGet (archiveEntry : ArchiveEntry).

Inductive GroupState :=
| Suspended (a : Awaiting) (frames : list (list ArchiveEntry))
| Fulfilled
| Rejected (e : S3StreamArchiveError).

Definition listInput (l : Listing) : ListObjectsV2CommandInput.t :=
  ListObjectsV2CommandInput.mk
    (FileEntry.s3BucketName (archiveEntry l))
    (FileEntry.s3Key (archiveEntry l))
    (continuationToken l).

Definition pendingCommand (st : GroupState) : list Command :=
  match st with
  | Suspended (AwaitList l) _ => [ListObjectsV2Command (listInput l)]
  | Suspended (AwaitGet archiveEntry) _ => [GetObjectCommand (getInput archiveEntry)]
  | _ => []
  end.

(** From the head of the [for] loop (line 294) up to the next send: no
    key is refused. *)
Fixpoint appendArchiveEntries (frames : list (list ArchiveEntry)) : GroupState :=
  match frames with
  | [] => Fulfilled
  | [] :: callers => appendArchiveEntries callers
  | (archiveEntry :: archiveEntries) :: callers =>
      if JS.endsWith (FileEntry.s3Key archiveEntry) "/"
      then Suspended (AwaitList (mkListing archiveEntry [] None))
             (archiveEntries :: callers)
      else Suspended (AwaitGet archiveEntry) (archiveEntries :: callers)
  end.

(** The function resumes when the send it awaits settles; [appendThrows]
    says whether [archive.append] throws. A body that is missing or not a
    [Readable] makes the code throw [new Error()], without a message. *)
Definition resume (s3Client : S3Client) (a : Awaiting)
    (frames : list (list ArchiveEntry)) (appendThrows : option Thrown)
    : GroupState * list Appended :=
  match a with
  | AwaitList l =>
      let s3Key := FileEntry.s3Key (archiveEntry l) in
      match sendListObjectsV2 s3Client (listInput l) with
      | inl e => (Rejected (FailedToListObjectsError s3Key e), [])
      | inr listObjectsResponse =>
          let l' :=
            mkListing (archiveEntry l)
              (directoryEntries l
               ++ omap (listedEntry (archiveEntry l))
                    (default [] (ListObjectsV2CommandOutput.Contents listObjectsResponse)))
              (ListObjectsV2CommandOutput.NextContinuationToken listObjectsResponse) in
          if JS.truthy (ListObjectsV2CommandOutput.IsTruncated listObjectsResponse)
          then (Suspended (AwaitList l') frames, [])
          else (appendArchiveEntries (directoryEntries l' :: frames), [])
      end
  | AwaitGet archiveEntry =>
      let s3Key := FileEntry.s3Key archiveEntry in
      match sendGetObject s3Client (getInput archiveEntry) with
      | inl e => (Rejected (FailedToGetArchiveEntryStreamError s3Key e), [])
      | inr response =>
          match GetObjectCommandOutput.Body response with
          | Some (Readable content) =>
              match appendThrows with
              | Some e => (Rejected (FailedToGetArchiveEntryStreamError s3Key e), [])
              | None =>
                  (appendArchiveEntries frames,
                   [mkAppended (getInput archiveEntry) content
                      (named archiveEntry (archiveEntryName archiveEntry))])
              end
          | _ => (Rejected (FailedToGetArchiveEntryStreamError s3Key (Error "")), [])
          end
      end
  end.

Definition stepGroup (s3Client : S3Client) (st : GroupState)
    (appendThrows : option Thrown) : GroupState * list Appended :=
  match st with
  | Suspended a frames => resume s3Client a frames appendThrows
  | _ => (st, [])
  end.

Fixpoint runGroup (s3Client : S3Client) (outcomes : list (option Thrown))
    (st : GroupState) : GroupState * list Appended :=
  match outcomes with
  | [] => (st, [])
  | o :: outcomes' =>
      let '(st', q) := stepGroup s3Client st o in
      let '(st'', q') := runGroup s3Client outcomes' st' in
      (st'', q ++ q')
  end.

(** Lines 359-365: the reducer is the one of lines 202-208, run here on
    the entries as file entries. *)
Definition asArchiveEntry (e : S3ArchiveStreamEntry) : option ArchiveEntry :=
  match e with
  | File f => Some f
  | Dir _ => None
  end.

Definition groups (entries : list ArchiveEntry)
    : Thrown + list (string * list ArchiveEntry) :=
  match groupedS3Buckets (map File entries) with
  | inl e => inl e
  | inr grouped => inr (map (fun kv => (kv.1, omap asArchiveEntry kv.2)) grouped)
  end.

(** The promise of one bucket, with its client. *)
Record Group := mkGroup {
  bucket : string;
  s3Client : S3Client;
  promise : GroupState
}.

(** Lines 368-376: the callback of [map] is not [async]; without a client
    for a bucket it throws out of [map], and of [s3StreamArchive], after the
    callbacks of the buckets before have run up to their first send. *)
Fixpoint mapGroups (clientOrClients : ClientOrClients)
    (kvs : list (string * list ArchiveEntry))
    : S3StreamArchiveError * list Group + list Group :=
  match kvs with
  | [] => inr []
  | kv :: kvs' =>
      match client clientOrClients kv.1 with
      | inl _ => inl (NoS3ClientProvidedForBucketError kv.1, [])
      | inr c =>
          let g := mkGroup kv.1 c (appendArchiveEntries [kv.2]) in
          match mapGroups clientOrClients kvs' with
          | inl (e, started) => inl (e, g :: started)
          | inr gs => inr (g :: gs)
          end
      end
  end.

(** Where the chain stands: waiting for [Promise.all], gone through [then],
    or rejected; [catch] throws again what it receives, so a rejection stays
    unhandled and the archive is left as it is. *)
Inductive Chain :=
| Pending
| Finalized
| Unhandled (e : Thrown + S3StreamArchiveError).

Record Build := mkBuild {
  builtGroups : list Group;
  queue : list Appended;
  finalizeCalls : nat;
  sent : list Command;
  chain : Chain
}.

Definition isRejected (g : Group) : option S3StreamArchiveError :=
  match promise g with
  | Rejected e => Some e
  | _ => None
  end.

Definition isFulfilled (g : Group) : bool :=
  match promise g with
  | Fulfilled => true
  | _ => false
  end.

Section Chain.

Variable finalizeRejects : option Thrown.

Definition settle (b : Build) : Build :=
  match chain b with
  | Pending =>
      match head (omap isRejected (builtGroups b)) with
      | Some e =>
          mkBuild (builtGroups b) (queue b) (finalizeCalls b) (sent b)
            (Unhandled (inr e))
      | None =>
          if forallb isFulfilled (builtGroups b) then
            mkBuild (builtGroups b) (queue b) (S (finalizeCalls b)) (sent b)
              match finalizeRejects with
              | None => Finalized
              | Some e => Unhandled (inl e)
              end
          else b
      end
  | _ => b
  end.

(** What [s3StreamArchive] does up to its [return]: the reducer throws, or
    the callback of [map] throws (the commands already sent are those of
    the groups started), or the caller holds the archive. *)
Definition s3StreamArchive (clientOrClients : ClientOrClients)
    (entries : list ArchiveEntry)
    : Thrown + (S3StreamArchiveError * list Command + Build) :=
  match groups entries with
  | inl e => inl e
  | inr grouped =>
      match mapGroups clientOrClients (Object_entries grouped) with
      | inl (e, started) =>
          inr (inl (e, flat_map (fun g => pendingCommand (promise g)) started))
      | inr gs =>
          inr (inr (settle (mkBuild gs [] 0
                              (flat_map (fun g => pendingCommand (promise g)) gs)
                              Pending)))
      end
  end.

Definition tick (b : Build) (t : Tick) : Build :=
  match builtGroups b !! group t with
  | Some g =>
      match promise g with
      | Suspended a frames =>
          let '(st, q) := resume (s3Client g) a frames (appendThrows t) in
          settle
            (mkBuild (<[group t := mkGroup (bucket g) (s3Client g) st]> (builtGroups b))
               (queue b ++ q)
               (finalizeCalls b)
               (sent b ++ pendingCommand st)
               (chain b))
      | _ => b
      end
  | None => b
  end.

Definition run (schedule : list Tick) (b : Build) : Build :=
  foldl tick b schedule.

End Chain.

(** The pages a client serves for a prefix; no page is an error. *)
Inductive Pages (s3Client : S3Client) (Bucket Prefix : string)
    : option string -> list ListObjectsV2CommandOutput.t -> Prop :=
| Pages_last token out :
    sendListObjectsV2 s3Client
      (ListObjectsV2CommandInput.mk Bucket Prefix token) = inr out ->
    JS.truthy (ListObjectsV2CommandOutput.IsTruncated out) = false ->
    Pages s3Client Bucket Prefix token [out]
| Pages_more token out outs :
    sendListObjectsV2 s3Client
      (ListObjectsV2CommandInput.mk Bucket Prefix token) = inr out ->
    JS.truthy (ListObjectsV2CommandOutput.IsTruncated out) = true ->
    Pages s3Client Bucket Prefix
      (ListObjectsV2CommandOutput.NextContinuationToken out) outs ->
    Pages s3Client Bucket Prefix token (out :: outs).

(** The keys of some pages that are present and do not end with a
    separator; the empty key is among them when it is listed. *)
Definition archivedKeys (outs : list ListObjectsV2CommandOutput.t)
    : list string :=
  filter (fun k => JS.endsWith k "/" = false)
    (omap id
       (concat (map (fun out =>
                       default [] (ListObjectsV2CommandOutput.Contents out))
                  outs))).

(** What the chain has done, given where it stands. *)
Definition ChainInvariant (finalizeRejects : option Thrown) (b : Build) : Prop :=
  match chain b with
  | Pending =>
      omap isRejected (builtGroups b) = [] /\
      forallb isFulfilled (builtGroups b) = false /\
      finalizeCalls b = 0%nat
  | Finalized =>
      finalizeRejects = None /\
      forallb isFulfilled (builtGroups b) = true /\
      finalizeCalls b = 1%nat
  | Unhandled (inr e) =>
      (exists g, g ∈ builtGroups b /\ promise g = Rejected e) /\
      finalizeCalls b = 0%nat
  | Unhandled (inl e) =>
      finalizeRejects = Some e /\
      forallb isFulfilled (builtGroups b) = true /\
      finalizeCalls b = 1%nat
  end.

End S3StreamArchive.

(** ** Strings *)

Section Strings.

Implicit Types s t a b : string.

Lemma strcat_cons c s t : String c s +:+ t = String c (s +:+ t).
Proof. reflexivity. Qed.

Lemma strcat_nil_l t : "" +:+ t = t.
Proof. reflexivity. Qed.

Lemma strcat_nil_r s : s +:+ "" = s.
Proof. induction s as [|c s IH]; [done|]. by rewrite strcat_cons, IH. Qed.

Lemma strcat_assoc a b t : (a +:+ b) +:+ t = a +:+ (b +:+ t).
Proof. induction a as [|c a IH]; [done|]. by rewrite !strcat_cons, IH. Qed.

Lemma strcat_length a b :
  String.length (a +:+ b) = (String.length a + String.length b)%nat.
Proof. induction a as [|c a IH]; [done|]. rewrite strcat_cons. simpl. by rewrite IH. Qed.

Lemma strcat_inv_tail a b t : a +:+ t = b +:+ t -> a = b.
Proof.
  revert b. induction a as [|c a IH]; intros [|d b] H.
  - done.
  - rewrite strcat_nil_l in H. apply (f_equal String.length) in H.
    rewrite strcat_length in H. simpl in H. lia.
  - rewrite strcat_nil_l in H. apply (f_equal String.length) in H.
    rewrite strcat_length in H. simpl in H. lia.
  - rewrite !strcat_cons in H. injection H as -> H. f_equal. by apply IH.
Qed.

Lemma drop_strcat a b : JS.drop (String.length a) (a +:+ b) = b.
Proof. induction a as [|c a IH]; [by destruct b|]. by rewrite strcat_cons. Qed.

Lemma drop_0 s : JS.drop 0 s = s.
Proof. by destruct s. Qed.

Lemma endsWith_spec s t : JS.endsWith s t = true <-> exists a, s = a +:+ t.
Proof.
  induction s as [|c s IH]; cbn [JS.endsWith].
  - destruct (String.eqb_spec "" t) as [<-|Hne].
    + split; [by exists ""|done].
    + split; [done|]. intros [a Ha]. destruct a as [|d a].
      * by rewrite strcat_nil_l in Ha.
      * by rewrite strcat_cons in Ha.
  - destruct (String.eqb_spec (String c s) t) as [<-|Hne].
    + split; [by exists ""|done].
    + rewrite IH. split.
      * intros [a ->]. by exists (String c a).
      * intros [[|d a] Ha]; [done|]. rewrite strcat_cons in Ha.
        injection Ha as -> ->. by exists a.
Qed.

Lemma endsWith_strcat a t : JS.endsWith (a +:+ t) t = true.
Proof. apply endsWith_spec. by exists a. Qed.

Lemma startsWith_sep s : JS.startsWith s "/" = true <-> exists s', s = String "/" s'.
Proof.
  destruct s as [|c s]; simpl.
  - split; [done|]. by intros [? ?].
  - destruct (Ascii.eqb_spec c "/") as [->|Hne].
    + split; [by exists s|done].
    + split; [done|]. intros [? [= ? ?]]. done.
Qed.

Lemma NoSeparator_cons c s :
  NoSeparator (String c s) <-> c <> "/"%char /\ NoSeparator s.
Proof.
  split.
  - intros H. split.
    + intros ->. by apply (H "" s).
    + intros a b ->. by apply (H (String c a) b).
  - intros [Hc Hs] [|d a] b Heq.
    + rewrite strcat_nil_l, strcat_cons in Heq. by injection Heq as -> _.
    + rewrite strcat_cons in Heq. injection Heq as -> Heq. by apply (Hs a b).
Qed.

Lemma lastIndexOf_from_NoSeparator s i found :
  NoSeparator s -> JS.lastIndexOf_from s "/" i found = found.
Proof.
  revert i found. induction s as [|c s IH]; intros i found Hs; [done|].
  apply NoSeparator_cons in Hs as [Hc Hs].
  cbn [JS.lastIndexOf_from]. 
  replace (JS.startsWith (String c s) "/") with false.
  2:{ symmetry. apply not_true_is_false. intros [s' [= ? ?]]%startsWith_sep. done. }
  by apply IH.
Qed.

Lemma lastIndexOf_from_strcat a b i found :
  NoSeparator b ->
  JS.lastIndexOf_from (a +:+ "/" +:+ b) "/" i found = i + JS.length a.
Proof.
  intros Hb. revert i found. induction a as [|c a IH]; intros i found.
  - rewrite strcat_nil_l, strcat_cons, strcat_nil_l. cbn [JS.lastIndexOf_from].
    replace (JS.startsWith (String "/" b) "/") with true by done.
    rewrite lastIndexOf_from_NoSeparator by done. unfold JS.length. simpl. lia.
  - rewrite strcat_cons. cbn [JS.lastIndexOf_from]. rewrite IH.
    unfold JS.length. simpl String.length. lia.
Qed.

Lemma substring_lastIndexOf a b :
  NoSeparator b ->
  JS.substring (a +:+ "/" +:+ b) (JS.lastIndexOf (a +:+ "/" +:+ b) "/" + 1) = b.
Proof.
  intros Hb. unfold JS.lastIndexOf. rewrite lastIndexOf_from_strcat by done.
  unfold JS.substring, JS.length.
  replace (Z.to_nat (0 + Z.of_nat (String.length a) + 1))
    with (String.length (a +:+ "/")) by (rewrite strcat_length; simpl; lia).
  rewrite <- strcat_assoc. apply drop_strcat.
Qed.

Lemma substring_NoSeparator s :
  NoSeparator s -> JS.substring s (JS.lastIndexOf s "/" + 1) = s.
Proof.
  intros Hs. unfold JS.lastIndexOf. rewrite lastIndexOf_from_NoSeparator by done.
  apply drop_0.
Qed.

Lemma slice_length_strcat a b : JS.slice (a +:+ b) (JS.length a) = b.
Proof.
  unfold JS.slice, JS.length.
  destruct (Z.ltb_spec (Z.of_nat (String.length a)) 0) as [?|_]; [lia|].
  rewrite Nat2Z.id. apply drop_strcat.
Qed.

End Strings.

Lemma NoSeparator_nil : NoSeparator "".
Proof.
  intros [|c a] b H.
  - by rewrite strcat_nil_l in H.
  - by rewrite strcat_cons in H.
Qed.

Lemma noSeparator_spec s : noSeparator s = true -> NoSeparator s.
Proof.
  induction s as [|c s IH]; simpl; intros H.
  - apply NoSeparator_nil.
  - apply andb_true_iff in H as [Hc Hs]. apply NoSeparator_cons. split; [|by apply IH].
    intros ->. done.
Qed.

(** C2. The name of a file entry in the archive. An explicit [name] wins.
    Without one, a truthy [preserveFolderStructure] gives the whole
    [s3Key]; otherwise the name is what follows the last separator of the
    key, and a key without a separator is kept whole. The entry pushed for
    a key listed under the prefix of a directory entry is named by the
    whole key when the directory preserves the folder structure, and by the
    key without the prefix when it does not. *)
Theorem archiveEntryName_precedence (f : FileEntry.t) :
  (forall name, FileEntry.name f = Some name -> archiveEntryName f = name) /\
  (FileEntry.name f = None ->
     (JS.truthy (FileEntry.preserveFolderStructure f) = true ->
        archiveEntryName f = FileEntry.s3Key f) /\
     (JS.truthy (FileEntry.preserveFolderStructure f) = false ->
        (forall a b, FileEntry.s3Key f = a +:+ "/" +:+ b -> NoSeparator b ->
           archiveEntryName f = b) /\
        (NoSeparator (FileEntry.s3Key f) -> archiveEntryName f = FileEntry.s3Key f))) /\
  (forall (d : DirEntry.t) (r : string),
     archiveEntryName (directoryEntry d (prefix (DirEntry.s3Dir d) +:+ r)) =
       if JS.truthy (DirEntry.preserveFolderStructure d)
       then prefix (DirEntry.s3Dir d) +:+ r else r).
Proof.
  unfold archiveEntryName. split; [|split].
  - by intros name ->.
  - intros ->. split; intros ->; [done|]. split.
    + intros a b -> Hb. by apply substring_lastIndexOf.
    + apply substring_NoSeparator.
  - intros d r. cbn [directoryEntry FileEntry.name]. unfold dirArchiveEntryName.
    destruct (JS.truthy _); [done|]. apply slice_length_strcat.
Qed.

Lemma archiveEntryName_precedence_witness :
  archiveEntryName (FileEntry.mk None "bucket" "a/b/c.txt" None noMetadata) = "c.txt".
Proof.
  destruct (archiveEntryName_precedence
              (FileEntry.mk None "bucket" "a/b/c.txt" None noMetadata))
    as (_ & H & _).
  destruct (H eq_refl) as [_ H2]. destruct (H2 eq_refl) as [H3 _].
  apply (H3 "a/b" "c.txt"); [reflexivity|]. apply noSeparator_spec. reflexivity.
Defined.

(** C9, counterexample. A directory that ends with two separators is used
    as it is, so not every prefix ends with exactly one separator. *)
Lemma prefix_repeated_separator :
  prefix "dir//" = "dir//" /\
  ~ (forall s3Dir, ExactlyOneTrailingSeparator (prefix s3Dir)).
Proof.
  split; [reflexivity|]. intros H. destruct (H "dir//") as [_ H2]. discriminate H2.
Qed.

(** C9, amended. The prefix always ends with a separator: a directory that
    ends with one is used unchanged, any other gets one separator appended.
    It ends with exactly one separator whenever the directory does not end
    with two. *)
Theorem prefix_trailing_separator (s3Dir : string) :
  JS.endsWith (prefix s3Dir) "/" = true /\
  (JS.endsWith s3Dir "/" = true -> prefix s3Dir = s3Dir) /\
  (JS.endsWith s3Dir "/" = false -> prefix s3Dir = s3Dir +:+ "/") /\
  (JS.endsWith s3Dir "//" = false -> ExactlyOneTrailingSeparator (prefix s3Dir)).
Proof.
  unfold prefix, ExactlyOneTrailingSeparator.
  destruct (JS.endsWith s3Dir "/") eqn:E.
  - repeat split; try done. 
  - assert (H2 : JS.endsWith (s3Dir +:+ "/") "//" = false).
    { apply not_true_is_false. intros [a Ha]%endsWith_spec.
      change "//" with ("/" +:+ "/") in Ha. rewrite <- strcat_assoc in Ha.
      apply strcat_inv_tail in Ha. subst s3Dir. by rewrite endsWith_strcat in E. }
    repeat split; try done; apply endsWith_strcat.
Qed.

Lemma prefix_trailing_separator_witness :
  prefix "dir" = "dir/" /\ prefix "dir/" = "dir/" /\
  ExactlyOneTrailingSeparator (prefix "dir/").
Proof.
  split; [|split].
  - apply (prefix_trailing_separator "dir"). reflexivity.
  - apply (prefix_trailing_separator "dir/"). reflexivity.
  - apply (prefix_trailing_separator "dir/"). reflexivity.
Defined.

(** ** One invocation of [appendArchiveEntries] *)

Lemma appendArchiveEntries_Rejected frames e :
  appendArchiveEntries frames = Rejected e ->
  exists s3Key, e = InvalidS3KeyError s3Key.
Proof.
  induction frames as [|archiveEntries callers IH]; [done|].
  induction archiveEntries as [|[f|d] archiveEntries _]; cbn [appendArchiveEntries].
  - exact IH.
  - destruct (invalidS3Key _); [|done]. intros [= <-]. by eexists.
  - done.
Qed.

Lemma invalidS3Key_spec s3Key :
  invalidS3Key s3Key = true <-> s3Key = "" \/ JS.endsWith s3Key "/" = true.
Proof.
  unfold invalidS3Key. rewrite orb_true_iff, String.eqb_eq. done.
Qed.

(** C7. On reaching a file entry whose key is empty or ends with a
    separator, the function rejects with [InvalidS3KeyError] for that key
    and is not suspended on any send: no command is issued for the entry. *)
Theorem invalid_key_rejected_before_send (f : FileEntry.t)
    (archiveEntries : list S3ArchiveStreamEntry)
    (callers : list (list S3ArchiveStreamEntry)) :
  FileEntry.s3Key f = "" \/ JS.endsWith (FileEntry.s3Key f) "/" = true ->
  appendArchiveEntries ((File f :: archiveEntries) :: callers)
  = Rejected (InvalidS3KeyError (FileEntry.s3Key f)) /\
  pendingCommand (appendArchiveEntries ((File f :: archiveEntries) :: callers)) = [].
Proof.
  intros H%invalidS3Key_spec. cbn [appendArchiveEntries]. by rewrite H.
Qed.

Lemma invalid_key_rejected_before_send_witness :
  appendArchiveEntries
    [[File (fileEntry "bucket" "folder/"); File (fileEntry "bucket" "a.txt")]]
  = Rejected (InvalidS3KeyError "folder/") /\
  pendingCommand
    (appendArchiveEntries
       [[File (fileEntry "bucket" "folder/"); File (fileEntry "bucket" "a.txt")]])
  = [].
Proof.
  apply (invalid_key_rejected_before_send (fileEntry "bucket" "folder/")).
  right. reflexivity.
Defined.

(** C3. The first page of a listing reports no key and announces more
    pages, the next of which holds an object: the listing is rejected as an
    empty directory, with the error "The provided directory is empty."
    wrapped in [FailedToListObjectsError], instead of going on to the next
    page. The code does not fetch all objects under the prefix here: a page
    without keys on which the listing is to continue does not leave the
    function suspended on the request for the next page. *)
Lemma empty_first_page_with_more_pages :
  resume emptyFirstPageClient (AwaitList (mkListing (dirEntry "bucket" "dir/") [] None)) [[]] None
  = (Rejected (FailedToListObjectsError "dir/" emptyDirectoryError), []) /\
  ~ EmptyPageContinues.
Proof.
  split; [reflexivity|]. intros H.
  destruct (H emptyFirstPageClient (mkListing (dirEntry "bucket" "dir/") [] None)
              [[]] None (page None 0 (Some "token-1") [] true))
    as [l' Hl']; [reflexivity..|]. discriminate Hl'.
Qed.

Lemma isEmptyDirectory_spec out :
  isEmptyDirectory out = true <->
  ListObjectsV2CommandOutput.ContinuationToken out = None /\
  ListObjectsV2CommandOutput.KeyCount out = Some 0.
Proof.
  unfold isEmptyDirectory.
  destruct (ListObjectsV2CommandOutput.ContinuationToken out);
    [|destruct (ListObjectsV2CommandOutput.KeyCount out) as [[| |]|]];
    split; try done; by intros [? ?].
Qed.

(** The test of line 134 as the code has it. A page rejects the listing with
    [FailedToListObjectsError] for the prefix, caused by the error "The
    provided directory is empty.", exactly when it echoes no continuation
    token (it answers the first request) and its [KeyCount] is [0],
    whether or not more pages follow. Any other page that is truncated
    leaves the function suspended on the request for the next page, with
    the token the page returned. *)
Theorem empty_directory_is_a_first_page_without_keys (s3Client : S3Client)
    (l : Listing) (frames : list (list S3ArchiveStreamEntry))
    (appendThrows : option Thrown) (out : ListObjectsV2CommandOutput.t) :
  sendListObjectsV2 s3Client (listInput l) = inr out ->
  ((resume s3Client (AwaitList l) frames appendThrows).1
   = Rejected (FailedToListObjectsError (prefix (DirEntry.s3Dir (dir l)))
                 emptyDirectoryError)
   <-> ListObjectsV2CommandOutput.ContinuationToken out = None /\
       ListObjectsV2CommandOutput.KeyCount out = Some 0) /\
  (isEmptyDirectory out = false ->
   JS.truthy (ListObjectsV2CommandOutput.IsTruncated out) = true ->
   resume s3Client (AwaitList l) frames appendThrows
   = (Suspended
        (AwaitList
           (mkListing (dir l) (directoryEntries l ++ pageEntries (dir l) out)
              (ListObjectsV2CommandOutput.NextContinuationToken out)))
        frames, [])).
Proof.
  intros Hsend. cbn [resume]. rewrite Hsend. rewrite <- isEmptyDirectory_spec.
  split.
  - destruct (isEmptyDirectory out); [done|]. split; [|done].
    destruct (JS.truthy _); cbn [fst]; [done|].
    intros [s3Key [=]]%appendArchiveEntries_Rejected.
  - intros -> ->. done.
Qed.

Lemma empty_directory_is_a_first_page_without_keys_witness :
  (resume emptyFirstPageClient
     (AwaitList (mkListing (dirEntry "bucket" "dir") [] None)) [] None).1
  = Rejected (FailedToListObjectsError "dir/" emptyDirectoryError).
Proof.
  apply (empty_directory_is_a_first_page_without_keys emptyFirstPageClient
           (mkListing (dirEntry "bucket" "dir") [] None) [] None
           (page None 0 (Some "token-1") [] true)); [reflexivity|].
  split; reflexivity.
Defined.

(** C8. The fetch succeeds with a [Readable] body and [archive.append]
    throws: the function is rejected with [FailedToGetS3ObjectStreamError],
    the error of a failed retrieval, with what the archiver threw as its
    cause, although no fetch failed. The call of [append] sits inside the
    [try] of lines 173-196, so the error of the archiver does not pass
    through as it is: a [FailedToGetS3ObjectStreamError] is not only ever a
    failed fetch. *)
Lemma append_error_becomes_fetch_error :
  resume twoPageClient (AwaitGet (fileEntry "bucket" "a.txt")) [[]]
    (Some (ArchiverError "QUEUECLOSED"))
  = (Rejected (FailedToGetS3ObjectStreamError "a.txt" (ArchiverError "QUEUECLOSED")), []) /\
  ~ OnlyFetchFails.
Proof.
  split; [reflexivity|]. intros H.
  destruct (H twoPageClient (fileEntry "bucket" "a.txt") [[]]
              (Some (ArchiverError "QUEUECLOSED"))
              "a.txt" (ArchiverError "QUEUECLOSED") eq_refl)
    as [[e He]|[(out & He & Hb)|(out & c & He & Hb)]].
  - discriminate He.
  - injection He as <-. discriminate Hb.
  - injection He as <-. discriminate Hb.
Qed.

Local Ltac cause :=
  let H := fresh in
  intros [-> H];
  repeat match goal with
    | H : _ \/ _ |- _ => destruct H as [H|H]
    | H : exists _, _ |- _ => destruct H as [? H]
    | H : _ /\ _ |- _ => destruct H as [? H]
    end;
  congruence.

(** The [try] of lines 173-196 as the code has it. Resuming from a fetch rejects with
    [FailedToGetS3ObjectStreamError] for exactly four causes, the error
    always naming the key of the entry: the send is rejected (the cause is
    the rejection), the response has no body, the body is not a [Readable]
    (the cause is the module's own error in both cases), or
    [archive.append] throws (the cause is what it threw). *)
Theorem FailedToGetS3ObjectStreamError_causes (s3Client : S3Client)
    (f : FileEntry.t) (frames : list (list S3ArchiveStreamEntry))
    (appendThrows : option Thrown) (s3Key : string) (e : Thrown) :
  (resume s3Client (AwaitGet f) frames appendThrows).1
  = Rejected (FailedToGetS3ObjectStreamError s3Key e)
  <->
  s3Key = FileEntry.s3Key f /\
  (sendGetObject s3Client (getInput f) = inl e \/
   (exists out, sendGetObject s3Client (getInput f) = inr out /\
      GetObjectCommandOutput.Body out = None /\ e = notReadableError) \/
   (exists out content, sendGetObject s3Client (getInput f) = inr out /\
      GetObjectCommandOutput.Body out = Some (NotReadable content) /\
      e = notReadableError) \/
   (exists out content, sendGetObject s3Client (getInput f) = inr out /\
      GetObjectCommandOutput.Body out = Some (Readable content) /\
      appendThrows = Some e)).
Proof.
  cbn [resume].
  destruct (sendGetObject s3Client (getInput f)) as [e'|out] eqn:Hsend.
  - cbn [fst]. split; [|cause].
    intros [= <- <-]. split; [done|]. by left.
  - destruct (GetObjectCommandOutput.Body out) as [[content|content]|] eqn:Hbody.
    + destruct appendThrows as [e'|]; cbn [fst].
      * split; [|cause].
        intros [= <- <-]. split; [done|]. do 3 right. by exists out, content.
      * split; [|cause].
        intros [s [=]]%appendArchiveEntries_Rejected.
    + cbn [fst]. split; [|cause].
      intros [= <- <-]. split; [done|]. right. right. left. by exists out, content.
    + cbn [fst]. split; [|cause].
      intros [= <- <-]. split; [done|]. right. left. by exists out.
Qed.

Lemma FailedToGetS3ObjectStreamError_causes_witness :
  (resume twoPageClient (AwaitGet (fileEntry "bucket" "a.txt")) [[]]
     (Some (ArchiverError "QUEUECLOSED"))).1
  = Rejected (FailedToGetS3ObjectStreamError "a.txt" (ArchiverError "QUEUECLOSED")).
Proof.
  apply (FailedToGetS3ObjectStreamError_causes twoPageClient
           (fileEntry "bucket" "a.txt") [[]] (Some (ArchiverError "QUEUECLOSED"))
           "a.txt" (ArchiverError "QUEUECLOSED")).
  split; [reflexivity|]. do 3 right.
  exists (GetObjectCommandOutput.mk (Some (Readable "a.txt"))), "a.txt".
  repeat split.
Defined.

(** The two shapes of [clientOrClients], and what the callback of [map]
    does with the outcome. *)
Lemma client_cases (clientOrClients : ClientOrClients)
    (kv : string * list S3ArchiveStreamEntry) :
  (forall c, clientOrClients = OneClient c ->
     client clientOrClients kv.1 = inr c) /\
  (forall m c, clientOrClients = ClientRecord m -> m !! kv.1 = Some c ->
     client clientOrClients kv.1 = inr c) /\
  (forall m, clientOrClients = ClientRecord m -> m !! kv.1 = None ->
     client clientOrClients kv.1 = inl (NoS3ClientProvidedForBucketError kv.1)) /\
  (forall e, client clientOrClients kv.1 = inl e ->
     launch clientOrClients kv = mkGroup kv.1 None (Rejected e) /\
     pendingCommand (promise (launch clientOrClients kv)) = []) /\
  (forall c, client clientOrClients kv.1 = inr c ->
     launch clientOrClients kv
     = mkGroup kv.1 (Some c) (appendArchiveEntries [kv.2])).
Proof.
  repeat split.
  - by intros c ->.
  - intros m c -> H. cbn [client]. by rewrite H.
  - intros m -> H. cbn [client]. by rewrite H.
  - unfold launch. by rewrite H.
  - unfold launch. by rewrite H.
  - intros c H. unfold launch. by rewrite H.
Qed.

(** ** A group on its own *)

Section Group.

Variable c : S3Client.

Lemma runGroup_Fulfilled outcomes : runGroup c outcomes Fulfilled = (Fulfilled, []).
Proof. induction outcomes as [|o os IH]; [done|]. cbn. by rewrite IH. Qed.

Lemma runGroup_Rejected outcomes e :
  runGroup c outcomes (Rejected e) = (Rejected e, []).
Proof. induction outcomes as [|o os IH]; [done|]. cbn. by rewrite IH. Qed.

Lemma runGroup_cons o outcomes st :
  runGroup c (o :: outcomes) st
  = ((runGroup c outcomes (stepGroup c st o).1).1,
     (stepGroup c st o).2 ++ (runGroup c outcomes (stepGroup c st o).1).2).
Proof.
  cbn [runGroup]. destruct (stepGroup c st o) as [st' q]. cbn [fst snd].
  by destruct (runGroup c outcomes st') as [st'' q'].
Qed.

Lemma runGroup_app outcomes1 outcomes2 st :
  runGroup c (outcomes1 ++ outcomes2) st
  = ((runGroup c outcomes2 (runGroup c outcomes1 st).1).1,
     (runGroup c outcomes1 st).2
     ++ (runGroup c outcomes2 (runGroup c outcomes1 st).1).2).
Proof.
  revert st. induction outcomes1 as [|o os IH]; intros st.
  - cbn. by destruct (runGroup c outcomes2 st).
  - rewrite <- app_comm_cons, !runGroup_cons, IH. cbn [fst snd].
    by rewrite app_assoc.
Qed.

(** The entries of a page are the file entries of its archived keys. *)
Lemma listedKey_filter (Keys : list (option string)) :
  omap listedKey Keys
  = filter (fun k => k <> "" /\ JS.endsWith k "/" = false) (omap id Keys).
Proof.
  induction Keys as [|[k|] Keys IH]; [done| |done].
  cbn [omap list_omap id]. rewrite filter_cons, <- IH. unfold listedKey at 1.
  destruct (JS.endsWith k "/") eqn:E1; destruct (String.eqb_spec k "") as [->|E2];
    cbn [negb andb]; case_decide as H; try done; by destruct H.
Qed.

Lemma pageEntries_archivedKeys d outs :
  concat (map (pageEntries d) outs)
  = map (fun k => File (directoryEntry d k)) (archivedKeys outs).
Proof.
  unfold archivedKeys. induction outs as [|out outs IH]; [done|].
  cbn [map concat]. rewrite omap_app, filter_app, map_app, <- IH.
  f_equal. unfold pageEntries. by rewrite listedKey_filter.
Qed.

(** The pagination loop: one settled send per page, then the recursive
    call with everything pushed. *)
Lemma runGroup_listing l outs frames outcomes :
  Pages c (DirEntry.s3BucketName (dir l)) (prefix (DirEntry.s3Dir (dir l)))
    (continuationToken l) outs ->
  length outcomes = length outs ->
  runGroup c outcomes (Suspended (AwaitList l) frames)
  = (appendArchiveEntries
       ((directoryEntries l ++ concat (map (pageEntries (dir l)) outs)) :: frames),
     []).
Proof.
  intros HP. revert l outcomes HP.
  induction outs as [|out outs IH]; intros l outcomes HP Hlen; [inversion HP|].
  destruct outcomes as [|o outcomes]; [done|]. injection Hlen as Hlen.
  rewrite runGroup_cons. cbn [stepGroup resume].
  inversion HP as [token out' Hsend Hempty Htr|token out' outs' Hsend Hempty Htr HP'];
    subst; unfold listInput; rewrite Hsend, Hempty, Htr; cbn [fst snd directoryEntries].
  - destruct outcomes; [|by simpl in Hlen].
    cbn [runGroup map concat fst snd app]. by rewrite app_nil_r.
  - rewrite IH by done. cbn [fst snd dir directoryEntries map concat].
    by rewrite <- app_assoc.
Qed.


(** A listing that lets the group end well went through pages. *)
Lemma runGroup_listing_inv outcomes l frames q :
  runGroup c outcomes (Suspended (AwaitList l) frames) = (Fulfilled, q) ->
  exists outs outcomes',
    Pages c (DirEntry.s3BucketName (dir l)) (prefix (DirEntry.s3Dir (dir l)))
      (continuationToken l) outs /\
    (length outcomes' < length outcomes)%nat /\
    runGroup c outcomes'
      (appendArchiveEntries
         ((directoryEntries l ++ concat (map (pageEntries (dir l)) outs)) :: frames))
    = (Fulfilled, q).
Proof.
  revert l q. induction outcomes as [|o outcomes IH]; intros l q; [done|].
  rewrite runGroup_cons. cbn [stepGroup resume].
  destruct (sendListObjectsV2 c (listInput l)) as [e|out] eqn:Hsend.
  { cbn [fst snd]. by rewrite runGroup_Rejected. }
  destruct (isEmptyDirectory out) eqn:Hempty.
  { cbn [fst snd]. by rewrite runGroup_Rejected. }
  destruct (JS.truthy (ListObjectsV2CommandOutput.IsTruncated out)) eqn:Htr;
    cbn [fst snd app]; intros Hrun.
  - destruct (runGroup c outcomes _) as [st q'] eqn:Hrun'. cbn [fst snd] in Hrun.
    injection Hrun as -> ->.
    apply IH in Hrun' as (outs & outcomes' & HP & Hlen & Hrun').
    cbn [dir directoryEntries continuationToken] in *.
    exists (out :: outs), outcomes'. split; [by apply Pages_more|].
    split; [cbn [length]; lia|]. cbn [map concat]. by rewrite app_assoc.
  - exists [out], outcomes. split; [by apply Pages_last|].
    split; [cbn [length]; lia|]. cbn [map concat]. rewrite app_nil_r.
    destruct (runGroup c outcomes _) as [st q']. cbn [fst snd] in Hrun. congruence.
Qed.

Lemma Resolves_files fs fss :
  Forall2 (Resolves c) (map File fs) fss -> concat fss = fs.
Proof.
  revert fss. induction fs as [|f fs IH]; intros fss H.
  - by apply Forall2_nil_inv_l in H as ->.
  - cbn [map] in H. apply Forall2_cons_inv_l in H as (fs1 & fss' & H1 & H2 & ->).
    inversion H1; subst. cbn [concat app]. f_equal. by apply IH.
Qed.

(** A group that ends well has appended, in order, what each of its
    entries resolves to. *)
Lemma runGroup_Fulfilled_inv n : forall outcomes frames q,
  (length outcomes <= n)%nat ->
  runGroup c outcomes (appendArchiveEntries frames) = (Fulfilled, q) ->
  exists fss,
    Forall2 (Resolves c) (concat frames) fss /\
    map (fun a => (origin a, data a)) q = map appendedAs (concat fss).
Proof.
  induction n as [|n IHn]; intros outcomes frames; revert outcomes;
    induction frames as [|archiveEntries callers IHf]; intros outcomes q Hlen.
  - rewrite runGroup_Fulfilled. intros [= <-]. by exists [].
  - destruct outcomes; [|cbn [length] in Hlen; lia].
    destruct archiveEntries as [|[f|d] archiveEntries]; cbn [appendArchiveEntries].
    + by apply IHf.
    + by destruct (invalidS3Key _).
    + done.
  - rewrite runGroup_Fulfilled. intros [= <-]. by exists [].
  - destruct archiveEntries as [|[f|d] archiveEntries]; cbn [appendArchiveEntries].
    + by apply IHf.
    + destruct (invalidS3Key _); [by rewrite runGroup_Rejected|].
      destruct outcomes as [|o outcomes]; [done|]. rewrite runGroup_cons.
      cbn [stepGroup resume].
      destruct (sendGetObject c (getInput f)) as [e|out];
        [cbn [fst snd]; by rewrite runGroup_Rejected|].
      destruct (GetObjectCommandOutput.Body out) as [[content|content]|];
        [|cbn [fst snd]; by rewrite runGroup_Rejected..].
      destruct o as [code|]; [cbn [fst snd]; by rewrite runGroup_Rejected|].
      cbn [fst snd]. destruct (runGroup c outcomes _) as [st q'] eqn:Hrun.
      cbn [fst snd]. intros [= -> <-].
      apply IHn in Hrun as (fss & HR & Hq); [|cbn [length] in Hlen; lia].
      exists ([f] :: fss). split.
      * cbn [concat app]. constructor; [constructor|done].
      * cbn [map concat app origin data]. by rewrite Hq.
    + intros (outs & outcomes' & HP & Hlen' & Hrun)%runGroup_listing_inv.
      cbn [dir directoryEntries continuationToken app] in *.
      apply IHn in Hrun as (fss & HR & Hq); [|lia].
      rewrite pageEntries_archivedKeys in HR. cbn [concat] in HR.
      rewrite <- (map_map (directoryEntry d) File) in HR.
      apply Forall2_app_inv_l in HR as (fss1 & fss2 & HR1 & HR2 & ->).
      apply Resolves_files in HR1.
      exists (map (directoryEntry d) (archivedKeys outs) :: fss2). split.
      * cbn [concat app]. constructor; [by constructor|done].
      * rewrite Hq, concat_app, HR1. done.
Qed.

End Group.

(** ** Lists *)

Lemma filter_none {A} (P : A -> Prop) `{forall x, Decision (P x)} (l : list A) :
  Forall (fun x => ~ P x) l -> filter P l = [].
Proof.
  induction 1 as [|x l Hx _ IH]; [done|]. rewrite filter_cons.
  by rewrite decide_False.
Qed.

Lemma filter_all {A} (P : A -> Prop) `{forall x, Decision (P x)} (l : list A) :
  Forall P l -> filter P l = l.
Proof.
  induction 1 as [|x l Hx _ IH]; [done|]. rewrite filter_cons.
  rewrite decide_True by done. by rewrite IH.
Qed.

(** ** Grouping *)

Lemma ownProperty_None acc key :
  ownProperty acc key = None <-> key ∉ map fst acc.
Proof.
  induction acc as [|kv acc IH]; cbn [ownProperty map].
  - split; [|done]. intros _ H. by apply elem_of_nil in H.
  - rewrite not_elem_of_cons. case_decide as E.
    + split; [done|]. by intros [? _].
    + rewrite IH. split; [done|]. by intros [_ ?].
Qed.

Lemma ownProperty_Some acc key es :
  ownProperty acc key = Some es -> (key, es) ∈ acc.
Proof.
  induction acc as [|[k v] acc IH]; cbn [ownProperty]; [done|].
  cbn [fst snd]. case_decide as E.
  - intros [= <-]. subst. apply elem_of_cons. by left.
  - intros H. apply elem_of_cons. right. by apply IH.
Qed.

Lemma push_keys key val acc : map fst (push key val acc) = map fst acc.
Proof.
  unfold push. rewrite map_map. apply map_ext. intros kv. by case_decide.
Qed.

Lemma filter_snoc_bucket k seen val :
  filter (fun e => s3BucketName e = k) (seen ++ [val])
  = filter (fun e => s3BucketName e = k) seen
    ++ (if decide (s3BucketName val = k) then [val] else []).
Proof.
  rewrite filter_app. reflexivity.
Qed.

Lemma Grouped_callback seen acc val acc' :
  Grouped seen acc ->
  groupedS3Buckets_callback acc val = inr acc' ->
  Grouped (seen ++ [val]) acc'.
Proof.
  intros (Hnd & Hseen & Hacc). unfold groupedS3Buckets_callback.
  destruct (ownProperty acc (s3BucketName val)) as [es|] eqn:Hown.
  - intros [= <-]. apply ownProperty_Some in Hown.
    assert (Hkey : s3BucketName val ∈ map fst acc).
    { apply list_elem_of_fmap. by exists (s3BucketName val, es). }
    split; [by rewrite push_keys|]. split.
    + intros e [He| ->%list_elem_of_singleton]%elem_of_app; rewrite push_keys; auto.
    + intros kv' (kv & -> & Hkv)%list_elem_of_fmap.
      destruct (Hacc kv Hkv) as [Hfilter Hne].
      case_decide as E; cbn [fst snd]; rewrite filter_snoc_bucket.
      * rewrite decide_True by done. rewrite <- Hfilter. split; [done|].
        by destruct (kv.2).
      * rewrite decide_False by done. by rewrite app_nil_r.
  - apply ownProperty_None in Hown. case_decide; [done|]. intros [= <-].
    split; [|split].
    + rewrite map_app. cbn [map fst]. apply NoDup_app. split; [done|].
      split; [|apply NoDup_singleton].
      intros k Hk ->%list_elem_of_singleton. done.
    + rewrite map_app. intros e [He| ->%list_elem_of_singleton]%elem_of_app;
        apply elem_of_app; [left; auto|right]. cbn. apply list_elem_of_singleton. done.
    + intros kv [Hkv| ->%list_elem_of_singleton]%elem_of_app; rewrite filter_snoc_bucket.
      * destruct (Hacc kv Hkv) as [Hfilter Hne]. rewrite decide_False.
        { by rewrite app_nil_r. }
        intros E. apply Hown. rewrite E. apply list_elem_of_fmap. by exists kv.
      * cbn [fst snd]. rewrite decide_True by done. split; [|done].
        replace (filter _ seen) with (@nil S3ArchiveStreamEntry); [done|].
        symmetry. apply filter_none, Forall_forall.
        intros e He E. apply Hown. rewrite <- E. auto.
Qed.

Lemma Grouped_reduce entries : forall seen acc grouped,
  Grouped seen acc ->
  reduce acc entries = inr grouped ->
  Grouped (seen ++ entries) grouped.
Proof.
  induction entries as [|val entries IH]; intros seen acc grouped HG; cbn [reduce].
  - intros [= <-]. by rewrite app_nil_r.
  - destruct (groupedS3Buckets_callback acc val) as [e|acc'] eqn:Hcb; [done|].
    intros Hred. rewrite (assoc_L (++) seen [val] entries : seen ++ val :: entries = _).
    eapply IH; [|done]. by eapply Grouped_callback.
Qed.

Lemma Grouped_groupedS3Buckets entries grouped :
  groupedS3Buckets entries = inr grouped -> Grouped entries grouped.
Proof.
  intros H. apply (Grouped_reduce entries [] [] grouped); [|done].
  split; [constructor|]. split; intros ? H'; by apply elem_of_nil in H'.
Qed.

(** ** [Object.entries] *)

Lemma insertByIndex_Permutation {A} (x : N * A) l : insertByIndex x l ≡ₚ x :: l.
Proof.
  induction l as [|y l IH]; cbn [insertByIndex]; [done|].
  destruct (x.1 <? y.1)%N; [done|]. rewrite IH. apply Permutation_swap.
Qed.

Lemma Object_entries_Permutation {A} (o : list (string * A)) :
  Object_entries o ≡ₚ o.
Proof.
  unfold Object_entries.
  induction o as [|kv o IH]; [done|].
  cbn [omap list_omap]. rewrite filter_cons.
  destruct (arrayIndex kv.1) as [n|] eqn:E.
  - rewrite decide_False by done. cbn [foldr].
    rewrite insertByIndex_Permutation. cbn [map snd app]. by rewrite IH.
  - rewrite decide_True by done. rewrite <- Permutation_middle. by rewrite IH.
Qed.

Lemma Object_entries_singleton {A} (kv : string * A) : Object_entries [kv] = [kv].
Proof.
  unfold Object_entries. cbn [omap list_omap]. rewrite filter_cons, filter_nil.
  destruct (arrayIndex kv.1); [by rewrite decide_False|by rewrite decide_True].
Qed.

Lemma Grouped_Permutation seen acc acc' :
  acc ≡ₚ acc' -> Grouped seen acc -> Grouped seen acc'.
Proof.
  intros HP (Hnd & Hseen & Hacc). split; [|split].
  - by rewrite <- HP.
  - intros e He. rewrite <- HP. auto.
  - intros kv Hkv. apply Hacc. by rewrite HP.
Qed.

Lemma Grouped_Object_entries entries grouped :
  groupedS3Buckets entries = inr grouped ->
  Grouped entries (Object_entries grouped).
Proof.
  intros H%Grouped_groupedS3Buckets.
  eapply Grouped_Permutation; [|done]. symmetry. apply Object_entries_Permutation.
Qed.

(** ** The promise chain *)

(** The order in which [Promise.all] sees the rejections is a rearrangement
    of the order of the groups. *)
Lemma rejections_Permutation gs : rejections gs ≡ₚ omap isRejected gs.
Proof.
  unfold rejections. induction gs as [|g gs IH]; [done|].
  cbn [omap list_omap]. destruct (s3Client g) as [c|], (isRejected g) as [e|];
    cbn [app]; try done.
  - by rewrite <- Permutation_middle, IH.
  - by rewrite IH.
Qed.

Lemma rejections_nil gs : rejections gs = [] <-> omap isRejected gs = [].
Proof.
  split; intros H; apply Permutation_nil_r.
  - by rewrite <- rejections_Permutation, H.
  - by rewrite rejections_Permutation, H.
Qed.

Section ChainFacts.

Variable finalizeRejects : option Thrown.


Lemma settle_groups b : groups (settle finalizeRejects b) = groups b.
Proof.
  unfold settle. destruct (chain b); [|done..].
  destruct (head _); [done|]. destruct (forallb _ _); [|done].
  by destruct finalizeRejects.
Qed.

Lemma settle_queue b : queue (archive (settle finalizeRejects b)) = queue (archive b).
Proof.
  unfold settle. destruct (chain b); [|done..].
  destruct (head _); [done|]. destruct (forallb _ _); [|done].
  by destruct finalizeRejects.
Qed.

Lemma settle_sent b : sent (settle finalizeRejects b) = sent b.
Proof.
  unfold settle. destruct (chain b); [|done..].
  destruct (head _); [done|]. destruct (forallb _ _); [|done].
  by destruct finalizeRejects.
Qed.

Lemma settle_settled b : chain b <> Pending -> settle finalizeRejects b = b.
Proof. unfold settle. by destruct (chain b). Qed.

Lemma isRejected_Some g e : isRejected g = Some e <-> promise g = Rejected e.
Proof.
  unfold isRejected. destruct (promise g); split; try done; by intros [= ->].
Qed.

(** The first reaction of the chain on an untouched archive. *)
Lemma ChainInvariant_settle b :
  chain b = Pending ->
  finalizeCalls (archive b) = 0%nat ->
  destroyCalls (archive b) = [] ->
  abortCalls (archive b) = 0%nat ->
  ChainInvariant finalizeRejects (settle finalizeRejects b).
Proof.
  intros Hc Hf Hd Ha. unfold settle, ChainInvariant. rewrite Hc.
  destruct (rejections (groups b)) as [|e es] eqn:Hrej; cbn [head].
  - apply rejections_nil in Hrej.
    destruct (forallb isFulfilled (groups b)) eqn:Hall.
    + destruct finalizeRejects as [code|]; cbn; rewrite ?Hf, ?Hd, ?Ha.
      * repeat split; try done. right. repeat split; done.
      * done.
    + rewrite Hc. done.
  - cbn. rewrite Hf, Hd, Ha. repeat split; try done. left. split; [|done].
    assert (He : e ∈ omap isRejected (groups b)).
    { rewrite <- rejections_Permutation, Hrej. left. }
    apply list_elem_of_omap in He as (g & Hg & He). exists g.
    split; [done|]. by apply isRejected_Some.
Qed.

Lemma not_all_fulfilled gs j g a frames :
  gs !! j = Some g -> promise g = Suspended a frames ->
  forallb isFulfilled gs = false.
Proof.
  intros Hj Hp. apply not_true_is_false. intros Hall.
  rewrite forallb_forall in Hall. 
  assert (Hin : In g gs) by (apply list_elem_of_In; by eapply list_elem_of_lookup_2).
  apply Hall in Hin. unfold isFulfilled in Hin. by rewrite Hp in Hin.
Qed.

Lemma ChainInvariant_tick b t :
  ChainInvariant finalizeRejects b ->
  ChainInvariant finalizeRejects (tick finalizeRejects b t).
Proof.
  intros HI. unfold tick.
  destruct (groups b !! group t) as [g|] eqn:Hj; [|done].
  destruct (s3Client g) as [c|]; [|done].
  destruct (promise g) as [a frames| |] eqn:Hp; [|done..].
  destruct (resume c a frames (appendThrows t)) as [st q].
  pose proof (not_all_fulfilled _ _ _ _ _ Hj Hp) as Hnot.
  unfold ChainInvariant in HI. destruct (chain b) eqn:Hc.
  - destruct HI as (_ & _ & Hf & Hd & Ha). by apply ChainInvariant_settle.
  - destruct HI as (_ & Hall & _). congruence.
  - rewrite settle_settled by (cbn; congruence).
    unfold ChainInvariant. cbn [chain groups archive].
    destruct HI as (Hd & Ha & [[(g' & Hg' & Hp') Hf]|(_ & Hall & _)]);
      [|congruence].
    cbn. repeat split; try done. left. split; [|done].
    exists g'. split; [|done].
    apply list_elem_of_lookup in Hg' as [i Hi].
    apply list_elem_of_lookup. exists i.
    rewrite list_lookup_insert_ne; [done|]. intros <-. congruence.
Qed.

Lemma ChainInvariant_run schedule b :
  ChainInvariant finalizeRejects b ->
  ChainInvariant finalizeRejects (run finalizeRejects schedule b).
Proof.
  revert b. induction schedule as [|t schedule IH]; intros b HI; [done|].
  cbn [run foldl]. apply IH. by apply ChainInvariant_tick.
Qed.

Lemma ChainInvariant_s3ArchiveStream clientOrClients entries b :
  s3ArchiveStream finalizeRejects clientOrClients entries = inr b ->
  ChainInvariant finalizeRejects b.
Proof.
  unfold s3ArchiveStream. destruct (groupedS3Buckets entries); [done|].
  intros [= <-]. by apply ChainInvariant_settle.
Qed.

(** Once the chain has settled, a tick changes neither where it stands
    nor what it did to the archive. *)
Lemma settled_tick b t :
  chain b <> Pending ->
  chain (tick finalizeRejects b t) = chain b /\
  finalizeCalls (archive (tick finalizeRejects b t)) = finalizeCalls (archive b) /\
  destroyCalls (archive (tick finalizeRejects b t)) = destroyCalls (archive b) /\
  abortCalls (archive (tick finalizeRejects b t)) = abortCalls (archive b).
Proof.
  intros Hc. unfold tick.
  destruct (groups b !! group t) as [g|]; [|done].
  destruct (s3Client g) as [c|]; [|done].
  destruct (promise g) as [a frames| |]; [|done..].
  destruct (resume c a frames (appendThrows t)) as [st q].
  by rewrite settle_settled.
Qed.

Lemma settled_run schedule b :
  chain b <> Pending ->
  chain (run finalizeRejects schedule b) = chain b /\
  finalizeCalls (archive (run finalizeRejects schedule b)) = finalizeCalls (archive b) /\
  destroyCalls (archive (run finalizeRejects schedule b)) = destroyCalls (archive b) /\
  abortCalls (archive (run finalizeRejects schedule b)) = abortCalls (archive b).
Proof.
  revert b. induction schedule as [|t schedule IH]; intros b Hc; [done|].
  cbn [run foldl]. destruct (settled_tick b t Hc) as (E1 & E2 & E3 & E4).
  destruct (IH (tick finalizeRejects b t)) as (F1 & F2 & F3 & F4); [congruence|].
  unfold run in *. repeat split; congruence.
Qed.

Lemma omap_isRejected_insert gs j g :
  omap isRejected gs = [] -> (j < length gs)%nat ->
  omap isRejected (<[j:=g]> gs)
  = match isRejected g with Some e => [e] | None => [] end.
Proof.
  revert j. induction gs as [|g0 gs IH]; intros j Hnil Hj; [cbn in Hj; lia|].
  cbn [omap list_omap] in Hnil. destruct (isRejected g0) eqn:E0; [done|].
  destruct j as [|j]; cbn [insert list_insert omap list_omap].
  - rewrite Hnil. by destruct (isRejected g).
  - rewrite E0. apply IH; [done|]. cbn in Hj. lia.
Qed.

Lemma rejections_insert gs j g :
  omap isRejected gs = [] -> (j < length gs)%nat ->
  rejections (<[j:=g]> gs)
  = match isRejected g with Some e => [e] | None => [] end.
Proof.
  intros Hnil Hj.
  pose proof (rejections_Permutation (<[j:=g]> gs)) as Hperm.
  rewrite omap_isRejected_insert in Hperm by done.
  destruct (isRejected g) as [e|].
  - by apply Permutation_singleton_r.
  - by apply Permutation_nil_r.
Qed.

(** The value the chain catches is the rejection of the group that has
    just failed, unless it is the rejection of [finalize]. *)
Lemma first_rejection b t e :
  ChainInvariant finalizeRejects b -> chain b = Pending ->
  chain (tick finalizeRejects b t) = Caught e ->
  (exists g, groups (tick finalizeRejects b t) !! group t = Some g /\ promise g = Rejected e) \/
  (finalizeRejects <> None /\ forallb isFulfilled (groups (tick finalizeRejects b t)) = true).
Proof.
  intros HI Hc. unfold ChainInvariant in HI. rewrite Hc in HI.
  destruct HI as (Hrej & _). unfold tick.
  destruct (groups b !! group t) as [g|] eqn:Hj; [|congruence].
  destruct (s3Client g) as [c|]; [|congruence].
  destruct (promise g) as [a frames| |] eqn:Hp; [|congruence..].
  destruct (resume c a frames (appendThrows t)) as [st q].
  rewrite settle_groups. cbn [groups]. unfold settle. cbn [chain groups]. rewrite Hc.
  rewrite rejections_insert; [|done|by eapply lookup_lt_Some].
  cbn [isRejected promise].
  destruct st as [a' frames'| |e']; cbn [head].
  - destruct (forallb _ _); [|cbn; congruence]. destruct finalizeRejects; cbn; [|done].
    intros _. by right.
  - destruct (forallb _ _); [|cbn; congruence]. destruct finalizeRejects; cbn; [|done].
    intros _. by right.
  - cbn. intros [= <-]. left. eexists. split.
    + rewrite list_lookup_insert_eq; [done|]. by eapply lookup_lt_Some.
    + done.
Qed.

End ChainFacts.

(** ** Buckets of a state *)

Lemma appendArchiveEntries_StateIn b frames :
  Forall (EntriesIn b) frames -> StateIn b (appendArchiveEntries frames).
Proof.
  induction frames as [|archiveEntries callers IH]; intros HF; [done|].
  apply Forall_cons in HF as [Hes Hcallers].
  destruct archiveEntries as [|[f|d] archiveEntries]; cbn [appendArchiveEntries].
  - by apply IH.
  - apply Forall_cons in Hes as [Hf Hes]. destruct (invalidS3Key _); [done|].
    cbn. split; [done|]. by constructor.
  - apply Forall_cons in Hes as [Hd Hes]. cbn. split; [done|].
    split; [constructor|]. by constructor.
Qed.

Lemma pageEntries_EntriesIn d out :
  EntriesIn (DirEntry.s3BucketName d) (pageEntries d out).
Proof.
  unfold pageEntries, EntriesIn. apply Forall_forall.
  intros e (k & -> & _)%list_elem_of_fmap. done.
Qed.

Lemma resume_StateIn c b a frames o :
  StateIn b (Suspended a frames) ->
  StateIn b (resume c a frames o).1 /\
  Forall (fun x => GetObjectCommandInput.Bucket (origin x) = b) (resume c a frames o).2.
Proof.
  destruct a as [l|f]; cbn [StateIn resume].
  - intros (Hd & Hes & Hframes).
    destruct (sendListObjectsV2 c (listInput l)) as [e|out]; [done|].
    destruct (isEmptyDirectory out); [done|].
    assert (Hes' : EntriesIn b (directoryEntries l ++ pageEntries (dir l) out)).
    { apply Forall_app. split; [done|]. rewrite <- Hd. apply pageEntries_EntriesIn. }
    destruct (JS.truthy _); cbn [fst snd]; split; try done.
    apply appendArchiveEntries_StateIn. by constructor.
  - intros (Hf & Hframes).
    destruct (sendGetObject c (getInput f)) as [e|out]; [done|].
    destruct (GetObjectCommandOutput.Body out) as [[content|content]|]; [|done..].
    destruct o; [done|]. cbn [fst snd]. split.
    + by apply appendArchiveEntries_StateIn.
    + by constructor.
Qed.

Lemma stepGroup_StateIn c b st o :
  StateIn b st ->
  StateIn b (stepGroup c st o).1 /\
  Forall (fun x => GetObjectCommandInput.Bucket (origin x) = b) (stepGroup c st o).2.
Proof.
  destruct st as [a frames| |]; [apply resume_StateIn|done..].
Qed.

Lemma runGroup_StateIn c b outcomes : forall st,
  StateIn b st -> StateIn b (runGroup c outcomes st).1.
Proof.
  induction outcomes as [|o outcomes IH]; intros st Hst; [done|].
  rewrite runGroup_cons. cbn [fst]. apply IH. by apply stepGroup_StateIn.
Qed.

Lemma pendingCommand_bucket b st :
  StateIn b st -> Forall (fun cmd => commandBucket cmd = b) (pendingCommand st).
Proof.
  destruct st as [[l|f] frames| |]; cbn [StateIn pendingCommand]; try done.
  - intros (Hd & _). by constructor.
  - intros (Hf & _). by constructor.
Qed.

Lemma fromBucket_app b q1 q2 :
  fromBucket b (q1 ++ q2) = fromBucket b q1 ++ fromBucket b q2.
Proof. apply filter_app. Qed.

(** ** The groups of a build *)

Section Following.

Variable finalizeRejects : option Thrown.
Variable clientOrClients : ClientOrClients.
Variable kvs : Buckets.
Hypothesis kvs_NoDup : NoDup (map fst kvs).
Hypothesis kvs_EntriesIn : forall kv, kv ∈ kvs -> EntriesIn kv.1 kv.2.

Lemma Following_settle b :
  Following clientOrClients kvs b ->
  Following clientOrClients kvs (settle finalizeRejects b).
Proof.
  unfold Following. by rewrite settle_groups, settle_queue, settle_sent.
Qed.

Lemma Tracks_launch kv :
  kv ∈ kvs -> Tracks clientOrClients kv [] (launch clientOrClients kv).
Proof.
  intros Hkv. unfold Tracks, launch.
  destruct (client clientOrClients kv.1) as [e|c]; cbn; [done|].
  split; [done|]. split; [done|]. by exists [].
Qed.

Lemma Following_launch :
  Following clientOrClients kvs
    (mkBuild (map (launch clientOrClients) kvs) archiver
       (flat_map (fun g => pendingCommand (promise g))
          (map (launch clientOrClients) kvs))
       Pending).
Proof.
  split; [|split]; cbn [groups archive queue archiver sent].
  - apply Forall2_fmap_r, Forall_Forall2_diag, Forall_forall.
    intros kv Hkv. by apply Tracks_launch.
  - constructor.
  - apply Forall_forall. intros cmd Hcmd.
    apply list_elem_of_In, in_flat_map in Hcmd as (g & Hg & Hcmd).
    apply list_elem_of_In, list_elem_of_fmap in Hg as (kv & -> & Hkv).
    apply list_elem_of_In in Hcmd. revert Hcmd. unfold launch.
    destruct (client clientOrClients kv.1) as [e|c] eqn:Hc; cbn [promise].
    + intros H. by apply elem_of_nil in H.
    + intros Hcmd. exists c.
      assert (HS : StateIn kv.1 (appendArchiveEntries [kv.2])).
      { apply appendArchiveEntries_StateIn. constructor; [auto|constructor]. }
      apply pendingCommand_bucket in HS. rewrite Forall_forall in HS.
      by rewrite (HS cmd Hcmd).
Qed.

Lemma keys_differ i j kvi kvj :
  kvs !! i = Some kvi -> kvs !! j = Some kvj -> i <> j -> kvi.1 <> kvj.1.
Proof.
  intros Hi Hj Hne E. apply Hne.
  change (map fst kvs) with (fst <$> kvs) in kvs_NoDup.
  eapply (NoDup_lookup (fst <$> kvs)); [done| |].
  - by rewrite list_lookup_fmap, Hi.
  - by rewrite list_lookup_fmap, Hj, E.
Qed.

Lemma Following_tick b t :
  Following clientOrClients kvs b ->
  Following clientOrClients kvs (tick finalizeRejects b t).
Proof.
  intros HF. unfold tick.
  destruct (groups b !! group t) as [g|] eqn:Hj; [|done].
  destruct (s3Client g) as [c|] eqn:Hcl; [|done].
  destruct (promise g) as [a frames| |] eqn:Hp; [|done..].
  destruct (resume c a frames (appendThrows t)) as [st q] eqn:Hres.
  apply Following_settle. destruct HF as (HT & HQ & HS).
  destruct (Forall2_lookup_r _ _ _ _ _ HT Hj) as (kvj & Hkvj & Hbucket & Htr).
  assert (Hin : kvj ∈ kvs) by (by eapply list_elem_of_lookup_2).
  destruct (client clientOrClients kvj.1) as [e|c'] eqn:Hclient.
  { destruct Htr as (Hnone & _). congruence. }
  destruct Htr as (Hsome & outcomes & Hrun).
  assert (c' = c) as -> by congruence.
  assert (Hst : StateIn kvj.1 (Suspended a frames)).
  { rewrite <- Hp. replace (promise g) with
      (runGroup c outcomes (appendArchiveEntries [kvj.2])).1 by (by rewrite Hrun).
    apply runGroup_StateIn, appendArchiveEntries_StateIn.
    constructor; [auto|constructor]. }
  destruct (resume_StateIn c kvj.1 a frames (appendThrows t) Hst) as [Hst' Hq].
  rewrite Hres in Hst', Hq. cbn [fst snd] in Hst', Hq.
  split; [|split]; cbn [groups archive queue append sent].
  - apply Forall2_same_length_lookup. split.
    { rewrite length_insert. by eapply Forall2_length. }
    intros i kvi gi Hkvi Hgi. destruct (decide (i = group t)) as [->|Hne].
    + rewrite list_lookup_insert_eq in Hgi by (by eapply lookup_lt_Some).
      injection Hgi as <-. assert (kvi = kvj) as -> by congruence.
      split; [done|]. rewrite Hclient. cbn [s3Client promise]. split; [done|].
      exists (outcomes ++ [appendThrows t]).
      rewrite runGroup_app, Hrun. cbn [fst snd]. rewrite runGroup_cons.
      rewrite Hp. cbn [stepGroup runGroup fst snd]. rewrite Hres. cbn [fst snd].
      rewrite fromBucket_app, app_nil_r. do 2 f_equal. symmetry.
      by apply filter_all.
    + rewrite list_lookup_insert_ne in Hgi by done.
      destruct (Forall2_lookup_lr _ _ _ _ _ _ HT Hkvi Hgi) as (Hb & Htracks).
      split; [done|]. rewrite fromBucket_app.
      replace (fromBucket kvi.1 q) with (@nil Appended).
      { by rewrite app_nil_r. }
      symmetry. apply filter_none. eapply Forall_impl; [exact Hq|].
      intros x Hx Hx'. cbn in Hx'. rewrite Hx in Hx'.
      by eapply (keys_differ i (group t)).
  - apply Forall_app. split; [done|]. eapply Forall_impl; [exact Hq|].
    intros x ->. apply list_elem_of_fmap. by exists kvj.
  - apply Forall_app. split; [done|].
    apply pendingCommand_bucket in Hst'. eapply Forall_impl; [exact Hst'|].
    intros cmd ->. by exists c.
Qed.

Lemma Following_run schedule : forall b,
  Following clientOrClients kvs b ->
  Following clientOrClients kvs (run finalizeRejects schedule b).
Proof.
  induction schedule as [|t schedule IH]; intros b HF; [done|].
  cbn [run foldl]. apply IH. by apply Following_tick.
Qed.

End Following.

Lemma Grouped_EntriesIn seen acc kv :
  Grouped seen acc -> kv ∈ acc -> EntriesIn kv.1 kv.2.
Proof.
  intros (_ & _ & Hacc) Hkv. destruct (Hacc kv Hkv) as [-> _].
  unfold EntriesIn. apply Forall_forall. by intros e [? _]%list_elem_of_filter.
Qed.

(** Every build that [s3ArchiveStream] returns follows, however the sends
    settle, the groups of its entries. *)
Lemma Following_s3ArchiveStream finalizeRejects clientOrClients entries b schedule :
  s3ArchiveStream finalizeRejects clientOrClients entries = inr b ->
  exists kvs,
    Grouped entries kvs /\
    Following clientOrClients kvs (run finalizeRejects schedule b).
Proof.
  unfold s3ArchiveStream.
  destruct (groupedS3Buckets entries) as [e|grouped] eqn:Hg; [done|].
  intros [= <-]. apply Grouped_Object_entries in Hg.
  exists (Object_entries grouped). split; [done|].
  pose proof Hg as (Hnd & _).
  assert (Hin : forall kv, kv ∈ Object_entries grouped -> EntriesIn kv.1 kv.2).
  { intros kv Hkv. by eapply Grouped_EntriesIn. }
  apply Following_run; [done..|]. by apply Following_settle, Following_launch.
Qed.

(** ** The build *)

Lemma tick_no_groups finalizeRejects b t : groups b = [] -> tick finalizeRejects b t = b.
Proof. intros H. unfold tick. by rewrite H. Qed.

Lemma run_no_groups finalizeRejects schedule b :
  groups b = [] -> run finalizeRejects schedule b = b.
Proof.
  induction schedule as [|t schedule IH]; intros H; [done|].
  cbn [run foldl]. rewrite tick_no_groups by done. by apply IH.
Qed.

Lemma isFulfilled_true g : isFulfilled g = true <-> promise g = Fulfilled.
Proof. unfold isFulfilled. by destruct (promise g). Qed.

Lemma all_fulfilled gs g :
  forallb isFulfilled gs = true -> g ∈ gs -> promise g = Fulfilled.
Proof.
  rewrite forallb_forall. intros H Hg. apply isFulfilled_true, H.
  by apply list_elem_of_In.
Qed.

Lemma Tracks_Fulfilled clientOrClients kv q g :
  Tracks clientOrClients kv q g -> promise g = Fulfilled ->
  exists c fss,
    s3Client g = Some c /\
    Forall2 (Resolves c) kv.2 fss /\
    map (fun a => (origin a, data a)) (fromBucket kv.1 q)
    = map appendedAs (concat fss).
Proof.
  intros [Hb HT] Hp. destruct (client clientOrClients kv.1) as [e|c].
  { destruct HT as (_ & Hrej & _). congruence. }
  destruct HT as (Hc & outcomes & Hrun). rewrite Hp in Hrun.
  apply (runGroup_Fulfilled_inv c (length outcomes)) in Hrun as (fss & HR & Hq);
    [|done].
  cbn [concat] in HR. rewrite app_nil_r in HR. by exists c, fss.
Qed.

(** What becomes of the archive in a build that returns, after any
    schedule: [finalize] is called at most once, and it has been called
    exactly when every group is fulfilled; as soon as a group is rejected
    [finalize] has not been and will not be called, the archive has been
    destroyed with the rejection of one rejected group and aborted once. *)
Theorem archive_finalized_or_aborted (finalizeRejects : option Thrown)
    (clientOrClients : ClientOrClients) (entries : list S3ArchiveStreamEntry)
    (b : Build) (schedule : list Tick) :
  s3ArchiveStream finalizeRejects clientOrClients entries = inr b ->
  (finalizeCalls (archive (run finalizeRejects schedule b)) = 1%nat
   <-> forallb isFulfilled (groups (run finalizeRejects schedule b)) = true) /\
  (finalizeCalls (archive (run finalizeRejects schedule b)) <= 1)%nat /\
  (forall g e,
     g ∈ groups (run finalizeRejects schedule b) -> promise g = Rejected e ->
     finalizeCalls (archive (run finalizeRejects schedule b)) = 0%nat /\
     abortCalls (archive (run finalizeRejects schedule b)) = 1%nat /\
     exists g' e',
       g' ∈ groups (run finalizeRejects schedule b) /\
       promise g' = Rejected e' /\
       destroyCalls (archive (run finalizeRejects schedule b)) = [e'] /\
       chain (run finalizeRejects schedule b) = Caught e').
Proof.
  intros Hb. apply ChainInvariant_s3ArchiveStream in Hb.
  apply (ChainInvariant_run _ schedule) in Hb.
  set (b' := run finalizeRejects schedule b) in *.
  assert (Hrej : forall g e, g ∈ groups b' -> promise g = Rejected e ->
                             forallb isFulfilled (groups b') = false).
  { intros g e Hg Hp. apply not_true_is_false. intros Hall.
    apply (all_fulfilled _ g) in Hall; [congruence|done]. }
  unfold ChainInvariant in Hb. destruct (chain b') as [| |e0] eqn:Hc.
  - destruct Hb as (Hnil & Hall & Hf & Hd & Ha). rewrite Hf, Hall.
    split; [done|]. split; [lia|]. intros g e Hg Hp.
    assert (He : e ∈ omap isRejected (groups b')).
    { apply list_elem_of_omap. exists g. split; [done|]. by apply isRejected_Some. }
    rewrite Hnil in He. by apply elem_of_nil in He.
  - destruct Hb as (_ & Hall & Hf & Hd & Ha). rewrite Hf, Hall.
    split; [done|]. split; [lia|]. intros g e Hg Hp.
    rewrite (Hrej g e Hg Hp) in Hall. done.
  - destruct Hb as (Hd & Ha & [[(g' & Hg' & Hp') Hf]|(_ & Hall & Hf)]).
    + rewrite Hf, (Hrej g' e0 Hg' Hp'). split; [done|]. split; [lia|].
      intros g e Hg Hp. repeat split; try done. by exists g', e0.
    + rewrite Hf, Hall. split; [done|]. split; [lia|]. intros g e Hg Hp.
      rewrite (Hrej g e Hg Hp) in Hall. done.
Qed.

Lemma reduce_returns entries : forall acc,
  Forall (fun e => s3BucketName e ∉ inheritedProperties) entries ->
  exists grouped, reduce acc entries = inr grouped.
Proof.
  induction entries as [|val entries IH]; intros acc HF; [by eexists|].
  apply Forall_cons in HF as [Hval HF]. cbn [reduce].
  unfold groupedS3Buckets_callback.
  destruct (ownProperty acc (s3BucketName val)); [by apply IH|].
  rewrite decide_False by done. by apply IH.
Qed.

(** The function returns the archive whenever no bucket is named like a
    member of [Object.prototype]. *)
Lemma s3ArchiveStream_returns finalizeRejects clientOrClients entries :
  Forall (fun e => s3BucketName e ∉ inheritedProperties) entries ->
  exists b, s3ArchiveStream finalizeRejects clientOrClients entries = inr b.
Proof.
  intros HF. unfold s3ArchiveStream, groupedS3Buckets.
  destruct (reduce_returns entries [] HF) as [grouped ->]. by eexists.
Qed.

(** C1. A bucket named like a member of [Object.prototype]: the reducer
    throws a [TypeError] out of [s3ArchiveStream], which returns no archive
    to finalize or abort. *)
Theorem inherited_bucket_name_throws (finalizeRejects : option Thrown)
    (clientOrClients : ClientOrClients) :
  s3ArchiveStream finalizeRejects clientOrClients
    [File (fileEntry "constructor" "a.txt")]
  = inl (TypeError "acc[val.s3BucketName].push is not a function").
Proof. reflexivity. Qed.

(** C10. With no entries the function returns the archive with
    [finalize] called once, nothing queued, no command sent and no group
    to run; no later tick changes anything, and [catch] is reached only if
    the archiver's own [finalize] rejects. *)
Theorem empty_entries_finalize (finalizeRejects : option Thrown)
    (clientOrClients : ClientOrClients) (schedule : list Tick) :
  exists b,
    s3ArchiveStream finalizeRejects clientOrClients [] = inr b /\
    run finalizeRejects schedule b = b /\
    groups b = [] /\ sent b = [] /\ queue (archive b) = [] /\
    finalizeCalls (archive b) = 1%nat /\
    chain b = match finalizeRejects with
              | None => Finalized
              | Some e => Caught e
              end /\
    destroyCalls (archive b) = match finalizeRejects with
                               | None => []
                               | Some e => [e]
                               end /\
    abortCalls (archive b) = match finalizeRejects with
                             | None => 0%nat
                             | Some _ => 1%nat
                             end.
Proof.
  eexists. split; [reflexivity|]. split.
  - apply run_no_groups. by destruct finalizeRejects.
  - by destruct finalizeRejects.
Qed.

(** C6. In every build and after any schedule, the client of a group is
    the single client when one was given, and otherwise the entry of the
    record for the group's bucket. When the record has no such entry the
    group is rejected with [NoS3ClientProvidedForBucketError] for its
    bucket and no command is ever sent to that bucket. *)
Theorem client_resolved_before_any_send (finalizeRejects : option Thrown)
    (clientOrClients : ClientOrClients) (entries : list S3ArchiveStreamEntry)
    (b : Build) (schedule : list Tick) (g : Group) :
  s3ArchiveStream finalizeRejects clientOrClients entries = inr b ->
  g ∈ groups (run finalizeRejects schedule b) ->
  (forall c, clientOrClients = OneClient c -> s3Client g = Some c) /\
  (forall m, clientOrClients = ClientRecord m ->
     s3Client g = m !! bucket g /\
     (m !! bucket g = None ->
      promise g = Rejected (NoS3ClientProvidedForBucketError (bucket g)) /\
      forall cmd, cmd ∈ sent (run finalizeRejects schedule b) ->
                  commandBucket cmd <> bucket g)).
Proof.
  intros Hb Hg.
  destruct (Following_s3ArchiveStream _ _ _ _ schedule Hb) as (kvs & _ & HT & _ & HS).
  apply list_elem_of_lookup in Hg as [i Hi].
  destruct (Forall2_lookup_r _ _ _ _ _ HT Hi) as (kv & _ & Hbucket & Htr).
  rewrite <- Hbucket in Htr. split.
  - intros c ->. cbn [client] in Htr. by destruct Htr as [? _].
  - intros m ->. cbn [client] in Htr, HS.
    destruct (m !! bucket g) as [c|] eqn:Hm.
    + by destruct Htr as [? _].
    + destruct Htr as (Hnone & Hp & _). split; [done|]. intros _. split; [done|].
      intros cmd Hcmd E. rewrite Forall_forall in HS.
      destruct (HS cmd Hcmd) as [c Hc]. rewrite E, Hm in Hc. done.
Qed.

(** C5. In every build and after any schedule, a fulfilled group has
    queued, among the entries fetched from its bucket and in this order,
    what each entry of the input for that bucket resolves to: a file entry
    itself, a directory entry the file entries of its listed keys, side by
    side at the place of the directory entry. When all entries are file
    entries of one bucket and the archive has been finalized, the queue is
    the input, entry by entry. *)
Theorem group_appends_in_input_order (finalizeRejects : option Thrown)
    (clientOrClients : ClientOrClients) (entries : list S3ArchiveStreamEntry)
    (b : Build) (schedule : list Tick) :
  s3ArchiveStream finalizeRejects clientOrClients entries = inr b ->
  (forall g,
     g ∈ groups (run finalizeRejects schedule b) -> promise g = Fulfilled ->
     exists c fss,
       s3Client g = Some c /\
       Forall2 (Resolves c)
         (filter (fun e => s3BucketName e = bucket g) entries) fss /\
       map (fun a => (origin a, data a))
         (fromBucket (bucket g) (queue (archive (run finalizeRejects schedule b))))
       = map appendedAs (concat fss)) /\
  (forall s3BucketName fs,
     entries = map File fs ->
     Forall (fun f => FileEntry.s3BucketName f = s3BucketName) fs ->
     finalizeCalls (archive (run finalizeRejects schedule b)) = 1%nat ->
     map (fun a => (origin a, data a))
       (queue (archive (run finalizeRejects schedule b)))
     = map appendedAs fs).
Proof.
  intros Hb.
  destruct (Following_s3ArchiveStream _ _ _ _ schedule Hb)
    as (kvs & (Hnd & Hseen & Hacc) & HT & HQ & _).
  assert (Hgroup : forall g, g ∈ groups (run finalizeRejects schedule b) ->
            promise g = Fulfilled ->
            exists c fss,
              s3Client g = Some c /\
              Forall2 (Resolves c)
                (filter (fun e => s3BucketName e = bucket g) entries) fss /\
              map (fun a => (origin a, data a))
                (fromBucket (bucket g)
                   (queue (archive (run finalizeRejects schedule b))))
              = map appendedAs (concat fss)).
  { intros g [i Hi]%list_elem_of_lookup Hp.
    destruct (Forall2_lookup_r _ _ _ _ _ HT Hi) as (kv & Hkv & Htr).
    destruct (Tracks_Fulfilled _ _ _ _ Htr Hp) as (c & fss & Hc & HR & Hq).
    destruct Htr as [Hbucket _]. apply list_elem_of_lookup_2 in Hkv.
    destruct (Hacc kv Hkv) as [Hfilter _]. rewrite Hbucket, <- Hfilter.
    by exists c, fss. }
  split; [exact Hgroup|].
  intros k fs -> Hfs Hfin.
  apply (archive_finalized_or_aborted _ _ _ _ schedule Hb) in Hfin.
  assert (Hk : forall kv, kv ∈ kvs -> kv.1 = k).
  { intros kv Hkv. destruct (Hacc kv Hkv) as [Hfilter Hne].
    destruct kv.2 as [|e es] eqn:E; [done|].
    assert (He : e ∈ filter (fun e => s3BucketName e = kv.1) (map File fs)).
    { rewrite <- Hfilter. left. }
    apply list_elem_of_filter in He as [<- (f & -> & Hf)%list_elem_of_fmap].
    rewrite Forall_forall in Hfs. by apply Hfs. }
  destruct kvs as [|kv [|kv' kvs]].
  - destruct fs as [|f fs].
    + destruct (queue _) as [|a q]; [done|].
      apply Forall_cons in HQ as [Ha _]. by apply elem_of_nil in Ha.
    + specialize (Hseen (File f)). cbn in Hseen.
      assert (Hin : File f ∈ File f :: map File fs) by left.
      apply Hseen in Hin. by apply elem_of_nil in Hin.
  - apply Forall2_cons_inv_l in HT as (g & gs & Htr & Hnil & Hgs).
    apply Forall2_nil_inv_l in Hnil as ->.
    assert (Hg : g ∈ groups (run finalizeRejects schedule b)) by (rewrite Hgs; left).
    pose proof (all_fulfilled _ g Hfin Hg) as Hp.
    destruct (Tracks_Fulfilled _ _ _ _ Htr Hp) as (c & fss & Hc & HR & Hq).
    assert (Hkv : kv ∈ [kv]) by left.
    destruct (Hacc kv Hkv) as [Hfilter _]. rewrite (Hk kv Hkv) in Hfilter, Hq.
    rewrite filter_all in Hfilter.
    2:{ apply Forall_fmap. eapply Forall_impl; [exact Hfs|]. by intros f <-. }
    rewrite Hfilter in HR. apply Resolves_files in HR. rewrite HR in Hq.
    rewrite <- Hq. f_equal. symmetry. apply filter_all.
    eapply Forall_impl; [exact HQ|]. intros a Ha. cbn in Ha.
    apply list_elem_of_singleton in Ha. by rewrite Ha, (Hk kv Hkv).
  - exfalso. apply NoDup_cons in Hnd as [Hnotin _]. apply Hnotin.
    cbn [map]. rewrite (Hk kv), <- (Hk kv'); [left| |left].
    right. left.
Qed.

(** ** Examples *)

Example archivedKeys_twoPages :
  archivedKeys twoPages = ["dir/x.txt"; "dir/sub/y.txt"; "dir/z.txt"].
Proof. reflexivity. Qed.



Lemma group_appends_in_input_order_witness :
  exists b,
    s3ArchiveStream None (OneClient twoPageClient) (map File twoFiles) = inr b /\
    finalizeCalls (archive (run None [mkTick 0 None; mkTick 0 None] b)) = 1%nat /\
    map (fun a => (origin a, data a))
      (queue (archive (run None [mkTick 0 None; mkTick 0 None] b)))
    = map appendedAs twoFiles.
Proof.
  eexists. split; [reflexivity|]. split; [reflexivity|].
  apply (proj2 (group_appends_in_input_order None (OneClient twoPageClient)
                  (map File twoFiles) _ [mkTick 0 None; mkTick 0 None] eq_refl)
           "bucket" twoFiles); [reflexivity| |reflexivity].
  repeat constructor.
Defined.

Lemma client_resolved_before_any_send_witness :
  exists b g,
    s3ArchiveStream None (ClientRecord bucketA)
      [File (fileEntry "bucket-a" "a.txt"); File (fileEntry "bucket-b" "b.txt")]
    = inr b /\
    g ∈ groups (run None [mkTick 0 None] b) /\
    bucket g = "bucket-b" /\
    promise g = Rejected (NoS3ClientProvidedForBucketError "bucket-b") /\
    forall cmd, cmd ∈ sent (run None [mkTick 0 None] b) ->
                commandBucket cmd <> "bucket-b".
Proof.
  eexists. exists (mkGroup "bucket-b" None
                     (Rejected (NoS3ClientProvidedForBucketError "bucket-b"))).
  split; [reflexivity|]. split; [right; left|]. split; [reflexivity|].
  apply (proj2 (client_resolved_before_any_send None (ClientRecord bucketA)
                  [File (fileEntry "bucket-a" "a.txt");
                   File (fileEntry "bucket-b" "b.txt")]
                  _ [mkTick 0 None] _ eq_refl ltac:(right; left))
           bucketA eq_refl).
  reflexivity.
Defined.

(** ** More on names *)

(** Every string is cut at its last separator. *)
Lemma last_separator s :
  NoSeparator s \/ exists a b, s = a +:+ "/" +:+ b /\ NoSeparator b.
Proof.
  induction s as [|c s [IH|(a & b & -> & Hb)]].
  - left. apply NoSeparator_nil.
  - destruct (Ascii.eqb_spec c "/") as [->|Hc].
    + right. exists "", s. by rewrite strcat_nil_l.
    + left. by apply NoSeparator_cons.
  - right. exists (String c a), b. by rewrite strcat_cons.
Qed.

Lemma default_name_cut s3Key :
  exists folder,
    s3Key = folder +:+ JS.substring s3Key (JS.lastIndexOf s3Key "/" + 1) /\
    NoSeparator (JS.substring s3Key (JS.lastIndexOf s3Key "/" + 1)) /\
    (folder = "" \/ JS.endsWith folder "/" = true).
Proof.
  destruct (last_separator s3Key) as [Hs|(a & b & -> & Hb)].
  - exists "". rewrite substring_NoSeparator by done. by auto.
  - exists (a +:+ "/"). rewrite substring_lastIndexOf by done.
    split; [by rewrite strcat_assoc|]. split; [done|]. right. apply endsWith_strcat.
Qed.

(** X1. Without an explicit [name] and without [preserveFolderStructure], the
    name of a file entry is the last segment of its key: the key is a folder
    part, empty or ending with a separator, followed by the name, and the
    name holds no separator. *)
Theorem default_name_is_last_segment (f : FileEntry.t) :
  FileEntry.name f = None ->
  JS.truthy (FileEntry.preserveFolderStructure f) = false ->
  exists folder,
    FileEntry.s3Key f = folder +:+ archiveEntryName f /\
    NoSeparator (archiveEntryName f) /\
    (folder = "" \/ JS.endsWith folder "/" = true).
Proof.
  intros Hname Hpreserve. unfold archiveEntryName. rewrite Hname, Hpreserve.
  apply default_name_cut.
Qed.

Lemma default_name_is_last_segment_witness :
  exists folder,
    "folder1/folder2/file1.txt" = folder +:+ archiveEntryName (fileEntry "bucket" "folder1/folder2/file1.txt") /\
    NoSeparator (archiveEntryName (fileEntry "bucket" "folder1/folder2/file1.txt")) /\
    (folder = "" \/ JS.endsWith folder "/" = true).
Proof.
  apply (default_name_is_last_segment (fileEntry "bucket" "folder1/folder2/file1.txt"));
    reflexivity.
Defined.

Lemma strcat_nil_inv a b : a +:+ b = "" -> a = "" /\ b = "".
Proof.
  destruct a as [|c a]; [by rewrite strcat_nil_l|]. by rewrite strcat_cons.
Qed.

(** X2. A computed name is never empty: neither the default name of a key
    that passes the check of line 169, nor the name given to a key listed
    under the prefix that passes the filter of line 141, with or without
    [preserveFolderStructure]. *)
Theorem computed_names_are_not_empty :
  (forall f, FileEntry.name f = None ->
     invalidS3Key (FileEntry.s3Key f) = false -> archiveEntryName f <> "") /\
  (forall d r, listedKey (Some (prefix (DirEntry.s3Dir d) +:+ r))
               = Some (prefix (DirEntry.s3Dir d) +:+ r) ->
     archiveEntryName (directoryEntry d (prefix (DirEntry.s3Dir d) +:+ r)) <> "").
Proof.
  split.
  - intros f Hname Hvalid. unfold archiveEntryName. rewrite Hname.
    apply orb_false_iff in Hvalid as [Hne Hend].
    apply String.eqb_neq in Hne.
    destruct (JS.truthy _); [done|].
    destruct (default_name_cut (FileEntry.s3Key f)) as (folder & Hcut & _ & Hfolder).
    intros Hempty. rewrite Hempty, strcat_nil_r in Hcut.
    destruct Hfolder as [->|Hfolder]; congruence.
  - intros d r Hlisted. cbn [archiveEntryName directoryEntry FileEntry.name].
    unfold dirArchiveEntryName. unfold listedKey in Hlisted.
    destruct (JS.endsWith (prefix (DirEntry.s3Dir d) +:+ r) "/") eqn:Hend; [done|].
    destruct (String.eqb_spec (prefix (DirEntry.s3Dir d) +:+ r) "") as [E|Hne]; [done|].
    destruct (JS.truthy _); [done|]. rewrite slice_length_strcat.
    intros ->. rewrite strcat_nil_r in Hend.
    unfold prefix in Hend. destruct (JS.endsWith (DirEntry.s3Dir d) "/") eqn:E;
      [congruence|]. by rewrite endsWith_strcat in Hend.
Qed.

(** X3. Taking the prefix of a prefix changes nothing, and no key that passes
    the filter of line 141 is the prefix itself: the folder marker of the
    listed directory never becomes an entry. *)
Theorem prefix_idempotent (s3Dir : string) :
  prefix (prefix s3Dir) = prefix s3Dir /\
  (forall Key, listedKey (Some Key) = Some Key -> Key <> prefix s3Dir).
Proof.
  assert (Hend : JS.endsWith (prefix s3Dir) "/" = true).
  { unfold prefix. destruct (JS.endsWith s3Dir "/") eqn:E; [done|].
    apply endsWith_strcat. }
  split.
  - unfold prefix at 1. by rewrite Hend.
  - intros Key Hlisted ->. unfold listedKey in Hlisted. by rewrite Hend in Hlisted.
Qed.

(** ** More on grouping *)

Lemma concat_nils {A B} (ks : list B) :
  concat (map (fun _ => @nil A) ks) = [].
Proof. induction ks as [|k ks IH]; [done|]. exact IH. Qed.

(** Sorting a list into the classes of a key function loses and adds
    nothing. *)
Lemma classes_Permutation {A} (key : A -> string) (ks : list string) :
  NoDup ks -> forall l : list A,
  Forall (fun x => key x ∈ ks) l ->
  concat (map (fun k => filter (fun x => key x = k) l) ks) ≡ₚ l.
Proof.
  intros Hnd l. induction l as [|x l IH]; intros HF.
  - clear. induction ks as [|k ks IHk]; [done|]. exact IHk.
  - apply Forall_cons in HF as [Hx HF]. specialize (IH HF).
    apply list_elem_of_split in Hx as (ks1 & ks2 & ->).
    apply NoDup_app in Hnd as (_ & Hdisj & Hnd2).
    apply NoDup_cons in Hnd2 as [Hnotin2 _].
    assert (E1 : map (fun k => filter (fun y => key y = k) (x :: l)) ks1
                 = map (fun k => filter (fun y => key y = k) l) ks1).
    { apply map_ext_in. intros k Hk%list_elem_of_In.
      rewrite filter_cons, decide_False; [done|].
      intros E. apply (Hdisj k Hk). rewrite <- E. left. }
    assert (E2 : map (fun k => filter (fun y => key y = k) (x :: l)) ks2
                 = map (fun k => filter (fun y => key y = k) l) ks2).
    { apply map_ext_in. intros k Hk%list_elem_of_In.
      rewrite filter_cons, decide_False; [done|]. by intros <-. }
    rewrite map_app, concat_app in IH |- *. cbn [map concat] in IH |- *.
    rewrite E1, E2, filter_cons, decide_True by done.
    rewrite <- app_comm_cons, <- Permutation_middle. by rewrite IH.
Qed.

(** X4. When the reducer returns, its buckets partition the input: the bucket
    names are distinct, each bucket is not empty and holds the entries of
    its name in input order, every entry finds its bucket, and the buckets
    together are a permutation of the input. *)
Theorem groupedS3Buckets_partition (entries : list S3ArchiveStreamEntry)
    (grouped : Buckets) :
  groupedS3Buckets entries = inr grouped ->
  NoDup (map fst grouped) /\
  (forall kv, kv ∈ grouped ->
     kv.2 <> [] /\ kv.2 = filter (fun e => s3BucketName e = kv.1) entries) /\
  (forall e, e ∈ entries -> s3BucketName e ∈ map fst grouped) /\
  concat (map snd grouped) ≡ₚ entries.
Proof.
  intros (Hnd & Hseen & Hacc)%Grouped_groupedS3Buckets.
  split; [done|]. split; [|split; [done|]].
  - intros kv Hkv. by destruct (Hacc kv Hkv).
  - rewrite <- (classes_Permutation s3BucketName (map fst grouped) Hnd entries)
      by (by apply Forall_forall).
    rewrite map_map.
    replace (map snd grouped)
      with (map (fun kv : string * list S3ArchiveStreamEntry =>
                   filter (fun e => s3BucketName e = kv.1) entries) grouped);
      [done|].
    apply map_ext_in. intros kv Hkv%list_elem_of_In.
    by destruct (Hacc kv Hkv) as [<- _].
Qed.

Lemma groupedS3Buckets_partition_witness :
  concat (map snd [("a", [File (fileEntry "a" "1"); File (fileEntry "a" "3")]);
                   ("b", [File (fileEntry "b" "2")])])
  ≡ₚ [File (fileEntry "a" "1"); File (fileEntry "b" "2"); File (fileEntry "a" "3")].
Proof.
  apply (groupedS3Buckets_partition
           [File (fileEntry "a" "1"); File (fileEntry "b" "2"); File (fileEntry "a" "3")]).
  reflexivity.
Defined.

Lemma reduce_throws entries : forall acc e,
  reduce acc entries = inl e ->
  e = TypeError "acc[val.s3BucketName].push is not a function" /\
  Exists (fun val => s3BucketName val ∈ inheritedProperties) entries.
Proof.
  induction entries as [|val entries IH]; intros acc e; cbn [reduce]; [done|].
  unfold groupedS3Buckets_callback.
  destruct (ownProperty acc (s3BucketName val)).
  - intros [-> H]%IH. split; [done|]. by right.
  - case_decide as Hin.
    + intros [= <-]. split; [done|]. by left.
    + intros [-> H]%IH. split; [done|]. by right.
Qed.

Lemma reduce_throws_inherited entries : forall acc,
  Forall (fun k => k ∉ inheritedProperties) (map fst acc) ->
  Exists (fun val => s3BucketName val ∈ inheritedProperties) entries ->
  reduce acc entries = inl (TypeError "acc[val.s3BucketName].push is not a function").
Proof.
  induction entries as [|val entries IH]; intros acc Hacc Hex;
    [by apply Exists_nil in Hex|].
  cbn [reduce]. unfold groupedS3Buckets_callback.
  destruct (ownProperty acc (s3BucketName val)) as [es|] eqn:Hown.
  - apply ownProperty_Some in Hown.
    assert (Hkey : s3BucketName val ∉ inheritedProperties).
    { rewrite Forall_forall in Hacc. apply Hacc.
      apply list_elem_of_fmap. by exists (s3BucketName val, es). }
    apply Exists_cons in Hex as [Hval|Hex]; [done|].
    apply IH; [|done]. by rewrite push_keys.
  - case_decide as Hin; [done|].
    apply Exists_cons in Hex as [Hval|Hex]; [done|].
    apply IH; [|done]. rewrite map_app. apply Forall_app. split; [done|].
    by repeat constructor.
Qed.

(** X5. [s3ArchiveStream] throws exactly when some entry names its bucket like
    a member of [Object.prototype], and what it throws is always the same
    [TypeError]; the clients given and the behaviour of [finalize] play no
    part in it. *)
Theorem s3ArchiveStream_throws_iff (finalizeRejects : option Thrown)
    (clientOrClients : ClientOrClients) (entries : list S3ArchiveStreamEntry)
    (e : Thrown) :
  s3ArchiveStream finalizeRejects clientOrClients entries = inl e <->
  e = TypeError "acc[val.s3BucketName].push is not a function" /\
  Exists (fun val => s3BucketName val ∈ inheritedProperties) entries.
Proof.
  unfold s3ArchiveStream, groupedS3Buckets. split.
  - destruct (reduce [] entries) as [e'|grouped] eqn:Hred; [|done].
    intros [= <-]. by eapply reduce_throws.
  - intros [-> Hex]. rewrite reduce_throws_inherited; [done|constructor|done].
Qed.

(** ** Groups do not interfere *)

Lemma stepGroup_settled c st o :
  (forall a frames, st <> Suspended a frames) -> stepGroup c st o = (st, []).
Proof. destruct st as [a frames| |]; [intros H; by destruct (H a frames)|done..]. Qed.

Lemma outcomesOf_snoc i schedule t :
  outcomesOf i (schedule ++ [t])
  = outcomesOf i schedule ++ (if decide (group t = i) then [appendThrows t] else []).
Proof.
  unfold outcomesOf. rewrite filter_app, map_app. f_equal.
  rewrite filter_cons, filter_nil. by case_decide.
Qed.

Lemma runGroup_snoc c outcomes o st :
  runGroup c (outcomes ++ [o]) st
  = ((stepGroup c (runGroup c outcomes st).1 o).1,
     (runGroup c outcomes st).2 ++ (stepGroup c (runGroup c outcomes st).1 o).2).
Proof.
  rewrite runGroup_app, runGroup_cons. cbn [runGroup fst snd].
  by rewrite app_nil_r.
Qed.

Section Isolation.

Variable finalizeRejects : option Thrown.
Variable clientOrClients : ClientOrClients.
Variable kvs : Buckets.
Hypothesis kvs_NoDup : NoDup (map fst kvs).
Hypothesis kvs_EntriesIn : forall kv, kv ∈ kvs -> EntriesIn kv.1 kv.2.

Lemma Tracks_StateIn kv q g : kv ∈ kvs ->
  Tracks clientOrClients kv q g -> StateIn kv.1 (promise g).
Proof.
  intros Hkv [_ HT]. destruct (client clientOrClients kv.1) as [e|c].
  - destruct HT as (_ & -> & _). done.
  - destruct HT as (_ & outcomes & Hrun).
    replace (promise g) with
      (runGroup c outcomes (appendArchiveEntries [kv.2])).1 by (by rewrite Hrun).
    apply runGroup_StateIn, appendArchiveEntries_StateIn.
    constructor; [auto|constructor].
Qed.

(** One tick seen from group [i]: its own tick is one step of the group
    on its own, the tick of another group leaves it as it is. *)
Lemma isolated_tick b t i kv g g' c outcomes :
  Following clientOrClients kvs b ->
  kvs !! i = Some kv -> client clientOrClients kv.1 = inr c ->
  groups b !! i = Some g ->
  runGroup c outcomes (appendArchiveEntries [kv.2])
  = (promise g, fromBucket kv.1 (queue (archive b))) ->
  groups (tick finalizeRejects b t) !! i = Some g' ->
  runGroup c (outcomes ++ (if decide (group t = i) then [appendThrows t] else []))
    (appendArchiveEntries [kv.2])
  = (promise g', fromBucket kv.1 (queue (archive (tick finalizeRejects b t)))).
Proof.
  intros (HT & HQ & HS) Hkv Hclient Hg Hrun. unfold tick.
  assert (Hidle : forall st q,
            runGroup c outcomes (appendArchiveEntries [kv.2]) = (st, q) ->
            (group t = i -> forall a frames, st <> Suspended a frames) ->
            runGroup c (outcomes ++ (if decide (group t = i) then [appendThrows t] else []))
              (appendArchiveEntries [kv.2]) = (st, q)).
  { intros st q Hr Hst. case_decide as E; [|by rewrite app_nil_r].
    rewrite runGroup_snoc, Hr. cbn [fst snd].
    rewrite stepGroup_settled by auto. cbn [fst snd]. by rewrite app_nil_r. }
  destruct (Forall2_lookup_lr _ _ _ _ _ _ HT Hkv Hg) as [Hb Htr].
  rewrite Hclient in Htr. destruct Htr as [Hc _].
  destruct (groups b !! group t) as [gt|] eqn:Hgt.
  2:{ intros Hg'. assert (g' = g) as -> by congruence.
      apply Hidle; [done|]. intros E. congruence. }
  destruct (s3Client gt) as [ct|] eqn:Hct.
  2:{ intros Hg'. assert (g' = g) as -> by congruence.
      apply Hidle; [done|]. intros E. congruence. }
  destruct (promise gt) as [a frames| |] eqn:Hpt.
  2,3: intros Hg'; assert (g' = g) as -> by congruence;
       apply Hidle; [done|]; intros E a frames Hs; congruence.
  destruct (resume ct a frames (appendThrows t)) as [st q] eqn:Hres.
  rewrite settle_groups, settle_queue. cbn [groups archive queue append].
  destruct (Forall2_lookup_r _ _ _ _ _ HT Hgt) as (kvt & Hkvt & Htrt).
  assert (Hin : kvt ∈ kvs) by (by eapply list_elem_of_lookup_2).
  pose proof (Tracks_StateIn _ _ _ Hin Htrt) as Hst. rewrite Hpt in Hst.
  destruct (resume_StateIn ct kvt.1 a frames (appendThrows t) Hst) as [_ Hq].
  rewrite Hres in Hq. cbn [snd] in Hq. rewrite fromBucket_app.
  destruct (decide (group t = i)) as [E|E].
  - subst i. rewrite list_lookup_insert_eq by (by eapply lookup_lt_Some).
    intros [= <-]. cbn [promise].
    assert (gt = g) as -> by congruence. assert (kvt = kv) as -> by congruence.
    assert (ct = c) as -> by congruence.
    rewrite runGroup_snoc, Hrun. cbn [fst snd]. rewrite Hpt. cbn [stepGroup].
    rewrite Hres. cbn [fst snd]. do 2 f_equal. symmetry. by apply filter_all.
  - rewrite list_lookup_insert_ne by done. intros Hg'.
    assert (g' = g) as -> by congruence. rewrite app_nil_r, Hrun. do 2 f_equal.
    replace (fromBucket kv.1 q) with (@nil Appended); [by rewrite app_nil_r|].
    symmetry. apply filter_none. eapply Forall_impl; [exact Hq|].
    intros x Hx Hx'. cbn in Hx'. rewrite Hx in Hx'.
    by eapply (keys_differ kvs kvs_NoDup (group t) i).
Qed.

Lemma run_snoc schedule t b :
  run finalizeRejects (schedule ++ [t]) b
  = tick finalizeRejects (run finalizeRejects schedule b) t.
Proof. unfold run. by rewrite foldl_app. Qed.

Lemma tick_length b t : length (groups (tick finalizeRejects b t)) = length (groups b).
Proof.
  unfold tick. destruct (groups b !! group t) as [g|]; [|done].
  destruct (s3Client g); [|done]. destruct (promise g); [|done..].
  destruct (resume _ _ _ _). rewrite settle_groups. cbn [groups].
  by rewrite length_insert.
Qed.

Lemma isolated_run schedule : forall b0 i kv g c,
  b0 = settle finalizeRejects
         (mkBuild (map (launch clientOrClients) kvs) archiver
            (flat_map (fun g => pendingCommand (promise g))
               (map (launch clientOrClients) kvs))
            Pending) ->
  kvs !! i = Some kv -> client clientOrClients kv.1 = inr c ->
  groups (run finalizeRejects schedule b0) !! i = Some g ->
  runGroup c (outcomesOf i schedule) (appendArchiveEntries [kv.2])
  = (promise g, fromBucket kv.1 (queue (archive (run finalizeRejects schedule b0)))).
Proof.
  induction schedule as [|t schedule IH] using rev_ind;
    intros b0 i kv g c -> Hkv Hclient.
  - cbn [run foldl]. rewrite settle_groups, settle_queue. cbn [groups archive queue archiver].
    change (map (launch clientOrClients) kvs) with (launch clientOrClients <$> kvs).
    rewrite list_lookup_fmap, Hkv. cbn. intros [= <-].
    unfold launch. by rewrite Hclient.
  - rewrite run_snoc, outcomesOf_snoc. intros Hg'.
    set (b0 := settle finalizeRejects _) in *.
    assert (HF : Following clientOrClients kvs (run finalizeRejects schedule b0)).
    { apply Following_run; [done..|]. by apply Following_settle, Following_launch. }
    destruct (groups (run finalizeRejects schedule b0) !! i) as [g0|] eqn:Hg.
    2:{ apply lookup_ge_None in Hg. apply lookup_lt_Some in Hg'.
        rewrite tick_length in Hg'. lia. }
    eapply isolated_tick; [done..| |done]. by eapply IH.
Qed.

End Isolation.

(** X6. Groups do not interfere. After any schedule, the promise of a group
    and the part of the queue fetched from its bucket are those of
    [appendArchiveEntries] run on its own, with the client of the bucket, on
    the entries of that bucket in input order, for the sends of this group
    alone; what the other groups do, and whether the archive has been
    aborted meanwhile, makes no difference. *)
Theorem group_runs_on_its_own (finalizeRejects : option Thrown)
    (clientOrClients : ClientOrClients) (entries : list S3ArchiveStreamEntry)
    (b : Build) (schedule : list Tick) (i : nat) (g : Group) (c : S3Client) :
  s3ArchiveStream finalizeRejects clientOrClients entries = inr b ->
  groups (run finalizeRejects schedule b) !! i = Some g ->
  client clientOrClients (bucket g) = inr c ->
  runGroup c (outcomesOf i schedule)
    (appendArchiveEntries
       [filter (fun e => s3BucketName e = bucket g) entries])
  = (promise g,
     fromBucket (bucket g) (queue (archive (run finalizeRejects schedule b)))).
Proof.
  intros Hb Hg Hclient.
  destruct (Following_s3ArchiveStream _ _ _ _ schedule Hb) as (kvs' & _ & HT' & _).
  revert Hb. unfold s3ArchiveStream.
  destruct (groupedS3Buckets entries) as [e|grouped] eqn:Hgrouped; [done|].
  intros [= Hb]. apply Grouped_Object_entries in Hgrouped.
  set (kvs := Object_entries grouped) in *.
  pose proof Hgrouped as (Hnd & _ & Hacc).
  assert (Hin : forall kv, kv ∈ kvs -> EntriesIn kv.1 kv.2).
  { intros kv Hkv. by eapply Grouped_EntriesIn. }
  assert (HF : Following clientOrClients kvs (run finalizeRejects schedule b)).
  { rewrite <- Hb. apply Following_run; [done..|].
    by apply Following_settle, Following_launch. }
  destruct HF as (HT & _).
  destruct (Forall2_lookup_r _ _ _ _ _ HT Hg) as (kv & Hkv & Hbucket & _).
  pose proof (list_elem_of_lookup_2 _ _ _ Hkv) as Hkvin.
  destruct (Hacc kv Hkvin) as [Hfilter _].
  rewrite Hbucket, <- Hfilter. rewrite Hbucket in Hclient.
  by eapply (isolated_run finalizeRejects clientOrClients kvs Hnd Hin schedule b).
Qed.

(** ** What a finished group leaves behind *)

(** The outcome of [append] only matters when it throws. *)
Lemma stepGroup_outcome c st o1 o2 :
  stepGroup c st o1 = stepGroup c st o2 \/
  (exists e, (stepGroup c st o1).1 = Rejected e) \/
  (exists e, (stepGroup c st o2).1 = Rejected e).
Proof.
  destruct st as [[l|f] frames| |]; cbn [stepGroup resume]; [by left| |by left..].
  destruct (sendGetObject c (getInput f)) as [e|out]; [by left|].
  destruct (GetObjectCommandOutput.Body out) as [[content|content]|]; [|by left..].
  destruct o1 as [e1|]; [right; left; by eexists|].
  destruct o2 as [e2|]; [right; right; by eexists|]. by left.
Qed.

Lemma runGroup_Fulfilled_unique c outcomes1 : forall outcomes2 st q1 q2,
  runGroup c outcomes1 st = (Fulfilled, q1) ->
  runGroup c outcomes2 st = (Fulfilled, q2) ->
  q1 = q2.
Proof.
  induction outcomes1 as [|o1 outcomes1 IH]; intros outcomes2 st q1 q2.
  - cbn [runGroup]. intros [= -> <-]. rewrite runGroup_Fulfilled. by intros [= <-].
  - destruct outcomes2 as [|o2 outcomes2].
    + intros H1 H2. cbn [runGroup] in H2. injection H2 as -> <-.
      rewrite runGroup_Fulfilled in H1. by injection H1 as <-.
    + rewrite !runGroup_cons.
      destruct (stepGroup_outcome c st o1 o2) as [E|[[e E]|[e E]]].
      * rewrite E.
        destruct (runGroup c outcomes1 _) as [st1 q1'] eqn:H1.
        destruct (runGroup c outcomes2 _) as [st2 q2'] eqn:H2.
        cbn [fst snd]. intros [= -> <-] [= -> <-]. f_equal. by eapply IH.
      * rewrite E, runGroup_Rejected. done.
      * rewrite E, (runGroup_Rejected c outcomes2). cbn [fst]. by intros _ [=].
Qed.

(** X7. What a fulfilled group has queued does not depend on the schedule:
    two runs of the same call, under any two schedules and whatever
    [finalize] does, agree on the part of the queue fetched from the bucket
    of a group that is fulfilled in both. *)
Theorem fulfilled_group_is_schedule_independent
    (finalizeRejects1 finalizeRejects2 : option Thrown)
    (clientOrClients : ClientOrClients) (entries : list S3ArchiveStreamEntry)
    (b1 b2 : Build) (schedule1 schedule2 : list Tick) (i : nat) (g1 g2 : Group) :
  s3ArchiveStream finalizeRejects1 clientOrClients entries = inr b1 ->
  s3ArchiveStream finalizeRejects2 clientOrClients entries = inr b2 ->
  groups (run finalizeRejects1 schedule1 b1) !! i = Some g1 ->
  groups (run finalizeRejects2 schedule2 b2) !! i = Some g2 ->
  promise g1 = Fulfilled -> promise g2 = Fulfilled ->
  bucket g1 = bucket g2 /\
  fromBucket (bucket g1) (queue (archive (run finalizeRejects1 schedule1 b1)))
  = fromBucket (bucket g1) (queue (archive (run finalizeRejects2 schedule2 b2))).
Proof.
  unfold s3ArchiveStream.
  destruct (groupedS3Buckets entries) as [e|grouped] eqn:Hgrouped; [done|].
  intros [= <-] [= <-] Hg1 Hg2 Hp1 Hp2.
  apply Grouped_Object_entries in Hgrouped.
  set (kvs := Object_entries grouped) in *.
  pose proof Hgrouped as (Hnd & _ & _).
  assert (Hin : forall kv, kv ∈ kvs -> EntriesIn kv.1 kv.2).
  { intros kv Hkv. by eapply Grouped_EntriesIn. }
  assert (HF : forall fr schedule,
            Following clientOrClients kvs
              (run fr schedule
                 (settle fr
                    (mkBuild (map (launch clientOrClients) kvs) archiver
                       (flat_map (fun g => pendingCommand (promise g))
                          (map (launch clientOrClients) kvs))
                       Pending)))).
  { intros fr schedule. apply Following_run; [done..|].
    by apply Following_settle, Following_launch. }
  destruct (HF finalizeRejects1 schedule1) as (HT1 & _).
  destruct (HF finalizeRejects2 schedule2) as (HT2 & _).
  destruct (Forall2_lookup_r _ _ _ _ _ HT1 Hg1) as (kv & Hkv & Hb1 & Htr1).
  destruct (Forall2_lookup_lr _ _ _ _ _ _ HT2 Hkv Hg2) as (Hb2 & Htr2).
  split; [congruence|]. rewrite Hb1.
  destruct (client clientOrClients kv.1) as [e|c].
  { destruct Htr1 as (_ & Hrej & _). congruence. }
  destruct Htr1 as (_ & os1 & Hrun1). destruct Htr2 as (_ & os2 & Hrun2).
  rewrite Hp1 in Hrun1. rewrite Hp2 in Hrun2.
  by eapply runGroup_Fulfilled_unique.
Qed.

Lemma elem_of_concat {A} (x : A) (ls : list (list A)) :
  x ∈ concat ls <-> exists l, x ∈ l /\ l ∈ ls.
Proof.
  rewrite list_elem_of_In, in_concat. split.
  - intros (l & Hl & Hx). exists l. by rewrite !list_elem_of_In.
  - intros (l & Hx & Hl). exists l. by rewrite <- !list_elem_of_In.
Qed.

(** X8. Once [finalize] has been called the queue holds what the input
    resolves to and nothing else: every file entry that an entry of the
    input resolves to, with the client of its bucket, is queued with its
    request and its entry data, and every queued entry is one of these. *)
Theorem finalized_archive_holds_every_entry (finalizeRejects : option Thrown)
    (clientOrClients : ClientOrClients) (entries : list S3ArchiveStreamEntry)
    (b : Build) (schedule : list Tick) :
  s3ArchiveStream finalizeRejects clientOrClients entries = inr b ->
  finalizeCalls (archive (run finalizeRejects schedule b)) = 1%nat ->
  (forall e, e ∈ entries ->
     exists c fs,
       client clientOrClients (s3BucketName e) = inr c /\ Resolves c e fs /\
       forall f, f ∈ fs ->
         appendedAs f ∈ map (fun a => (origin a, data a))
                          (queue (archive (run finalizeRejects schedule b)))) /\
  (forall a, a ∈ queue (archive (run finalizeRejects schedule b)) ->
     exists e c fs f,
       e ∈ entries /\ client clientOrClients (s3BucketName e) = inr c /\
       Resolves c e fs /\ f ∈ fs /\ appendedAs f = (origin a, data a)).
Proof.
  intros Hb Hfin.
  apply (archive_finalized_or_aborted _ _ _ _ schedule Hb) in Hfin.
  destruct (Following_s3ArchiveStream _ _ _ _ schedule Hb)
    as (kvs & (Hnd & Hseen & Hacc) & HT & HQ & _).
  set (b' := run finalizeRejects schedule b) in *.
  assert (Hgroup : forall kv, kv ∈ kvs ->
            exists c fss,
              client clientOrClients kv.1 = inr c /\
              Forall2 (Resolves c) kv.2 fss /\
              map (fun a => (origin a, data a)) (fromBucket kv.1 (queue (archive b')))
              = map appendedAs (concat fss)).
  { intros kv [i Hi]%list_elem_of_lookup.
    destruct (Forall2_lookup_l _ _ _ _ _ HT Hi) as (g & Hg & Htr).
    pose proof (all_fulfilled _ g Hfin (list_elem_of_lookup_2 _ _ _ Hg)) as Hp.
    destruct (Tracks_Fulfilled _ _ _ _ Htr Hp) as (c & fss & Hc & HR & Hq).
    destruct Htr as [_ Htr]. destruct (client clientOrClients kv.1) as [e|c'].
    { destruct Htr as (_ & Hrej & _). congruence. }
    destruct Htr as (Hc' & _). exists c, fss. split; [congruence|done]. }
  split.
  - intros e He. pose proof (Hseen e He) as Hk.
    apply list_elem_of_fmap in Hk as (kv & Hkey & Hkv).
    destruct (Hgroup kv Hkv) as (c & fss & Hc & HR & Hq).
    destruct (Hacc kv Hkv) as [Hfilter _].
    assert (Hin : e ∈ kv.2).
    { rewrite Hfilter. apply list_elem_of_filter. by split. }
    apply list_elem_of_lookup in Hin as [j Hj].
    destruct (Forall2_lookup_l _ _ _ _ _ HR Hj) as (fs & Hfs & Hres).
    exists c, fs. rewrite Hkey. split; [done|]. split; [done|].
    intros f Hf.
    assert (Hmem : appendedAs f ∈ map appendedAs (concat fss)).
    { apply list_elem_of_fmap. exists f. split; [done|].
      apply elem_of_concat. exists fs. split; [done|].
      by eapply list_elem_of_lookup_2. }
    rewrite <- Hq in Hmem.
    apply list_elem_of_fmap in Hmem as (a & Ha & Hin).
    apply list_elem_of_filter in Hin as [_ Hin].
    apply list_elem_of_fmap. by exists a.
  - intros a Ha. rewrite Forall_forall in HQ. pose proof (HQ a Ha) as Hk.
    apply list_elem_of_fmap in Hk as (kv & Hkey & Hkv).
    destruct (Hgroup kv Hkv) as (c & fss & Hc & HR & Hq).
    destruct (Hacc kv Hkv) as [Hfilter _].
    assert (Hmem : (origin a, data a)
                   ∈ map (fun a => (origin a, data a))
                       (fromBucket kv.1 (queue (archive b')))).
    { apply list_elem_of_fmap. exists a. split; [done|].
      apply list_elem_of_filter. by split. }
    rewrite Hq in Hmem. apply list_elem_of_fmap in Hmem as (f & Hf & Hin).
    apply elem_of_concat in Hin as (fs & Hffs & [j Hj]%list_elem_of_lookup).
    destruct (Forall2_lookup_r _ _ _ _ _ HR Hj) as (e & He & Hres).
    assert (Hein : e ∈ filter (fun e => s3BucketName e = kv.1) entries).
    { rewrite <- Hfilter. by eapply list_elem_of_lookup_2. }
    apply list_elem_of_filter in Hein as [Hbucket Hein].
    exists e, c, fs, f. rewrite Hbucket. by repeat split.
Qed.

(** ** Progress *)

Lemma runGroup_files c fs callers :
  Forall (Fetchable c) fs ->
  exists q,
    runGroup c (repeat None (length fs))
      (appendArchiveEntries (map File fs :: callers))
    = (appendArchiveEntries callers, q) /\
    map (fun a => (origin a, data a)) q = map appendedAs fs.
Proof.
  induction 1 as [|f fs (Hkey & out & content & Hsend & Hbody) _ (q & Hrun & Hq)].
  - by exists [].
  - cbn [length repeat map appendArchiveEntries]. rewrite Hkey, runGroup_cons.
    cbn [stepGroup resume]. rewrite Hsend, Hbody. cbn [fst snd].
    rewrite Hrun. cbn [fst snd]. eexists. split; [done|].
    cbn [map app origin data]. by rewrite Hq.
Qed.

Lemma runGroup_resolves c es fss : forall callers,
  Forall2 (Resolves c) es fss -> Forall (Fetchable c) (concat fss) ->
  exists n q,
    runGroup c (repeat None n) (appendArchiveEntries (es :: callers))
    = (appendArchiveEntries callers, q) /\
    map (fun a => (origin a, data a)) q = map appendedAs (concat fss).
Proof.
  intros callers HR. revert callers.
  induction HR as [|e fs es fss Hres _ IH]; intros callers HF.
  - by exists 0%nat, [].
  - cbn [concat] in HF. apply Forall_app in HF as [HF1 HF2].
    destruct (IH callers HF2) as (n & q & Hrun & Hq).
    destruct Hres as [f|d outs HP].
    + apply Forall_cons in HF1 as [(Hkey & out & content & Hsend & Hbody) _].
      exists (1 + n)%nat. eexists.
      rewrite repeat_app, runGroup_app. cbn [repeat appendArchiveEntries].
      rewrite Hkey, runGroup_cons. cbn [stepGroup resume runGroup].
      rewrite Hsend, Hbody. cbn [fst snd]. rewrite Hrun. cbn [fst snd].
      split; [done|]. rewrite app_nil_r. cbn [concat app map origin data].
      by rewrite Hq.
    + destruct (runGroup_files c _ (es :: callers) HF1) as (q1 & Hrun1 & Hq1).
      exists (length outs + (length (map (directoryEntry d) (archivedKeys outs)) + n))%nat,
             (q1 ++ q).
      rewrite !repeat_app, !runGroup_app. cbn [appendArchiveEntries].
      rewrite (runGroup_listing c (mkListing d [] None) outs);
        [|done|by rewrite repeat_length].
      cbn [fst snd directoryEntries dir app].
      rewrite pageEntries_archivedKeys, <- (map_map (directoryEntry d) File), Hrun1.
      cbn [fst snd]. rewrite Hrun. split; [done|].
      cbn [concat]. by rewrite !map_app, Hq1, Hq.
Qed.

(** X9. A group makes progress. When every entry resolves, each directory
    being served in finitely many pages, and every resulting file entry
    passes the key check and is served with a [Readable] body, then after
    enough settled sends, [append] never throwing, the function is fulfilled
    with exactly these file entries queued in order, and further sends
    change nothing. *)
Theorem resolvable_group_is_fulfilled (c : S3Client)
    (archiveEntries : list S3ArchiveStreamEntry) (fss : list (list FileEntry.t)) :
  Forall2 (Resolves c) archiveEntries fss ->
  Forall (Fetchable c) (concat fss) ->
  exists n q,
    (forall m, (n <= m)%nat ->
       runGroup c (repeat None m) (appendArchiveEntries [archiveEntries])
       = (Fulfilled, q)) /\
    map (fun a => (origin a, data a)) q = map appendedAs (concat fss).
Proof.
  intros HR HF. destruct (runGroup_resolves c _ _ [] HR HF) as (n & q & Hrun & Hq).
  exists n, q. split; [|done]. intros m Hm.
  replace m with (n + (m - n))%nat by lia.
  rewrite repeat_app, runGroup_app, Hrun. cbn [fst snd appendArchiveEntries].
  by rewrite runGroup_Fulfilled, app_nil_r.
Qed.

Lemma outcomesOf_no_throw i schedule :
  Forall (fun t => appendThrows t = None) schedule ->
  outcomesOf i schedule = repeat None (length (outcomesOf i schedule)).
Proof.
  unfold outcomesOf. induction 1 as [|t schedule Ht _ IH]; [done|].
  rewrite filter_cons. case_decide; [|done].
  cbn [map length repeat]. by rewrite Ht, <- IH.
Qed.

Lemma uniform_bound {A} (P : A -> nat -> Prop) (l : list A) :
  (forall x, x ∈ l -> exists n, forall m, (n <= m)%nat -> P x m) ->
  exists n, forall x, x ∈ l -> forall m, (n <= m)%nat -> P x m.
Proof.
  induction l as [|x l IH]; intros H.
  - exists 0%nat. intros x Hx. by apply elem_of_nil in Hx.
  - destruct (H x) as [n1 H1]; [by left|].
    destruct IH as [n2 H2]; [intros y Hy; apply H; by right|].
    exists (n1 `max` n2)%nat. intros y Hy m Hm.
    apply elem_of_cons in Hy as [->|Hy]; [apply H1|apply H2; [done|]]; lia.
Qed.

Lemma Forall_Resolves c (es : list S3ArchiveStreamEntry) :
  (forall e, e ∈ es ->
     exists fs, Resolves c e fs /\ Forall (Fetchable c) fs) ->
  exists fss, Forall2 (Resolves c) es fss /\ Forall (Fetchable c) (concat fss).
Proof.
  induction es as [|e es IH]; intros H.
  - by exists [].
  - destruct (H e) as (fs & Hres & HF); [by left|].
    destruct IH as (fss & HR & HFs); [intros e' He'; apply H; by right|].
    exists (fs :: fss). split; [by constructor|].
    cbn [concat]. by apply Forall_app.
Qed.

(** X10. The build makes progress. When every entry of the input has a client
    for its bucket, resolves with it and resolves to file entries that can
    be fetched, there is a number of sends such that every schedule in which
    [append] never throws and every group settles at least that many sends
    ends with [finalize] called once; the chain is then finalized, or has
    caught the rejection of [finalize] itself. *)
Theorem resolvable_entries_are_archived (finalizeRejects : option Thrown)
    (clientOrClients : ClientOrClients) (entries : list S3ArchiveStreamEntry)
    (b : Build) :
  s3ArchiveStream finalizeRejects clientOrClients entries = inr b ->
  (forall e, e ∈ entries ->
     exists c fs,
       client clientOrClients (s3BucketName e) = inr c /\
       Resolves c e fs /\ Forall (Fetchable c) fs) ->
  exists n,
    forall schedule,
      Forall (fun t => appendThrows t = None) schedule ->
      (forall i, (i < length (groups b))%nat ->
                 (n <= length (outcomesOf i schedule))%nat) ->
      finalizeCalls (archive (run finalizeRejects schedule b)) = 1%nat /\
      chain (run finalizeRejects schedule b)
      = match finalizeRejects with
        | None => Finalized
        | Some e => Caught e
        end.
Proof.
  intros Hb Hentries. pose proof Hb as Hb0. revert Hb. unfold s3ArchiveStream.
  destruct (groupedS3Buckets entries) as [e|grouped] eqn:Hgrouped; [done|].
  intros [= Hb]. apply Grouped_Object_entries in Hgrouped.
  set (kvs := Object_entries grouped) in *.
  pose proof Hgrouped as (Hnd & _ & Hacc).
  assert (Hin : forall kv, kv ∈ kvs -> EntriesIn kv.1 kv.2).
  { intros kv Hkv. by eapply Grouped_EntriesIn. }
  destruct (uniform_bound
              (fun kv m => forall c, client clientOrClients kv.1 = inr c ->
                 (runGroup c (repeat None m) (appendArchiveEntries [kv.2])).1
                 = Fulfilled) kvs) as [n Hn].
  { intros kv Hkv. destruct (Hacc kv Hkv) as [Hfilter _].
    destruct (client clientOrClients kv.1) as [e|c] eqn:Hc.
    { exists 0%nat. by intros m _ c. }
    destruct (Forall_Resolves c kv.2) as (fss & HR & HF).
    { intros e He. rewrite Hfilter in He.
      apply list_elem_of_filter in He as [Hbucket He].
      destruct (Hentries e He) as (c' & fs & Hc' & Hres & HF).
      rewrite Hbucket, Hc in Hc'. injection Hc' as <-. by exists fs. }
    destruct (runGroup_resolves c _ _ [] HR HF) as (n & q & Hrun & _).
    exists n. intros m Hm c' [= <-].
    replace m with (n + (m - n))%nat by lia.
    rewrite repeat_app, runGroup_app, Hrun. cbn [fst snd appendArchiveEntries].
    by rewrite runGroup_Fulfilled. }
  exists n. intros schedule Hthrow Hfair.
  assert (Hall : forallb isFulfilled (groups (run finalizeRejects schedule b)) = true).
  { apply forallb_forall. intros g [i Hg]%list_elem_of_In%list_elem_of_lookup.
    apply isFulfilled_true.
    assert (HF : Following clientOrClients kvs (run finalizeRejects schedule b)).
    { rewrite <- Hb. apply Following_run; [done..|].
      by apply Following_settle, Following_launch. }
    destruct HF as (HT & _).
    destruct (Forall2_lookup_r _ _ _ _ _ HT Hg) as (kv & Hkv & _).
    pose proof (list_elem_of_lookup_2 _ _ _ Hkv) as Hkvin.
    destruct (Hacc kv Hkvin) as [Hfilter Hne].
    destruct (kv.2) as [|e es] eqn:Hes; [done|].
    assert (He : e ∈ filter (fun e => s3BucketName e = kv.1) entries).
    { rewrite <- Hfilter. by left. }
    apply list_elem_of_filter in He as [Hbucket He].
    destruct (Hentries e He) as (c & _ & Hc & _). rewrite Hbucket in Hc.
    pose proof (isolated_run finalizeRejects clientOrClients kvs Hnd Hin
                  schedule b i kv g c (eq_sym Hb) Hkv Hc Hg) as Hrun.
    rewrite (outcomesOf_no_throw i schedule Hthrow) in Hrun.
    rewrite <- (Hn kv Hkvin (length (outcomesOf i schedule))) with (c := c); [|..|done].
    - by rewrite Hrun.
    - apply Hfair. rewrite <- Hb, settle_groups. cbn [groups].
      rewrite length_map. by eapply lookup_lt_Some. }
  pose proof (ChainInvariant_run finalizeRejects schedule b
                (ChainInvariant_s3ArchiveStream _ _ _ _ Hb0)) as HI.
  unfold ChainInvariant in HI.
  destruct (chain (run finalizeRejects schedule b)) as [| |e].
  - destruct HI as (_ & Hnot & _). congruence.
  - destruct HI as (-> & _ & -> & _). done.
  - destruct HI as (_ & _ & [((g & Hg & Hp) & _)|(-> & _ & ->)]); [|done].
    apply (all_fulfilled _ g Hall) in Hg. congruence.
Qed.

(** ** Rejections of a group *)

Lemma listedKey_valid Key k :
  listedKey Key = Some k -> Key = Some k /\ invalidS3Key k = false.
Proof.
  destruct Key as [k'|]; [|done]. unfold listedKey, invalidS3Key.
  destruct (JS.endsWith k' "/") eqn:E1; [done|].
  destruct (String.eqb k' "") eqn:E2; [done|]. cbn [negb andb].
  intros [= <-]. by rewrite E1, E2.
Qed.

Lemma pageEntries_Known es d out : Forall (Known es) (pageEntries d out).
Proof.
  unfold pageEntries. apply Forall_fmap, Forall_forall. intros k Hk.
  apply list_elem_of_omap in Hk as (Key & _ & HKey).
  apply listedKey_valid in HKey as [_ Hvalid]. right. by eexists.
Qed.

Lemma appendArchiveEntries_Sourced es frames :
  Forall (Forall (Known es)) frames -> Sourced es (appendArchiveEntries frames).
Proof.
  induction 1 as [|archiveEntries callers Hhead Hcallers IH]; [done|].
  destruct Hhead as [|e archiveEntries He Hrest]; [done|].
  destruct e as [f|d]; cbn [appendArchiveEntries].
  - destruct (invalidS3Key (FileEntry.s3Key f)) eqn:Hkey.
    + destruct He as [He|(f' & [= <-] & Hvalid)]; [|congruence].
      by apply GroupError_key.
    + cbn [Sourced]. split; [done|]. by constructor.
  - destruct He as [He|(f' & [=] & _)]. cbn [Sourced dir directoryEntries].
    split; [done|]. split; [done|]. by constructor.
Qed.

Lemma resume_Sourced c es a frames o :
  Sourced es (Suspended a frames) -> Sourced es (resume c a frames o).1.
Proof.
  destruct a as [l|f]; cbn [Sourced resume].
  - intros (Hd & Hes & Hframes).
    destruct (sendListObjectsV2 c (listInput l)) as [e|out]; [by apply GroupError_list|].
    destruct (isEmptyDirectory out); [by apply GroupError_list|].
    assert (Hall : Forall (Known es) (directoryEntries l ++ pageEntries (dir l) out)).
    { apply Forall_app. split; [done|]. apply pageEntries_Known. }
    destruct (JS.truthy _); cbn [fst Sourced dir directoryEntries]; [done|].
    apply appendArchiveEntries_Sourced. by constructor.
  - intros (Hkey & Hframes).
    destruct (sendGetObject c (getInput f)) as [e|out]; [by apply GroupError_get|].
    destruct (GetObjectCommandOutput.Body out) as [[content|content]|];
      [|by apply GroupError_get..].
    destruct o as [e|]; [by apply GroupError_get|].
    by apply appendArchiveEntries_Sourced.
Qed.

Lemma runGroup_Sourced c es outcomes : forall st,
  Sourced es st -> Sourced es (runGroup c outcomes st).1.
Proof.
  induction outcomes as [|o outcomes IH]; intros st Hst; [done|].
  rewrite runGroup_cons. cbn [fst]. apply IH.
  destruct st as [a frames| |e]; [|done..]. by apply resume_Sourced.
Qed.

Lemma Known_refl es : Forall (Forall (Known es)) [es].
Proof.
  constructor; [|constructor]. apply Forall_forall. intros e He. by left.
Qed.

(** X11. The rejections of a group, after any schedule, are the module's own
    errors and nothing else: [NoS3ClientProvidedForBucketError] for its
    bucket when the record of clients lacks the bucket; otherwise
    [InvalidS3KeyError] for the refused key of a file entry the caller gave
    for that bucket, [FailedToListObjectsError] for the prefix of a
    directory entry the caller gave for that bucket, or
    [FailedToGetS3ObjectStreamError] for a key that passed the key check.
    No rejection of a client and no error of the archiver reaches the chain
    unwrapped, and a listed key is never refused as invalid. *)
Theorem group_rejections (finalizeRejects : option Thrown)
    (clientOrClients : ClientOrClients) (entries : list S3ArchiveStreamEntry)
    (b : Build) (schedule : list Tick) (g : Group) (e : Thrown) :
  s3ArchiveStream finalizeRejects clientOrClients entries = inr b ->
  g ∈ groups (run finalizeRejects schedule b) ->
  promise g = Rejected e ->
  (e = NoS3ClientProvidedForBucketError (bucket g) /\
   exists m, clientOrClients = ClientRecord m /\ m !! bucket g = None) \/
  GroupError (filter (fun e => s3BucketName e = bucket g) entries) e.
Proof.
  intros Hb [i Hg]%list_elem_of_lookup Hp.
  destruct (Following_s3ArchiveStream _ _ _ _ schedule Hb)
    as (kvs & (_ & _ & Hacc) & HT & _).
  destruct (Forall2_lookup_r _ _ _ _ _ HT Hg) as (kv & Hkv & Hbucket & Htr).
  destruct (Hacc kv (list_elem_of_lookup_2 _ _ _ Hkv)) as [Hfilter _].
  rewrite Hbucket, <- Hfilter. unfold client in Htr.
  destruct clientOrClients as [c|m].
  - right. destruct Htr as (_ & outcomes & Hrun).
    pose proof (runGroup_Sourced c kv.2 outcomes _
                  (appendArchiveEntries_Sourced _ _ (Known_refl kv.2))) as HS.
    by rewrite Hrun, Hp in HS.
  - destruct (m !! kv.1) as [c|] eqn:Hm.
    + right. destruct Htr as (_ & outcomes & Hrun).
      pose proof (runGroup_Sourced c kv.2 outcomes _
                    (appendArchiveEntries_Sourced _ _ (Known_refl kv.2))) as HS.
      by rewrite Hrun, Hp in HS.
    + left. destruct Htr as (_ & Hrej & _). split; [congruence|by exists m].
Qed.

(** ** What is sent and what is queued *)

Lemma pendingCommand_WellFormed frames :
  Forall WellFormed (pendingCommand (appendArchiveEntries frames)).
Proof.
  induction frames as [|archiveEntries callers IH]; [by constructor|].
  destruct archiveEntries as [|[f|d] archiveEntries]; cbn [appendArchiveEntries].
  - done.
  - destruct (invalidS3Key (FileEntry.s3Key f)) eqn:Hkey; [by constructor|].
    apply orb_false_iff in Hkey as [Hne%String.eqb_neq Hend].
    cbn [pendingCommand]. by repeat constructor.
  - cbn [pendingCommand]. repeat constructor.
    cbn [WellFormed listInput ListObjectsV2CommandInput.Prefix dir].
    unfold prefix. destruct (JS.endsWith (DirEntry.s3Dir d) "/") eqn:E; [done|].
    apply endsWith_strcat.
Qed.

Lemma resume_WellFormed c a frames o :
  Forall WellFormed (pendingCommand (resume c a frames o).1).
Proof.
  destruct a as [l|f]; cbn [resume].
  - destruct (sendListObjectsV2 c (listInput l)) as [e|out]; [by constructor|].
    destruct (isEmptyDirectory out); [by constructor|].
    destruct (JS.truthy _); cbn [fst]; [|apply pendingCommand_WellFormed].
    cbn [pendingCommand]. repeat constructor.
    cbn [WellFormed listInput ListObjectsV2CommandInput.Prefix dir].
    unfold prefix. destruct (JS.endsWith (DirEntry.s3Dir (dir l)) "/") eqn:E; [done|].
    apply endsWith_strcat.
  - destruct (sendGetObject c (getInput f)) as [e|out]; [by constructor|].
    destruct (GetObjectCommandOutput.Body out) as [[content|content]|];
      [|by constructor..].
    destruct o as [e|]; [by constructor|]. apply pendingCommand_WellFormed.
Qed.

Lemma resume_queue c a frames o x :
  x ∈ (resume c a frames o).2 ->
  pendingCommand (Suspended a frames) = [GetObjectCommand (origin x)] /\ Served c x.
Proof.
  destruct a as [l|f]; cbn [resume].
  - destruct (sendListObjectsV2 c (listInput l)) as [e|out];
      [by intros ?%elem_of_nil|].
    destruct (isEmptyDirectory out); [by intros ?%elem_of_nil|].
    destruct (JS.truthy _); by intros ?%elem_of_nil.
  - destruct (sendGetObject c (getInput f)) as [e|out] eqn:Hsend;
      [by intros ?%elem_of_nil|].
    destruct (GetObjectCommandOutput.Body out) as [[content|content]|] eqn:Hbody;
      [|by intros ?%elem_of_nil..].
    destruct o as [e|]; [by intros ?%elem_of_nil|].
    intros ->%list_elem_of_singleton. split; [done|]. by exists out.
Qed.

Lemma runGroup_Served c outcomes : forall st x,
  x ∈ (runGroup c outcomes st).2 -> Served c x.
Proof.
  induction outcomes as [|o outcomes IH]; intros st x; [by intros ?%elem_of_nil|].
  rewrite runGroup_cons. cbn [snd]. intros [Hx|Hx]%elem_of_app; [|by eapply IH].
  destruct st as [a frames| |e]; cbn [stepGroup snd] in Hx;
    [|by apply elem_of_nil in Hx..].
  by apply resume_queue in Hx as [_ Hx].
Qed.

Section Recorded.

Variable finalizeRejects : option Thrown.

Lemma Recorded_settle b : Recorded b -> Recorded (settle finalizeRejects b).
Proof.
  unfold Recorded. by rewrite settle_groups, settle_queue, settle_sent.
Qed.

Lemma Recorded_launch clientOrClients kvs :
  Recorded (mkBuild (map (launch clientOrClients) kvs) archiver
              (flat_map (fun g => pendingCommand (promise g))
                 (map (launch clientOrClients) kvs))
              Pending).
Proof.
  unfold Recorded. cbn [groups archive queue archiver sent]. split; [|split].
  - intros g cmd Hg Hcmd. apply list_elem_of_In, in_flat_map. exists g.
    by rewrite <- !list_elem_of_In.
  - by intros a ?%elem_of_nil.
  - apply Forall_forall. intros cmd (g & Hg & Hcmd)%list_elem_of_In%in_flat_map.
    apply list_elem_of_In, list_elem_of_fmap in Hg as (kv & -> & _).
    apply list_elem_of_In in Hcmd. revert Hcmd. unfold launch.
    destruct (client clientOrClients kv.1); cbn [promise pendingCommand];
      [by intros ?%elem_of_nil|].
    apply Forall_forall, pendingCommand_WellFormed.
Qed.

Lemma Recorded_tick b t : Recorded b -> Recorded (tick finalizeRejects b t).
Proof.
  intros (Hpending & Hqueue & Hsent). unfold tick.
  destruct (groups b !! group t) as [g|] eqn:Hg; [|done].
  destruct (s3Client g) as [c|]; [|done].
  destruct (promise g) as [a frames| |] eqn:Hp; [|done..].
  pose proof (resume_WellFormed c a frames (appendThrows t)) as Hwf.
  pose proof (resume_queue c a frames (appendThrows t)) as Hq.
  destruct (resume c a frames (appendThrows t)) as [st q]. cbn [fst snd] in *.
  apply Recorded_settle. unfold Recorded. cbn [groups archive queue append sent].
  split; [|split].
  - intros g' cmd [j Hg']%list_elem_of_lookup Hcmd. apply elem_of_app.
    destruct (decide (group t = j)) as [<-|Hne].
    + rewrite list_lookup_insert_eq in Hg' by (by eapply lookup_lt_Some).
      injection Hg' as <-. by right.
    + rewrite list_lookup_insert_ne in Hg' by done. left.
      eapply Hpending; [|done]. by eapply list_elem_of_lookup_2.
  - intros x [Hx|Hx]%elem_of_app; apply elem_of_app; left; [by apply Hqueue|].
    destruct (Hq x Hx) as [Hcmd _]. apply (Hpending g).
    + by eapply list_elem_of_lookup_2.
    + rewrite Hp, Hcmd. by left.
  - by apply Forall_app.
Qed.

Lemma Recorded_run schedule : forall b,
  Recorded b -> Recorded (run finalizeRejects schedule b).
Proof.
  induction schedule as [|t schedule IH]; intros b Hb; [done|].
  cbn [run foldl]. by apply IH, Recorded_tick.
Qed.

End Recorded.

Lemma Recorded_s3ArchiveStream finalizeRejects clientOrClients entries b schedule :
  s3ArchiveStream finalizeRejects clientOrClients entries = inr b ->
  Recorded (run finalizeRejects schedule b).
Proof.
  unfold s3ArchiveStream. destruct (groupedS3Buckets entries); [done|].
  intros [= <-]. apply Recorded_run, Recorded_settle, Recorded_launch.
Qed.

(** X12. Every command sent, after any schedule, is well formed and goes to a
    bucket that has a client: a fetch never names an empty key or a key
    that ends with a separator, whether the key came from the caller or from
    a listing, and a listing always names a prefix that ends with a
    separator. *)
Theorem sent_commands_are_well_formed (finalizeRejects : option Thrown)
    (clientOrClients : ClientOrClients) (entries : list S3ArchiveStreamEntry)
    (b : Build) (schedule : list Tick) (cmd : Command) :
  s3ArchiveStream finalizeRejects clientOrClients entries = inr b ->
  cmd ∈ sent (run finalizeRejects schedule b) ->
  WellFormed cmd /\
  exists c, client clientOrClients (commandBucket cmd) = inr c.
Proof.
  intros Hb Hcmd.
  destruct (Recorded_s3ArchiveStream _ _ _ _ schedule Hb) as (_ & _ & Hwf).
  destruct (Following_s3ArchiveStream _ _ _ _ schedule Hb) as (kvs & _ & _ & _ & HS).
  rewrite Forall_forall in Hwf, HS. split; [by apply Hwf|by apply HS].
Qed.

(** X13. Nothing is queued that was not fetched: after any schedule, every
    queued entry comes from a [GetObjectCommand] that was sent, and its
    content is the [Readable] body with which the client of its bucket
    answers that command. *)
Theorem queued_content_was_served (finalizeRejects : option Thrown)
    (clientOrClients : ClientOrClients) (entries : list S3ArchiveStreamEntry)
    (b : Build) (schedule : list Tick) (a : Appended) :
  s3ArchiveStream finalizeRejects clientOrClients entries = inr b ->
  a ∈ queue (archive (run finalizeRejects schedule b)) ->
  GetObjectCommand (origin a) ∈ sent (run finalizeRejects schedule b) /\
  exists c,
    client clientOrClients (GetObjectCommandInput.Bucket (origin a)) = inr c /\
    Served c a.
Proof.
  intros Hb Ha.
  destruct (Recorded_s3ArchiveStream _ _ _ _ schedule Hb) as (_ & Hq & _).
  split; [by apply Hq|].
  destruct (Following_s3ArchiveStream _ _ _ _ schedule Hb) as (kvs & _ & HT & HQ & _).
  rewrite Forall_forall in HQ.
  pose proof (HQ a Ha) as (kv & Hkey & [i Hkv]%list_elem_of_lookup)%list_elem_of_fmap.
  destruct (Forall2_lookup_l _ _ _ _ _ HT Hkv) as (g & Hg & _ & Htr).
  assert (Hin : a ∈ fromBucket kv.1 (queue (archive (run finalizeRejects schedule b)))).
  { apply list_elem_of_filter. by split. }
  rewrite Hkey. destruct (client clientOrClients kv.1) as [e|c].
  - destruct Htr as (_ & _ & Hnil). rewrite Hnil in Hin. by apply elem_of_nil in Hin.
  - destruct Htr as (_ & outcomes & Hrun). exists c. split; [done|].
    apply (runGroup_Served c outcomes (appendArchiveEntries [kv.2])).
    by rewrite Hrun.
Qed.

(** ** The chain, once it has settled *)

Lemma run_app finalizeRejects schedule schedule' b :
  run finalizeRejects (schedule ++ schedule') b
  = run finalizeRejects schedule' (run finalizeRejects schedule b).
Proof. unfold run. by rewrite foldl_app. Qed.

(** X14. A rejection aborts for good. As soon as one group is rejected, the
    chain has caught the rejection of some rejected group, and from then on,
    however the other groups go on, the chain keeps that same error, the
    archive stays destroyed with it once and aborted once, and [finalize] is
    never called. *)
Theorem rejection_aborts_for_good (finalizeRejects : option Thrown)
    (clientOrClients : ClientOrClients) (entries : list S3ArchiveStreamEntry)
    (b : Build) (schedule : list Tick) (g : Group) (e : Thrown) :
  s3ArchiveStream finalizeRejects clientOrClients entries = inr b ->
  g ∈ groups (run finalizeRejects schedule b) ->
  promise g = Rejected e ->
  exists g0 e0,
    g0 ∈ groups (run finalizeRejects schedule b) /\
    promise g0 = Rejected e0 /\
    forall schedule',
      chain (run finalizeRejects (schedule ++ schedule') b) = Caught e0 /\
      destroyCalls (archive (run finalizeRejects (schedule ++ schedule') b)) = [e0] /\
      abortCalls (archive (run finalizeRejects (schedule ++ schedule') b)) = 1%nat /\
      finalizeCalls (archive (run finalizeRejects (schedule ++ schedule') b)) = 0%nat.
Proof.
  intros Hb Hg Hp. apply ChainInvariant_s3ArchiveStream in Hb.
  apply (ChainInvariant_run _ schedule) in Hb.
  set (b' := run finalizeRejects schedule b) in *.
  assert (Hnot : forallb isFulfilled (groups b') = true -> False).
  { intros Hall. apply (all_fulfilled _ g) in Hall; [congruence|done]. }
  unfold ChainInvariant in Hb. destruct (chain b') as [| |e0] eqn:Hc.
  - destruct Hb as (Hnil & _).
    assert (He : e ∈ omap isRejected (groups b')).
    { apply list_elem_of_omap. exists g. split; [done|]. by apply isRejected_Some. }
    rewrite Hnil in He. by apply elem_of_nil in He.
  - destruct Hb as (_ & Hall & _). by destruct Hnot.
  - destruct Hb as (Hd & Ha & [[(g0 & Hg0 & Hp0) Hf]|(_ & Hall & _)]);
      [|by destruct Hnot].
    exists g0, e0. split; [done|]. split; [done|]. intros schedule'.
    rewrite run_app. fold b'.
    destruct (settled_run finalizeRejects schedule' b') as (E1 & E2 & E3 & E4);
      [congruence|].
    rewrite E1, E2, E3, E4. done.
Qed.

(** ** Before any send settles *)

Lemma appendArchiveEntries_cons_Rejected e es callers err :
  appendArchiveEntries ((e :: es) :: callers) = Rejected err ->
  exists f, e = File f /\ invalidS3Key (FileEntry.s3Key f) = true /\
            err = InvalidS3KeyError (FileEntry.s3Key f).
Proof.
  destruct e as [f|d]; cbn [appendArchiveEntries]; [|done].
  destruct (invalidS3Key (FileEntry.s3Key f)) eqn:Hkey; [|done].
  intros [= <-]. by exists f.
Qed.

(** X15. What has happened when [s3ArchiveStream] returns, before any send
    settles: nothing is queued; [finalize] has been called exactly when the
    input is empty; a group that is already rejected lacks a client or was
    given, as the first entry of its bucket, a file entry whose key is
    refused; and no more commands have been sent than there are
    buckets. *)
Theorem before_any_send_settles (finalizeRejects : option Thrown)
    (clientOrClients : ClientOrClients) (entries : list S3ArchiveStreamEntry)
    (b : Build) :
  s3ArchiveStream finalizeRejects clientOrClients entries = inr b ->
  queue (archive b) = [] /\
  (finalizeCalls (archive b) = 1%nat <-> entries = []) /\
  (forall g e, g ∈ groups b -> promise g = Rejected e ->
     e = NoS3ClientProvidedForBucketError (bucket g) \/
     exists f rest,
       filter (fun e => s3BucketName e = bucket g) entries = File f :: rest /\
       invalidS3Key (FileEntry.s3Key f) = true /\
       e = InvalidS3KeyError (FileEntry.s3Key f)) /\
  (length (sent b) <= length (groups b))%nat.
Proof.
  intros Hb.
  pose proof (archive_finalized_or_aborted _ _ _ _ [] Hb) as (Hfin & _).
  cbn [run foldl] in Hfin. revert Hb Hfin. unfold s3ArchiveStream.
  destruct (groupedS3Buckets entries) as [err|grouped] eqn:Hgrouped; [done|].
  intros [= <-]. rewrite settle_queue, settle_groups, settle_sent.
  cbn [archive queue archiver groups sent]. intros Hfin. apply Grouped_Object_entries in Hgrouped.
  set (kvs := Object_entries grouped) in *.
  destruct Hgrouped as (_ & Hseen & Hacc).
  split; [done|]. split; [|split].
  - rewrite Hfin. split.
    + intros Hall. destruct entries as [|e entries]; [done|]. exfalso.
      assert (He : e ∈ e :: entries) by left.
      apply Hseen, list_elem_of_fmap in He as (kv & _ & Hkv).
      destruct (Hacc kv Hkv) as [_ Hne].
      assert (Hg : launch clientOrClients kv ∈ map (launch clientOrClients) kvs).
      { apply list_elem_of_fmap. by exists kv. }
      apply (all_fulfilled _ _ Hall) in Hg. revert Hg. unfold launch.
      destruct (client clientOrClients kv.1); cbn [promise]; [done|].
      destruct (kv.2) as [|[f|d] es]; [done|..]; cbn [appendArchiveEntries]; [|done].
      by destruct (invalidS3Key _).
    + intros ->. destruct kvs as [|kv kvs]; [done|].
      assert (Hkv : kv ∈ kv :: kvs) by left.
      destruct (Hacc kv Hkv) as [Hfilter Hne]. by rewrite filter_nil in Hfilter.
  - intros g e (kv & -> & Hkv)%list_elem_of_fmap. unfold launch.
    destruct (Hacc kv Hkv) as [Hfilter Hne].
    destruct (client clientOrClients kv.1) as [err|c] eqn:Hc; cbn [promise bucket].
    + intros [= <-]. left. unfold client in Hc.
      destruct clientOrClients as [c|m]; [done|].
      destruct (m !! kv.1); [done|]. by injection Hc as <-.
    + intros Hrej. right. rewrite <- Hfilter.
      destruct (kv.2) as [|e0 es]; [done|].
      apply appendArchiveEntries_cons_Rejected in Hrej as (f & -> & Hkey & ->).
      by exists f, es.
  - clear. induction (map (launch clientOrClients) kvs) as [|g gs IH]; [done|].
    cbn [flat_map]. rewrite length_app. cbn [length].
    destruct (promise g) as [[l|f] frames| |]; cbn [pendingCommand length]; lia.
Qed.

(** ** Listings *)

(** X16. A directory is listed to the end before any of it is archived. If
    the function, suspended on a listing, has queued anything after some
    sends, then the client served the pages of the listing to the last one,
    one send each, and everything queued was queued by the recursive call on
    the entries of all the pages; a listing that fails on any page leaves
    nothing of the directory in the archive. *)
Theorem directory_is_listed_before_it_is_archived (c : S3Client)
    (outcomes : list (option Thrown)) :
  forall (l : Listing) (frames : list (list S3ArchiveStreamEntry))
         (st : GroupState) (q : list Appended),
    runGroup c outcomes (Suspended (AwaitList l) frames) = (st, q) ->
    q <> [] ->
    exists outs,
      Pages c (DirEntry.s3BucketName (dir l)) (prefix (DirEntry.s3Dir (dir l)))
        (continuationToken l) outs /\
      runGroup c (drop (length outs) outcomes)
        (appendArchiveEntries
           ((directoryEntries l ++ concat (map (pageEntries (dir l)) outs))
            :: frames))
      = (st, q).
Proof.
  induction outcomes as [|o outcomes IH]; intros l frames st q.
  { cbn [runGroup]. by intros [= <- <-]. }
  rewrite runGroup_cons. cbn [stepGroup resume].
  destruct (sendListObjectsV2 c (listInput l)) as [e|out] eqn:Hsend.
  { cbn [fst snd]. rewrite runGroup_Rejected. by intros [= <- <-]. }
  destruct (isEmptyDirectory out) eqn:Hempty.
  { cbn [fst snd]. rewrite runGroup_Rejected. by intros [= <- <-]. }
  destruct (JS.truthy (ListObjectsV2CommandOutput.IsTruncated out)) eqn:Htr;
    cbn [fst snd app]; intros Hrun Hq.
  - destruct (runGroup c outcomes _) as [st' q'] eqn:Hrun'. cbn [fst snd] in Hrun.
    injection Hrun as -> ->.
    destruct (IH _ _ _ _ Hrun' Hq) as (outs & HP & Hrest).
    cbn [dir directoryEntries continuationToken] in *.
    exists (out :: outs). split; [by apply Pages_more|].
    cbn [length skipn map concat]. by rewrite app_assoc.
  - exists [out]. split; [by apply Pages_last|].
    cbn [length skipn map concat]. rewrite app_nil_r, skipn_0.
    cbn [directoryEntries] in Hrun.
    destruct (runGroup c outcomes _) as [st' q']. cbn [fst snd] in Hrun. congruence.
Qed.

(** X17. The pagination loop has no bound of its own. With a client that
    answers every request for the prefix, whatever the token, with a page
    that is truncated and does not pass the test of line 134, the function
    stays suspended on a listing after any number of sends: it is neither
    fulfilled nor rejected, queues nothing, and only accumulates entries. *)
Theorem endless_listing_never_settles (c : S3Client)
    (outcomes : list (option Thrown)) :
  forall (l : Listing) (frames : list (list S3ArchiveStreamEntry)),
    (forall token, exists out,
       sendListObjectsV2 c
         (ListObjectsV2CommandInput.mk (DirEntry.s3BucketName (dir l))
            (prefix (DirEntry.s3Dir (dir l))) token) = inr out /\
       isEmptyDirectory out = false /\
       JS.truthy (ListObjectsV2CommandOutput.IsTruncated out) = true) ->
    exists l',
      runGroup c outcomes (Suspended (AwaitList l) frames)
      = (Suspended (AwaitList l') frames, []) /\
      dir l' = dir l /\
      exists pushed, directoryEntries l' = directoryEntries l ++ pushed.
Proof.
  induction outcomes as [|o outcomes IH]; intros l frames Hever.
  { exists l. split; [done|]. split; [done|]. exists []. by rewrite app_nil_r. }
  rewrite runGroup_cons. cbn [stepGroup resume].
  destruct (Hever (continuationToken l)) as (out & Hsend & Hempty & Htr).
  change (ListObjectsV2CommandInput.mk _ _ _) with (listInput l) in Hsend.
  rewrite Hsend, Hempty, Htr. cbn [fst snd app].
  destruct (IH (mkListing (dir l)
                  (directoryEntries l ++ pageEntries (dir l) out)
                  (ListObjectsV2CommandOutput.NextContinuationToken out))
               frames) as (l' & Hrun & Hdir & pushed & Hpushed); [by cbn [dir]|].
  cbn [dir directoryEntries] in Hdir, Hpushed.
  exists l'. rewrite Hrun. cbn [fst snd app]. split; [done|]. split; [done|].
  exists (pageEntries (dir l) out ++ pushed).
  by rewrite Hpushed, app_assoc.
Qed.

(** ** One group per bucket *)

Lemma Tracks_buckets clientOrClients kvs q gs :
  Forall2 (fun kv g => Tracks clientOrClients kv q g) kvs gs ->
  map bucket gs = map fst kvs.
Proof.
  induction 1 as [|kv g kvs gs [Hb _] _ IH]; [done|].
  cbn [map]. by rewrite Hb, IH.
Qed.

(** X18. One group per bucket. After any schedule the groups of a build name
    distinct buckets, the buckets named are exactly those of the entries of
    the input, they are the groups the build started with, in the same
    order, and each holds the client that the routing gives for its bucket,
    or none. *)
Theorem one_group_per_bucket (finalizeRejects : option Thrown)
    (clientOrClients : ClientOrClients) (entries : list S3ArchiveStreamEntry)
    (b : Build) (schedule : list Tick) :
  s3ArchiveStream finalizeRejects clientOrClients entries = inr b ->
  NoDup (map bucket (groups (run finalizeRejects schedule b))) /\
  (forall name,
     name ∈ map bucket (groups (run finalizeRejects schedule b)) <->
     exists e, e ∈ entries /\ s3BucketName e = name) /\
  map bucket (groups (run finalizeRejects schedule b)) = map bucket (groups b) /\
  (forall g, g ∈ groups (run finalizeRejects schedule b) ->
     s3Client g = match client clientOrClients (bucket g) with
                  | inl _ => None
                  | inr c => Some c
                  end).
Proof.
  unfold s3ArchiveStream.
  destruct (groupedS3Buckets entries) as [err|grouped] eqn:Hgrouped; [done|].
  intros [= Hb]. apply Grouped_Object_entries in Hgrouped.
  set (kvs := Object_entries grouped) in *.
  pose proof Hgrouped as (Hnd & Hseen & Hacc).
  assert (Hin : forall kv, kv ∈ kvs -> EntriesIn kv.1 kv.2).
  { intros kv Hkv. by eapply Grouped_EntriesIn. }
  assert (HF : forall schedule, Following clientOrClients kvs
                                  (run finalizeRejects schedule b)).
  { intros s. rewrite <- Hb. apply Following_run; [done..|].
    by apply Following_settle, Following_launch. }
  destruct (HF schedule) as (HT & _). destruct (HF []) as (HT0 & _).
  cbn [run foldl] in HT0.
  rewrite (Tracks_buckets _ _ _ _ HT), (Tracks_buckets _ _ _ _ HT0).
  split; [done|]. split; [|split; [done|]].
  - intros name. split.
    + intros (kv & -> & Hkv)%list_elem_of_fmap.
      destruct (Hacc kv Hkv) as [Hfilter Hne].
      destruct (kv.2) as [|e es] eqn:Hes; [done|]. exists e.
      assert (He : e ∈ filter (fun e => s3BucketName e = kv.1) entries).
      { rewrite <- Hfilter. by left. }
      by apply list_elem_of_filter in He as [He1 He2].
    + intros (e & He & <-). by apply Hseen.
  - intros g [i Hg]%list_elem_of_lookup.
    destruct (Forall2_lookup_r _ _ _ _ _ HT Hg) as (kv & _ & Hbucket & Htr).
    rewrite Hbucket. destruct (client clientOrClients kv.1) as [err|c];
      by destruct Htr as (-> & _).
Qed.

(** ** The mocked client *)

Lemma startsWith_spec s t : JS.startsWith s t = true <-> exists r, s = t +:+ r.
Proof.
  revert s. induction t as [|b t IH]; intros s; cbn [JS.startsWith].
  - split; [|done]. intros _. exists s. by rewrite strcat_nil_l.
  - destruct s as [|a s].
    + split; [done|]. intros [r Hr]. by rewrite strcat_cons in Hr.
    + destruct (Ascii.eqb_spec a b) as [->|Hne].
      * rewrite IH. split; intros [r Hr]; exists r.
        -- by rewrite strcat_cons, Hr.
        -- rewrite strcat_cons in Hr. by injection Hr.
      * split; [done|]. intros [r Hr]. rewrite strcat_cons in Hr.
        by injection Hr.
Qed.

Lemma find_eqb (keys : list string) k :
  k ∈ keys -> List.find (fun f => String.eqb f k) keys = Some k.
Proof.
  induction 1 as [k keys|k k' keys _ IH]; cbn [List.find].
  - by rewrite String.eqb_refl.
  - destruct (String.eqb_spec k' k) as [->|_]; [done|exact IH].
Qed.

Lemma omap_listedKey_Some (ks : list string) :
  omap listedKey (map Some ks)
  = filter (fun k => k <> "" /\ JS.endsWith k "/" = false) ks.
Proof.
  rewrite listedKey_filter. f_equal.
  induction ks as [|k ks IH]; [done|]. cbn [map omap list_omap id].
  by rewrite IH.
Qed.

Section Mock.

Variable mockedBucket : gmap string (list string).
Variable d : DirEntry.t.
Variable keys : list string.
Hypothesis mocked : mockedBucket !! DirEntry.s3BucketName d = Some keys.

Lemma mocked_files ks callers :
  Forall (fun k => k ∈ keys /\ invalidS3Key k = false) ks ->
  runGroup (addS3MockCommands mockedBucket) (repeat None (length ks))
    (appendArchiveEntries (map (fun k => File (directoryEntry d k)) ks :: callers))
  = (appendArchiveEntries callers,
     map (fun k =>
            mkAppended (getInput (directoryEntry d k))
              ("./test/" +:+ DirEntry.s3BucketName d +:+ "/" +:+ k)
              (mkEntryData (archiveEntryName (directoryEntry d k))
                 (DirEntry.rest d)))
       ks).
Proof.
  induction 1 as [|k ks [Hk Hvalid] _ IH]; [done|].
  cbn [length repeat map appendArchiveEntries directoryEntry FileEntry.s3Key].
  rewrite Hvalid, runGroup_cons. cbn [stepGroup resume].
  cbn [addS3MockCommands sendGetObject getInput FileEntry.s3BucketName
         FileEntry.s3Key GetObjectCommandInput.Bucket GetObjectCommandInput.Key].
  unfold mockedKeys. cbn [directoryEntry FileEntry.s3BucketName FileEntry.s3Key].
  rewrite mocked. cbn [GetObjectCommandOutput.Body fst snd].
  rewrite (find_eqb keys k Hk). cbn [default].
  cbn [directoryEntry] in IH. rewrite IH. done.
Qed.

Lemma mocked_page :
  sendListObjectsV2 (addS3MockCommands mockedBucket)
    (ListObjectsV2CommandInput.mk (DirEntry.s3BucketName d)
       (prefix (DirEntry.s3Dir d)) None)
  = inr (ListObjectsV2CommandOutput.mk None None None
           (Some (map Some
                    (filter (fun f => JS.startsWith f (prefix (DirEntry.s3Dir d)) = true)
                       keys)))
           (Some false)).
Proof.
  cbn [addS3MockCommands sendListObjectsV2 ListObjectsV2CommandInput.Bucket
         ListObjectsV2CommandInput.Prefix].
  unfold mockedKeys. by rewrite mocked.
Qed.

End Mock.

(** X19. With the mocked client of the test suite, a directory entry of a
    mocked bucket is archived in one listing and one fetch per object: the
    objects fetched are the mocked keys that start with the prefix, are not
    empty and do not end with a separator, in the order of the bucket; each
    is queued with the read stream of its file and named by the key, or by
    the key without the prefix, which is then what follows the prefix in
    the key. A directory that matches no key is no error with this client,
    whose answer carries no [KeyCount]: nothing is queued for it. *)
Theorem mocked_directory_is_archived (mockedBucket : gmap string (list string))
    (d : DirEntry.t) (keys : list string) :
  mockedBucket !! DirEntry.s3BucketName d = Some keys ->
  let listed :=
    filter (fun k => (k <> "" /\ JS.endsWith k "/" = false) /\
                     JS.startsWith k (prefix (DirEntry.s3Dir d)) = true) keys in
  (exists q,
     runGroup (addS3MockCommands mockedBucket) (repeat None (1 + length listed))
       (appendArchiveEntries [[Dir d]])
     = (Fulfilled, q) /\
     map (fun a => (origin a, s3ObjectStream a, entryName (data a))) q
     = map (fun k =>
              (GetObjectCommandInput.mk (DirEntry.s3BucketName d) k,
               "./test/" +:+ DirEntry.s3BucketName d +:+ "/" +:+ k,
               if JS.truthy (DirEntry.preserveFolderStructure d) then k
               else JS.slice k (JS.length (prefix (DirEntry.s3Dir d)))))
         listed) /\
  (forall k, k ∈ listed ->
     prefix (DirEntry.s3Dir d)
     +:+ JS.slice k (JS.length (prefix (DirEntry.s3Dir d))) = k).
Proof.
  intros Hm listed. split.
  - pose proof (mocked_page mockedBucket d keys Hm) as Hpage.
    set (out := ListObjectsV2CommandOutput.mk _ _ _ _ _) in Hpage.
    assert (HP : Pages (addS3MockCommands mockedBucket) (DirEntry.s3BucketName d)
                   (prefix (DirEntry.s3Dir d)) None [out]).
    { by apply Pages_last. }
    assert (Hentries : pageEntries d out
                       = map (fun k => File (directoryEntry d k)) listed).
    { unfold pageEntries. subst out.
      cbn [ListObjectsV2CommandOutput.Contents default from_option id].
      rewrite omap_listedKey_Some. unfold listed. by rewrite list_filter_filter. }
    eexists. rewrite repeat_app, runGroup_app. cbn [appendArchiveEntries].
    rewrite (runGroup_listing _ (mkListing d [] None) [out]) by done.
    cbn [fst snd directoryEntries dir app map concat].
    rewrite app_nil_r, Hentries.
    rewrite (mocked_files mockedBucket d keys Hm).
    + cbn [fst snd appendArchiveEntries]. split; [done|].
      rewrite map_map. apply map_ext. intros k.
      cbn [origin s3ObjectStream data entryName getInput directoryEntry
             FileEntry.s3BucketName FileEntry.s3Key archiveEntryName FileEntry.name].
      done.
    + apply Forall_forall. intros k Hk. unfold listed in Hk.
      apply list_elem_of_filter in Hk as [[[Hne Hend] _] Hk]. split; [done|].
      unfold invalidS3Key. rewrite Hend.
      by destruct (String.eqb_spec k "").
  - intros k Hk. unfold listed in Hk.
    apply list_elem_of_filter in Hk as [[_ [r ->]%startsWith_spec] _].
    by rewrite slice_length_strcat.
Qed.

Lemma mocked_directory_is_archived_witness :
  exists q,
    runGroup (addS3MockCommands mockS3Bucket) (repeat None 4)
      (appendArchiveEntries [[Dir (dirEntry "mockedBucket1" "folder1/folder2")]])
    = (Fulfilled, q) /\
    map (fun a => (origin a, s3ObjectStream a, entryName (data a))) q
    = [ (GetObjectCommandInput.mk "mockedBucket1" "folder1/folder2/folder3/file1.txt",
         "./test/mockedBucket1/folder1/folder2/folder3/file1.txt",
         "folder3/file1.txt");
        (GetObjectCommandInput.mk "mockedBucket1" "folder1/folder2/folder3/file2.txt",
         "./test/mockedBucket1/folder1/folder2/folder3/file2.txt",
         "folder3/file2.txt");
        (GetObjectCommandInput.mk "mockedBucket1" "folder1/folder2/folder3/file3.txt",
         "./test/mockedBucket1/folder1/folder2/folder3/file3.txt",
         "folder3/file3.txt") ].
Proof.
  destruct (mocked_directory_is_archived mockS3Bucket
              (dirEntry "mockedBucket1" "folder1/folder2")
              [ "folder1/folder2/folder3/file1.txt";
                "folder1/folder2/folder3/file2.txt";
                "folder1/folder2/folder3/file3.txt";
                "test_file1.txt"; "test_file2.txt"; "test_file3.txt";
                "test_file4.txt" ])
    as [(q & Hrun & Hq) _].
  - vm_compute; reflexivity.
  - exists q. split; [exact Hrun|exact Hq].
Defined.

(** ** The earlier [s3StreamArchive] *)

Section Legacy.

Import S3StreamArchive.

Lemma legacy_runGroup_Rejected c outcomes e :
  runGroup c outcomes (Rejected e) = (Rejected e, []).
Proof. induction outcomes as [|o os IH]; [done|]. cbn. by rewrite IH. Qed.

Lemma legacy_runGroup_cons c o outcomes st :
  runGroup c (o :: outcomes) st
  = ((runGroup c outcomes (stepGroup c st o).1).1,
     (stepGroup c st o).2 ++ (runGroup c outcomes (stepGroup c st o).1).2).
Proof.
  cbn [runGroup]. destruct (stepGroup c st o) as [st' q]. cbn [fst snd].
  by destruct (runGroup c outcomes st') as [st'' q'].
Qed.

Lemma legacy_listedEntry a (Keys : list (option string)) :
  omap (listedEntry a) Keys
  = map (fun k =>
           FileEntry.mk
             (Some (if JS.truthy (FileEntry.preserveFolderStructure a) then k
                    else JS.slice k (JS.length (FileEntry.s3Key a))))
             (FileEntry.s3BucketName a) k
             (FileEntry.preserveFolderStructure a) (FileEntry.rest a))
      (filter (fun k => JS.endsWith k "/" = false) (omap id Keys)).
Proof.
  induction Keys as [|[k|] Keys IH]; [done| |done].
  cbn [omap list_omap id]. rewrite filter_cons. unfold listedEntry at 1.
  destruct (JS.endsWith k "/") eqn:E; cbn [negb].
  - rewrite decide_False by done. exact IH.
  - rewrite decide_True by done. cbn [map]. f_equal. exact IH.
Qed.

Lemma legacy_runGroup_listing c l outs frames outcomes :
  Pages c (FileEntry.s3BucketName (archiveEntry l)) (FileEntry.s3Key (archiveEntry l))
    (continuationToken l) outs ->
  length outcomes = length outs ->
  runGroup c outcomes (Suspended (AwaitList l) frames)
  = (appendArchiveEntries
       ((directoryEntries l
         ++ omap (listedEntry (archiveEntry l))
              (concat (map (fun out =>
                              default [] (ListObjectsV2CommandOutput.Contents out))
                         outs)))
        :: frames),
     []).
Proof.
  intros HP. revert l outcomes HP.
  induction outs as [|out outs IH]; intros l outcomes HP Hlen; [inversion HP|].
  destruct outcomes as [|o outcomes]; [done|]. injection Hlen as Hlen.
  rewrite legacy_runGroup_cons. cbn [stepGroup resume].
  inversion HP as [token out' Hsend Htr|token out' outs' Hsend Htr HP'];
    subst; unfold listInput; rewrite Hsend, Htr; cbn [fst snd directoryEntries].
  - destruct outcomes; [|by simpl in Hlen].
    cbn [runGroup map concat fst snd app]. by rewrite app_nil_r.
  - rewrite IH by done.
    cbn [fst snd archiveEntry directoryEntries map concat].
    by rewrite omap_app, <- app_assoc.
Qed.

(** X20. In the earlier [s3StreamArchive] an entry whose key ends with a
    separator is a directory: its key is sent unchanged as the prefix of
    the listing, the loop takes one settled send per page, no page is an
    error, and the function is then called on one entry for every listed
    key that is present and does not end with a separator, the empty key
    included, each named by the key or by the key without its first
    characters, as many as the directory key has. Each of these entries is
    then fetched under its key as it is. *)
Theorem legacy_directory_expansion (c : S3Client) (a : ArchiveEntry)
    (archiveEntries : list ArchiveEntry) (callers : list (list ArchiveEntry))
    (outs : list ListObjectsV2CommandOutput.t) (outcomes : list (option Thrown)) :
  JS.endsWith (FileEntry.s3Key a) "/" = true ->
  Pages c (FileEntry.s3BucketName a) (FileEntry.s3Key a) None outs ->
  length outcomes = length outs ->
  pendingCommand (appendArchiveEntries ((a :: archiveEntries) :: callers))
  = [ListObjectsV2Command
       (ListObjectsV2CommandInput.mk (FileEntry.s3BucketName a) (FileEntry.s3Key a)
          None)] /\
  runGroup c outcomes (appendArchiveEntries ((a :: archiveEntries) :: callers))
  = (appendArchiveEntries
       (map (fun k =>
               FileEntry.mk
                 (Some (if JS.truthy (FileEntry.preserveFolderStructure a) then k
                        else JS.slice k (JS.length (FileEntry.s3Key a))))
                 (FileEntry.s3BucketName a) k
                 (FileEntry.preserveFolderStructure a) (FileEntry.rest a))
          (archivedKeys outs)
        :: archiveEntries :: callers),
     []) /\
  (forall k, k ∈ archivedKeys outs ->
     pendingCommand
       (appendArchiveEntries
          [[FileEntry.mk
              (Some (if JS.truthy (FileEntry.preserveFolderStructure a) then k
                     else JS.slice k (JS.length (FileEntry.s3Key a))))
              (FileEntry.s3BucketName a) k
              (FileEntry.preserveFolderStructure a) (FileEntry.rest a)]])
     = [GetObjectCommand (GetObjectCommandInput.mk (FileEntry.s3BucketName a) k)]).
Proof.
  intros Hdir HP Hlen. cbn [appendArchiveEntries]. rewrite Hdir.
  split; [done|]. split.
  - rewrite (legacy_runGroup_listing c (mkListing a [] None) outs) by done.
    cbn [directoryEntries archiveEntry app]. by rewrite legacy_listedEntry.
  - intros k [Hend _]%list_elem_of_filter. cbn [FileEntry.s3Key]. by rewrite Hend.
Qed.

Lemma legacy_directory_expansion_witness :
  runGroup twoPageClient [None; None]
    (appendArchiveEntries [[fileEntry "bucket" "dir/"]])
  = (appendArchiveEntries
       [map (fun k =>
               FileEntry.mk (Some (JS.slice k (JS.length "dir/"))) "bucket" k None
                 noMetadata)
          (archivedKeys twoPages); []],
     []).
Proof.
  apply (legacy_directory_expansion twoPageClient (fileEntry "bucket" "dir/")
           [] [] twoPages [None; None]).
  - reflexivity.
  - apply Pages_more; [reflexivity..|]. apply Pages_last; reflexivity.
  - reflexivity.
Defined.

(** *** The callback of [map] *)

Lemma legacy_mapGroups_inl clientOrClients kvs e started :
  mapGroups clientOrClients kvs = inl (e, started) ->
  exists kv err,
    kv ∈ kvs /\ e = NoS3ClientProvidedForBucketError kv.1 /\
    client clientOrClients kv.1 = inl err.
Proof.
  revert started. induction kvs as [|kv kvs IH]; intros started; [done|].
  cbn [mapGroups]. destruct (client clientOrClients kv.1) as [err|c] eqn:Hc.
  - intros [= <- <-]. exists kv, err. split; [left|done].
  - destruct (mapGroups clientOrClients kvs) as [[e' started']|gs]; [|done].
    intros [= <- <-]. destruct (IH started' eq_refl) as (kv' & err & Hkv & He & Herr).
    exists kv', err. split; [by right|done].
Qed.

Lemma legacy_mapGroups_inr clientOrClients kvs gs :
  mapGroups clientOrClients kvs = inr gs ->
  Forall (fun kv => exists c, client clientOrClients kv.1 = inr c) kvs.
Proof.
  revert gs. induction kvs as [|kv kvs IH]; intros gs; [by constructor|].
  cbn [mapGroups]. destruct (client clientOrClients kv.1) as [err|c] eqn:Hc; [done|].
  destruct (mapGroups clientOrClients kvs) as [[e' started']|gs']; [done|].
  intros _. constructor; [by exists c|by eapply IH].
Qed.

Lemma legacy_groups_keys entries kvs :
  groups entries = inr kvs ->
  (forall a, a ∈ entries -> FileEntry.s3BucketName a ∈ map fst kvs) /\
  (forall kv, kv ∈ kvs -> exists a, a ∈ entries /\ FileEntry.s3BucketName a = kv.1).
Proof.
  unfold groups.
  destruct (groupedS3Buckets (map File entries)) as [e|grouped] eqn:Hg; [done|].
  intros [= <-]. apply Grouped_groupedS3Buckets in Hg as (_ & Hseen & Hacc).
  rewrite map_map. cbn [fst]. split.
  - intros a Ha. apply (Hseen (File a)). apply list_elem_of_fmap. by exists a.
  - intros kv' (kv & -> & Hkv)%list_elem_of_fmap. cbn [fst].
    destruct (Hacc kv Hkv) as [Hfilter Hne].
    destruct (kv.2) as [|e es] eqn:Hes; [done|].
    assert (He : e ∈ filter (fun e => s3BucketName e = kv.1) (map File entries)).
    { rewrite <- Hfilter. by left. }
    apply list_elem_of_filter in He as [Hb (a & -> & Ha)%list_elem_of_fmap].
    by exists a.
Qed.

(** X21. In the earlier [s3StreamArchive] a missing client is thrown out of
    the function. With no bucket named like a member of [Object.prototype],
    the function returns the archive exactly when every entry names a
    bucket that has a client; otherwise it throws
    [NoS3ClientProvidedForBucketError] for the bucket of some entry that
    has none, and the caller gets no archive. *)
Theorem legacy_missing_client_throws (finalizeRejects : option Thrown)
    (clientOrClients : ClientOrClients) (entries : list ArchiveEntry) :
  Forall (fun a => FileEntry.s3BucketName a ∉ inheritedProperties) entries ->
  (forall e cmds,
     s3StreamArchive finalizeRejects clientOrClients entries = inr (inl (e, cmds)) ->
     exists a err,
       a ∈ entries /\ e = NoS3ClientProvidedForBucketError (FileEntry.s3BucketName a) /\
       client clientOrClients (FileEntry.s3BucketName a) = inl err) /\
  ((exists b, s3StreamArchive finalizeRejects clientOrClients entries = inr (inr b))
   <-> Forall (fun a => exists c,
                 client clientOrClients (FileEntry.s3BucketName a) = inr c) entries) /\
  ((exists e cmds,
      s3StreamArchive finalizeRejects clientOrClients entries = inr (inl (e, cmds)))
   <-> Exists (fun a => exists err,
                 client clientOrClients (FileEntry.s3BucketName a) = inl err) entries).
Proof.
  intros Hown. unfold s3StreamArchive.
  destruct (groups entries) as [e|kvs] eqn:Hgroups.
  { exfalso. revert Hgroups. unfold groups, groupedS3Buckets.
    destruct (reduce_returns (map File entries) []) as [grouped ->]; [|done].
    apply Forall_fmap. eapply Forall_impl; [exact Hown|]. by intros a. }
  destruct (legacy_groups_keys entries kvs Hgroups) as [Hseen Hkeys].
  assert (Hperm : forall kv, kv ∈ Object_entries kvs <-> kv ∈ kvs).
  { intros kv. by rewrite Object_entries_Permutation. }
  split.
  - intros e cmds.
    destruct (mapGroups clientOrClients (Object_entries kvs)) as [[e' started]|gs] eqn:Hmap;
      [|done].
    intros [= <- <-].
    apply legacy_mapGroups_inl in Hmap as (kv & err & Hkv%Hperm & -> & Herr).
    destruct (Hkeys kv Hkv) as (a & Ha & Hb). exists a, err. by rewrite Hb.
  - destruct (mapGroups clientOrClients (Object_entries kvs)) as [[e' started]|gs] eqn:Hmap.
    + pose proof Hmap as (kv & err & Hkv%Hperm & _ & Herr)%legacy_mapGroups_inl.
      destruct (Hkeys kv Hkv) as (a & Ha & Hb). split; split.
      * by intros [b Hb'].
      * intros Hall. rewrite Forall_forall in Hall.
        destruct (Hall a Ha) as [c Hc]. congruence.
      * intros _. apply Exists_exists. exists a. split; [done|].
        exists err. by rewrite Hb.
      * intros _. by eexists _, _.
    + apply legacy_mapGroups_inr in Hmap. rewrite Forall_forall in Hmap.
      assert (Hall : forall a, a ∈ entries ->
                exists c, client clientOrClients (FileEntry.s3BucketName a) = inr c).
      { intros a Ha.
        apply Hseen, list_elem_of_fmap in Ha as (kv & -> & Hkv). by apply Hmap, Hperm. }
      split; split.
      * intros _. by apply Forall_forall.
      * intros _. by eexists.
      * by intros (e & cmds & H).
      * intros (a & Ha & err & Herr)%Exists_exists.
        destruct (Hall a Ha) as [c Hc]. congruence.
Qed.

Lemma legacy_missing_client_throws_witness :
  s3StreamArchive None (ClientRecord bucketA)
    [fileEntry "bucket-a" "a.txt"; fileEntry "bucket-b" "b.txt"]
  = inr (inl (NoS3ClientProvidedForBucketError "bucket-b",
              [GetObjectCommand (GetObjectCommandInput.mk "bucket-a" "a.txt")])) /\
  exists a err,
    a ∈ [fileEntry "bucket-a" "a.txt"; fileEntry "bucket-b" "b.txt"] /\
    NoS3ClientProvidedForBucketError "bucket-b"
    = NoS3ClientProvidedForBucketError (FileEntry.s3BucketName a) /\
    client (ClientRecord bucketA) (FileEntry.s3BucketName a) = inl err.
Proof.
  split; [vm_compute; reflexivity|].
  assert (Hown : Forall (fun a => FileEntry.s3BucketName a ∉ inheritedProperties)
                   [fileEntry "bucket-a" "a.txt"; fileEntry "bucket-b" "b.txt"]).
  { repeat constructor; apply (bool_decide_unpack _); vm_compute; exact I. }
  apply (proj1 (legacy_missing_client_throws None (ClientRecord bucketA)
                  [fileEntry "bucket-a" "a.txt"; fileEntry "bucket-b" "b.txt"] Hown)
           (NoS3ClientProvidedForBucketError "bucket-b")
           [GetObjectCommand (GetObjectCommandInput.mk "bucket-a" "a.txt")]).
  vm_compute; reflexivity.
Defined.

(** *** The chain *)

Section LegacyChain.

Variable finalizeRejects : option Thrown.

Lemma legacy_settle_groups b :
  builtGroups (settle finalizeRejects b) = builtGroups b.
Proof.
  unfold settle. destruct (chain b); [|done..].
  destruct (head _); [done|]. by destruct (forallb _ _).
Qed.

Lemma legacy_settle_settled b : chain b <> Pending -> settle finalizeRejects b = b.
Proof. unfold settle. by destruct (chain b). Qed.

Lemma legacy_isRejected_Some g e : isRejected g = Some e <-> promise g = Rejected e.
Proof.
  unfold isRejected. destruct (promise g); split; try done; by intros [= ->].
Qed.

Lemma legacy_all_fulfilled gs g :
  forallb isFulfilled gs = true -> g ∈ gs -> promise g = Fulfilled.
Proof.
  rewrite forallb_forall. intros H Hg%list_elem_of_In. apply H in Hg.
  unfold isFulfilled in Hg. by destruct (promise g).
Qed.

Lemma legacy_ChainInvariant_settle b :
  chain b = Pending -> finalizeCalls b = 0%nat ->
  ChainInvariant finalizeRejects (settle finalizeRejects b).
Proof.
  intros Hc Hf. unfold settle, ChainInvariant. rewrite Hc.
  destruct (omap isRejected (builtGroups b)) as [|e es] eqn:Hrej; cbn [head].
  - destruct (forallb isFulfilled (builtGroups b)) eqn:Hall.
    + destruct finalizeRejects as [code|]; cbn; by rewrite ?Hf.
    + by rewrite Hc.
  - cbn. split; [|done].
    assert (He : e ∈ omap isRejected (builtGroups b)) by (rewrite Hrej; left).
    apply list_elem_of_omap in He as (g & Hg & He). exists g.
    split; [done|]. by apply legacy_isRejected_Some.
Qed.

Lemma legacy_ChainInvariant_tick b t :
  ChainInvariant finalizeRejects b ->
  ChainInvariant finalizeRejects (tick finalizeRejects b t).
Proof.
  intros HI. unfold tick.
  destruct (builtGroups b !! group t) as [g|] eqn:Hj; [|done].
  destruct (promise g) as [a frames| |] eqn:Hp; [|done..].
  destruct (resume (s3Client g) a frames (appendThrows t)) as [st q].
  assert (Hnot : forallb isFulfilled (builtGroups b) = false).
  { apply not_true_is_false. intros Hall.
    apply (legacy_all_fulfilled _ g) in Hall; [congruence|].
    by eapply list_elem_of_lookup_2. }
  unfold ChainInvariant in HI. destruct (chain b) as [| |[e|e]] eqn:Hc.
  - destruct HI as (_ & _ & Hf). by apply legacy_ChainInvariant_settle.
  - destruct HI as (_ & Hall & _). congruence.
  - destruct HI as (_ & Hall & _). congruence.
  - rewrite legacy_settle_settled by (cbn; congruence).
    unfold ChainInvariant. cbn [chain builtGroups finalizeCalls].
    destruct HI as [(g' & Hg' & Hp') Hf]. split; [|done].
    exists g'. split; [|done].
    apply list_elem_of_lookup in Hg' as [i Hi].
    apply list_elem_of_lookup. exists i.
    rewrite list_lookup_insert_ne; [done|]. intros <-. congruence.
Qed.

Lemma legacy_ChainInvariant_run schedule b :
  ChainInvariant finalizeRejects b ->
  ChainInvariant finalizeRejects (run finalizeRejects schedule b).
Proof.
  revert b. induction schedule as [|t schedule IH]; intros b HI; [done|].
  cbn [run foldl]. apply IH. by apply legacy_ChainInvariant_tick.
Qed.

Lemma legacy_settled_run schedule b :
  chain b <> Pending ->
  chain (run finalizeRejects schedule b) = chain b /\
  finalizeCalls (run finalizeRejects schedule b) = finalizeCalls b.
Proof.
  revert b. induction schedule as [|t schedule IH]; intros b Hc; [done|].
  cbn [run foldl].
  assert (E : tick finalizeRejects b t = b
              \/ chain (tick finalizeRejects b t) = chain b /\
                 finalizeCalls (tick finalizeRejects b t) = finalizeCalls b).
  { unfold tick. destruct (builtGroups b !! group t) as [g|]; [|by left].
    destruct (promise g) as [a frames| |]; [|by left..].
    destruct (resume (s3Client g) a frames (appendThrows t)) as [st q].
    right. by rewrite legacy_settle_settled. }
  destruct E as [->|[E1 E2]]; [by apply IH|].
  destruct (IH (tick finalizeRejects b t)) as [F1 F2]; [congruence|].
  unfold run in *. split; congruence.
Qed.

End LegacyChain.

(** X22. In the earlier [s3StreamArchive] a failure leaves the archive open.
    After any schedule [finalize] has been called at most once, and exactly
    when every group is fulfilled; once a group is rejected the chain ends
    in a rejection nobody handles, that of some rejected group, and
    whatever happens later [finalize] is never called. *)
Theorem legacy_failure_leaves_archive_open (finalizeRejects : option Thrown)
    (clientOrClients : ClientOrClients) (entries : list ArchiveEntry)
    (b : Build) (schedule : list Tick) :
  s3StreamArchive finalizeRejects clientOrClients entries = inr (inr b) ->
  (finalizeCalls (run finalizeRejects schedule b) = 1%nat
   <-> forallb isFulfilled (builtGroups (run finalizeRejects schedule b)) = true) /\
  (finalizeCalls (run finalizeRejects schedule b) <= 1)%nat /\
  (forall g e,
     g ∈ builtGroups (run finalizeRejects schedule b) -> promise g = Rejected e ->
     exists g0 e0,
       g0 ∈ builtGroups (run finalizeRejects schedule b) /\
       promise g0 = Rejected e0 /\
       forall schedule',
         chain (run finalizeRejects (schedule ++ schedule') b) = Unhandled (inr e0) /\
         finalizeCalls (run finalizeRejects (schedule ++ schedule') b) = 0%nat).
Proof.
  intros Hb.
  assert (HI : ChainInvariant finalizeRejects (run finalizeRejects schedule b)).
  { apply legacy_ChainInvariant_run. revert Hb. unfold s3StreamArchive.
    destruct (groups entries) as [e|kvs]; [done|].
    destruct (mapGroups clientOrClients (Object_entries kvs)) as [[e started]|gs];
      [done|].
    intros [= <-]. by apply legacy_ChainInvariant_settle. }
  set (b' := run finalizeRejects schedule b) in *.
  assert (Hrej : forall g e, g ∈ builtGroups b' -> promise g = Rejected e ->
                             forallb isFulfilled (builtGroups b') = false).
  { intros g e Hg Hp. apply not_true_is_false. intros Hall.
    apply (legacy_all_fulfilled _ g) in Hall; [congruence|done]. }
  unfold ChainInvariant in HI. destruct (chain b') as [| |[e0|e0]] eqn:Hc.
  - destruct HI as (Hnil & Hall & Hf). rewrite Hf, Hall.
    split; [done|]. split; [lia|]. intros g e Hg Hp.
    assert (He : e ∈ omap isRejected (builtGroups b')).
    { apply list_elem_of_omap. exists g. split; [done|].
      by apply legacy_isRejected_Some. }
    rewrite Hnil in He. by apply elem_of_nil in He.
  - destruct HI as (_ & Hall & Hf). rewrite Hf, Hall.
    split; [done|]. split; [lia|]. intros g e Hg Hp.
    rewrite (Hrej g e Hg Hp) in Hall. done.
  - destruct HI as (_ & Hall & Hf). rewrite Hf, Hall.
    split; [done|]. split; [lia|]. intros g e Hg Hp.
    rewrite (Hrej g e Hg Hp) in Hall. done.
  - destruct HI as [(g0 & Hg0 & Hp0) Hf]. rewrite Hf, (Hrej g0 e0 Hg0 Hp0).
    split; [done|]. split; [lia|]. intros g e Hg Hp.
    exists g0, e0. split; [done|]. split; [done|]. intros schedule'.
    unfold run. rewrite foldl_app. fold (run finalizeRejects schedule b).
    fold (run finalizeRejects schedule' (run finalizeRejects schedule b)).
    fold b'. destruct (legacy_settled_run finalizeRejects schedule' b') as [E1 E2];
      [congruence|].
    by rewrite E1, E2, Hc.
Qed.

Lemma legacy_failure_leaves_archive_open_witness :
  exists b g0 e0,
    s3StreamArchive None (OneClient accessDeniedClient)
      [fileEntry "bucket" "a.txt"] = inr (inr b) /\
    g0 ∈ builtGroups (run None [mkTick 0 None] b) /\
    promise g0 = Rejected e0 /\
    forall schedule',
      chain (run None ([mkTick 0 None] ++ schedule') b) = Unhandled (inr e0) /\
      finalizeCalls (run None ([mkTick 0 None] ++ schedule') b) = 0%nat.
Proof.
  eexists.
  edestruct legacy_failure_leaves_archive_open
    with (finalizeRejects := @None Thrown)
         (clientOrClients := OneClient accessDeniedClient)
         (entries := [fileEntry "bucket" "a.txt"])
         (schedule := [mkTick 0 None])
    as (_ & _ & H).
  - vm_compute; reflexivity.
  - edestruct H as (g0 & e0 & Hg0 & Hp0 & Hlater).
    + vm_compute. left.
    + vm_compute; reflexivity.
    + exists g0, e0. split; [vm_compute; reflexivity|].
      split; [exact Hg0|]. split; [exact Hp0|exact Hlater].
Defined.

End Legacy.

(** ** What the chain catches at launch *)






(** ** More examples *)

Lemma computed_names_are_not_empty_witness :
  archiveEntryName (fileEntry "bucket" "a/b.txt") <> "" /\
  archiveEntryName (directoryEntry (dirEntry "bucket" "dir") "dir/x.txt") <> "".
Proof.
  split.
  - apply (proj1 computed_names_are_not_empty); reflexivity.
  - apply (proj2 computed_names_are_not_empty (dirEntry "bucket" "dir") "x.txt").
    reflexivity.
Defined.

Lemma prefix_idempotent_witness : "dir/x.txt" <> prefix "dir".
Proof.
  apply (proj2 (prefix_idempotent "dir") "dir/x.txt"). reflexivity.
Defined.

Lemma group_runs_on_its_own_witness :
  exists b g,
    s3ArchiveStream None (OneClient twoPageClient) twoBuckets = inr b /\
    groups (run None interleaved b) !! 0%nat = Some g /\
    runGroup twoPageClient (outcomesOf 0 interleaved)
      (appendArchiveEntries
         [filter (fun e => s3BucketName e = bucket g) twoBuckets])
    = (promise g, fromBucket (bucket g) (queue (archive (run None interleaved b)))).
Proof.
  eexists. eexists. split; [vm_compute; reflexivity|].
  split; [vm_compute; reflexivity|].
  apply (group_runs_on_its_own None (OneClient twoPageClient) twoBuckets _
           interleaved 0 _ twoPageClient); vm_compute; reflexivity.
Defined.

Lemma fulfilled_group_is_schedule_independent_witness :
  exists b g1 g2,
    s3ArchiveStream None (OneClient twoPageClient) twoBuckets = inr b /\
    groups (run None interleaved b) !! 0%nat = Some g1 /\
    groups (run None (rev interleaved) b) !! 0%nat = Some g2 /\
    bucket g1 = bucket g2 /\
    fromBucket (bucket g1) (queue (archive (run None interleaved b)))
    = fromBucket (bucket g1) (queue (archive (run None (rev interleaved) b))).
Proof.
  eexists. eexists. eexists. split; [vm_compute; reflexivity|].
  split; [vm_compute; reflexivity|]. split; [vm_compute; reflexivity|].
  apply (fulfilled_group_is_schedule_independent None None
           (OneClient twoPageClient) twoBuckets _ _ interleaved (rev interleaved)
           0 _ _); vm_compute; reflexivity.
Defined.

Lemma finalized_archive_holds_every_entry_witness :
  exists b,
    s3ArchiveStream None (OneClient twoPageClient) twoBuckets = inr b /\
    finalizeCalls (archive (run None interleaved b)) = 1%nat /\
    forall a, a ∈ queue (archive (run None interleaved b)) ->
      exists e c fs f,
        e ∈ twoBuckets /\ client (OneClient twoPageClient) (s3BucketName e) = inr c /\
        Resolves c e fs /\ f ∈ fs /\ appendedAs f = (origin a, data a).
Proof.
  eexists. split; [vm_compute; reflexivity|]. split; [vm_compute; reflexivity|].
  apply (finalized_archive_holds_every_entry None (OneClient twoPageClient)
           twoBuckets _ interleaved); vm_compute; reflexivity.
Defined.

Lemma Fetchable_twoFiles : Forall (Fetchable twoPageClient) twoFiles.
Proof. repeat constructor; by eexists _, _. Qed.

Lemma resolvable_group_is_fulfilled_witness :
  exists n q,
    (forall m, (n <= m)%nat ->
       runGroup twoPageClient (repeat None m)
         (appendArchiveEntries [map File twoFiles]) = (Fulfilled, q)) /\
    map (fun a => (origin a, data a)) q
    = map appendedAs
        (concat [[fileEntry "bucket" "k/one.txt"]; [fileEntry "bucket" "two.txt"]]).
Proof.
  apply (resolvable_group_is_fulfilled twoPageClient (map File twoFiles)
           [[fileEntry "bucket" "k/one.txt"]; [fileEntry "bucket" "two.txt"]]).
  - repeat constructor.
  - exact Fetchable_twoFiles.
Defined.

Lemma resolvable_entries_are_archived_witness :
  exists b n,
    s3ArchiveStream None (OneClient twoPageClient) (map File twoFiles) = inr b /\
    forall schedule,
      Forall (fun t => appendThrows t = None) schedule ->
      (forall i, (i < length (groups b))%nat ->
                 (n <= length (outcomesOf i schedule))%nat) ->
      finalizeCalls (archive (run None schedule b)) = 1%nat /\
      chain (run None schedule b) = Finalized.
Proof.
  eexists.
  edestruct (resolvable_entries_are_archived None (OneClient twoPageClient)
               (map File twoFiles)) as [n Hn].
  - vm_compute; reflexivity.
  - intros e [f [-> Hf]]%list_elem_of_fmap. exists twoPageClient, [f].
    split; [reflexivity|]. split; [constructor|].
    pose proof Fetchable_twoFiles as HF. rewrite Forall_forall in HF.
    constructor; [by apply HF|constructor].
  - exists n. split; [vm_compute; reflexivity|exact Hn].
Defined.

Lemma rejection_aborts_for_good_witness :
  exists b g0 e0,
    s3ArchiveStream None (ClientRecord bucketA) twoBuckets = inr b /\
    g0 ∈ groups (run None [mkTick 0 None] b) /\
    promise g0 = Rejected e0 /\
    forall schedule',
      chain (run None ([mkTick 0 None] ++ schedule') b) = Caught e0 /\
      destroyCalls (archive (run None ([mkTick 0 None] ++ schedule') b)) = [e0] /\
      abortCalls (archive (run None ([mkTick 0 None] ++ schedule') b)) = 1%nat /\
      finalizeCalls (archive (run None ([mkTick 0 None] ++ schedule') b)) = 0%nat.
Proof.
  eexists.
  edestruct rejection_aborts_for_good
    with (finalizeRejects := @None Thrown) (clientOrClients := ClientRecord bucketA)
         (entries := twoBuckets) (schedule := [mkTick 0 None])
         (g := mkGroup "bucket-b" None
                 (Rejected (NoS3ClientProvidedForBucketError "bucket-b")))
    as (g0 & e0 & Hg0 & Hp0 & H).
  - vm_compute; reflexivity.
  - vm_compute. right. left.
  - reflexivity.
  - exists g0, e0. split; [vm_compute; reflexivity|].
    split; [exact Hg0|]. split; [exact Hp0|exact H].
Defined.

Lemma group_rejections_witness :
  exists b,
    s3ArchiveStream None (OneClient emptyFirstPageClient)
      [Dir (dirEntry "bucket" "dir")] = inr b /\
    GroupError
      (filter (fun e => s3BucketName e = "bucket") [Dir (dirEntry "bucket" "dir")])
      (FailedToListObjectsError "dir/" emptyDirectoryError).
Proof.
  eexists. split; [vm_compute; reflexivity|].
  edestruct group_rejections
    with (finalizeRejects := @None Thrown)
         (clientOrClients := OneClient emptyFirstPageClient)
         (entries := [Dir (dirEntry "bucket" "dir")]) (schedule := [mkTick 0 None])
         (g := mkGroup "bucket" (Some emptyFirstPageClient)
                 (Rejected (FailedToListObjectsError "dir/" emptyDirectoryError)))
    as [[_ (m & Hm & _)]|H].
  - vm_compute; reflexivity.
  - vm_compute. left.
  - reflexivity.
  - discriminate Hm.
  - exact H.
Defined.

Lemma sent_commands_are_well_formed_witness :
  exists b,
    s3ArchiveStream None (OneClient twoPageClient) twoBuckets = inr b /\
    WellFormed (ListObjectsV2Command
                  (ListObjectsV2CommandInput.mk "bucket-a" "dir/" (Some "token-1"))).
Proof.
  eexists. split; [vm_compute; reflexivity|].
  eapply (sent_commands_are_well_formed None (OneClient twoPageClient) twoBuckets _
            interleaved).
  - vm_compute; reflexivity.
  - vm_compute. do 3 right. left.
Defined.

Lemma queued_content_was_served_witness :
  exists b,
    s3ArchiveStream None (OneClient twoPageClient) twoBuckets = inr b /\
    forall a, a ∈ queue (archive (run None interleaved b)) ->
      GetObjectCommand (origin a) ∈ sent (run None interleaved b) /\
      exists c,
        client (OneClient twoPageClient) (GetObjectCommandInput.Bucket (origin a)) = inr c /\
        Served c a.
Proof.
  eexists. split; [vm_compute; reflexivity|]. intros a Ha.
  apply (queued_content_was_served None (OneClient twoPageClient) twoBuckets _
           interleaved a); [vm_compute; reflexivity|exact Ha].
Defined.

Lemma directory_is_listed_before_it_is_archived_witness :
  exists st q outs,
    runGroup twoPageClient [None; None; None]
      (appendArchiveEntries [[Dir (dirEntry "bucket" "dir")]]) = (st, q) /\
    q <> [] /\
    Pages twoPageClient "bucket" "dir/" None outs.
Proof.
  eexists. eexists.
  edestruct (directory_is_listed_before_it_is_archived twoPageClient
               [None; None; None]
               (mkListing (dirEntry "bucket" "dir") [] None) [[]])
    as (outs & HP & _).
  - vm_compute; reflexivity.
  - discriminate.
  - exists outs. split; [vm_compute; reflexivity|]. split; [discriminate|exact HP].
Defined.

Lemma endless_listing_never_settles_witness :
  exists l',
    runGroup endlessClient [None; None; None]
      (Suspended (AwaitList (mkListing (dirEntry "bucket" "dir") [] None)) [[]])
    = (Suspended (AwaitList l') [[]], []) /\
    dir l' = dir (mkListing (dirEntry "bucket" "dir") [] None) /\
    exists pushed,
      directoryEntries l'
      = directoryEntries (mkListing (dirEntry "bucket" "dir") [] None) ++ pushed.
Proof.
  apply (endless_listing_never_settles endlessClient [None; None; None]
           (mkListing (dirEntry "bucket" "dir") [] None) [[]]).
  intros token. eexists. split; [reflexivity|]. split; reflexivity.
Defined.

Lemma before_any_send_settles_witness :
  exists b,
    s3ArchiveStream None (OneClient twoPageClient) twoBuckets = inr b /\
    queue (archive b) = [] /\
    (finalizeCalls (archive b) = 1%nat <-> twoBuckets = []).
Proof.
  eexists.
  edestruct (before_any_send_settles None (OneClient twoPageClient) twoBuckets)
    as (H1 & H2 & _).
  - vm_compute; reflexivity.
  - split; [vm_compute; reflexivity|]. split; [exact H1|exact H2].
Defined.

Lemma one_group_per_bucket_witness :
  exists b,
    s3ArchiveStream None (ClientRecord bucketA) twoBuckets = inr b /\
    map bucket (groups (run None interleaved b)) = map bucket (groups b) /\
    NoDup (map bucket (groups (run None interleaved b))).
Proof.
  eexists.
  edestruct one_group_per_bucket
    with (finalizeRejects := @None Thrown) (clientOrClients := ClientRecord bucketA)
         (entries := twoBuckets) (schedule := interleaved)
    as (H1 & _ & H3 & _).
  - vm_compute; reflexivity.
  - split; [vm_compute; reflexivity|]. split; [exact H3|exact H1].
Defined.
